(** * Ptex per-face rasters of [bke_ptex.c]: texel descriptors, raster
    store, mesh edge adjacency, border-filter neighbour resolution and the
    Ptex file import.

    The C functions are embedded as Rocq functions over [Z].  Arrays are
    lists read through an index lookup that yields [None] outside the array
    (an access the C program has no defined behaviour for), heap buffers live
    in a finite map from pointers to byte lists, and the routines that write
    through pointers take and return the store they change. *)

From Stdlib Require Import ZArith Lia Bool.
From Stdlib Require Import SpecFloat.
From stdpp Require Import base option numbers list sorting gmap.

Local Open Scope Z_scope.

(** ** C integer arithmetic

    [int] is 32 bits wide and [size_t] 64 bits wide.  A signed operation
    whose exact result does not fit is written with the two's-complement
    wrap-around that the compiled code produces. *)
Module CInt.

Definition INT_MAX : Z := 2 ^ 31 - 1.
Definition INT_MIN : Z := - 2 ^ 31.

Definition wrap_int (z : Z) : Z := (z + 2 ^ 31) mod 2 ^ 32 - 2 ^ 31.
Definition wrap_size_t (z : Z) : Z := z mod 2 ^ 64.

Definition in_int (z : Z) : Prop := INT_MIN <= z <= INT_MAX.

Definition int_add (a b : Z) : Z := wrap_int (a + b).
Definition int_sub (a b : Z) : Z := wrap_int (a - b).
Definition int_mul (a b : Z) : Z := wrap_int (a * b).
Definition int_shl (a b : Z) : Z := wrap_int (Z.shiftl a b).
(** [a % b] of C truncates towards zero; a zero divisor has no defined
    behaviour. *)
Definition int_rem (a b : Z) : option Z :=
  if b =? 0 then None else Some (Z.rem a b).

Definition size_mul (a b : Z) : Z := wrap_size_t (a * b).

End CInt.
Import CInt.

(** ** Texel descriptor *)

(** [MPtexDataType] has two enumerators; [MPTEX_DATA_TYPE_other] stands for
    any other value the C variable may hold, the case the [switch]
    statements fall out of. *)
Inductive MPtexDataType : Type :=
  | MPTEX_DATA_TYPE_UINT8
  | MPTEX_DATA_TYPE_FLOAT32
  | MPTEX_DATA_TYPE_other (raw : Z).

Record MPtexTexelInfo : Type := {
  data_type : MPtexDataType;
  num_channels : Z
}.

Record MPtexLogRes : Type := {
  logres_u : Z;
  logres_v : Z
}.

Record MPtexRes : Type := {
  res_u : Z;
  res_v : Z
}.

#[global] Instance MPtexDataType_eq_dec : EqDecision MPtexDataType.
Proof. solve_decision. Defined.
#[global] Instance MPtexTexelInfo_eq_dec : EqDecision MPtexTexelInfo.
Proof. solve_decision. Defined.
#[global] Instance MPtexLogRes_eq_dec : EqDecision MPtexLogRes.
Proof. solve_decision. Defined.

Definition ptex_data_type_num_bytes (data_type : MPtexDataType) : Z :=
  match data_type with
  | MPTEX_DATA_TYPE_UINT8 => 1
  | MPTEX_DATA_TYPE_FLOAT32 => 4
  | MPTEX_DATA_TYPE_other _ => 0
  end.

Definition ptex_rlog2_limit : Z := 30.

Definition ptex_rlog2_valid (rlog2 : Z) : bool :=
  (0 <=? rlog2) && (rlog2 <=? ptex_rlog2_limit).

(** [1 << rlog2], an [int]. *)
Definition ptex_res_from_rlog2 (rlog2 : Z) : Z := int_shl 1 rlog2.

(** The product is taken in [int] and only then converted to [size_t]. *)
Definition ptex_area_from_logres (logres : MPtexLogRes) : Z :=
  wrap_size_t (int_mul (ptex_res_from_rlog2 (logres_u logres))
                       (ptex_res_from_rlog2 (logres_v logres))).

Definition bke_ptex_res_from_logres (logres : MPtexLogRes) : MPtexRes :=
  {| res_u := ptex_res_from_rlog2 (logres_u logres);
     res_v := ptex_res_from_rlog2 (logres_v logres) |}.

(** The two factors are [int]s (the channel count is promoted); the
    product is converted to [size_t]. *)
Definition BKE_ptex_bytes_per_texel (texel_info : MPtexTexelInfo) : Z :=
  wrap_size_t (int_mul (ptex_data_type_num_bytes (data_type texel_info))
                       (num_channels texel_info)).

Definition BKE_ptex_rect_num_bytes (texel_info : MPtexTexelInfo)
    (logres : MPtexLogRes) : Z :=
  size_mul (BKE_ptex_bytes_per_texel texel_info) (ptex_area_from_logres logres).

(** [BKE_ptex_texel_info_init]: the out-parameter is the [Some] result. *)
Definition BKE_ptex_texel_info_init (data_type : MPtexDataType)
    (num_channels : Z) : option MPtexTexelInfo :=
  if (0 <=? num_channels) && (num_channels <=? 4)
  then Some {| data_type := data_type; num_channels := num_channels |}
  else None.

(** A descriptor with a recognised data type and a channel count that
    [BKE_ptex_texel_info_init] accepts. *)
Definition texel_info_accepted (info : MPtexTexelInfo) : Prop :=
  (data_type info = MPTEX_DATA_TYPE_UINT8 \/
   data_type info = MPTEX_DATA_TYPE_FLOAT32) /\
  0 <= num_channels info <= 4.

(** What [BKE_loop_ptex_init] asserts of its descriptor. *)
Definition texel_info_valid (info : MPtexTexelInfo) : Prop :=
  (data_type info = MPTEX_DATA_TYPE_UINT8 \/
   data_type info = MPTEX_DATA_TYPE_FLOAT32) /\
  1 <= num_channels info <= 4.

Definition logres_valid (logres : MPtexLogRes) : Prop :=
  ptex_rlog2_valid (logres_u logres) = true /\
  ptex_rlog2_valid (logres_v logres) = true.

(** ** Arrays and loops *)

(** [a[i]] for a C array held as a list: [None] outside the array. *)
Definition array_get {A : Type} (a : list A) (i : Z) : option A :=
  if 0 <=? i then a !! Z.to_nat i else None.

(** [a[i] = x]: [None] outside the array. *)
Definition array_set {A : Type} (a : list A) (i : Z) (x : A) : option (list A) :=
  if (0 <=? i) && (i <? Z.of_nat (length a))
  then Some (<[Z.to_nat i := x]> a)
  else None.

(** A [for] loop over the index values [idx], threading the state [s];
    [None] is an iteration without defined behaviour. *)
Fixpoint for_each {S : Type} (idx : list Z) (body : Z -> S -> option S)
    (s : S) : option S :=
  match idx with
  | [] => Some s
  | i :: idx' =>
      match body i s with
      | Some s' => for_each idx' body s'
      | None => None
      end
  end.

(** ** Single-precision floats

    [float] values are [spec_float]s of precision 24; the operations are the
    IEEE-754 binary32 ones with round-to-nearest-even. *)
Module Float32.

Definition prec : Z := 24.
Definition emax : Z := 128.

Definition of_Z (z : Z) : spec_float := binary_normalize prec emax z 0 false.
Definition mul : spec_float -> spec_float -> spec_float := SFmul prec emax.
Definition add : spec_float -> spec_float -> spec_float := SFadd prec emax.
Definition sub : spec_float -> spec_float -> spec_float := SFsub prec emax.
Definition div : spec_float -> spec_float -> spec_float := SFdiv prec emax.

(** The [double] nearest to the decimal literal [n/d]. *)
Definition double_of_ratio (n d : Z) : spec_float :=
  SFdiv 53 1024 (binary_normalize 53 1024 n 0 false)
                (binary_normalize 53 1024 d 0 false).

(** Conversion of a [double] to [float]. *)
Definition of_double (x : spec_float) : spec_float :=
  match x with
  | S754_finite s m e => binary_normalize prec emax (cond_Zopp s (Zpos m)) e s
  | _ => x
  end.

(** Conversion to an integer type: the fraction is discarded. *)
Definition to_int_trunc (x : spec_float) : Z :=
  match x with
  | S754_finite s m e =>
      cond_Zopp s (if e <? 0 then Zpos m / 2 ^ (- e) else Zpos m * 2 ^ e)
  | _ => 0
  end.

(** The 32-bit pattern of a [float]. *)
Definition bits (x : spec_float) : Z :=
  match x with
  | S754_zero s => if s then 2 ^ 31 else 0
  | S754_infinity s => (if s then 2 ^ 31 else 0) + 255 * 2 ^ 23
  | S754_nan => 255 * 2 ^ 23 + 2 ^ 22
  | S754_finite s m e =>
      (if s then 2 ^ 31 else 0) +
      (if 2 ^ 23 <=? Zpos m
       then (e + 150) * 2 ^ 23 + (Zpos m - 2 ^ 23)
       else Zpos m)
  end.

(** The four bytes of a [float] in memory, least significant first. *)
Definition bytes (x : spec_float) : list Z :=
  let b := bits x in
  [b mod 256; (b / 2 ^ 8) mod 256; (b / 2 ^ 16) mod 256; (b / 2 ^ 24) mod 256].

End Float32.

(** Modelled from the spec: the [FTOCHAR] macro of [BLI_utildefines.h]
    (not under src/), the conversion of a [float] channel to a byte by
    round-to-nearest with clamping:
    [(val <= 0.0f) ? 0 : ((val > 1.0f - 0.5f / 255.0f) ? 255 :
    (char)(255.0f * val + 0.5f))], stored into a [uint8_t]. *)
Definition FTOCHAR (val : spec_float) : Z :=
  let half := Float32.div (Float32.of_Z 1) (Float32.of_Z 2) in
  let top := Float32.sub (Float32.of_Z 1)
               (Float32.div half (Float32.of_Z 255)) in
  if SFleb val (Float32.of_Z 0) then 0
  else if SFltb top val then 255
  else Float32.to_int_trunc
         (Float32.add (Float32.mul (Float32.of_Z 255) val) half) mod 256.

(** ** Guarded allocator and byte buffers *)

Definition pointer : Type := positive.

(** The store of allocated blocks.  [alloc_limit] is the largest request
    the allocator satisfies and [junk] the byte that fresh memory holds;
    nothing below depends on either value. *)
Record heap : Type := {
  blocks : gmap positive (list Z);
  alloc_limit : Z;
  junk : Z
}.

Definition heap_with_blocks (h : heap) (b : gmap positive (list Z)) : heap :=
  {| blocks := b; alloc_limit := alloc_limit h; junk := junk h |}.

(** [MEM_mallocN(len, ...)]: [None] is the NULL result.  A request of
    [2^63] bytes or more never succeeds. *)
Definition MEM_mallocN (len : Z) (h : heap) : option pointer * heap :=
  if (len <=? alloc_limit h) && (len <? 2 ^ 63) then
    let p := fresh (dom (blocks h)) in
    (Some p,
     heap_with_blocks h (<[p := replicate (Z.to_nat len) (junk h)]> (blocks h)))
  else (None, h).

(** [MEM_freeN(p)]; a NULL argument is reported and otherwise ignored. *)
Definition MEM_freeN (p : option pointer) (h : heap) : heap :=
  match p with
  | Some p => heap_with_blocks h (delete p (blocks h))
  | None => h
  end.

Definition buf_read (buf : list Z) (off len : Z) : option (list Z) :=
  if (0 <=? off) && (0 <=? len) && (off + len <=? Z.of_nat (length buf))
  then Some (take (Z.to_nat len) (drop (Z.to_nat off) buf))
  else None.

Definition buf_write (buf : list Z) (off : Z) (data : list Z) : option (list Z) :=
  if (0 <=? off) && (off + Z.of_nat (length data) <=? Z.of_nat (length buf))
  then Some (take (Z.to_nat off) buf ++ data ++
             drop (Z.to_nat off + length data) buf)
  else None.

(** [memcpy(buf + dst, buf + src, n)] inside one block. *)
Definition memcpy_within (buf : list Z) (dst src n : Z) : option (list Z) :=
  match buf_read buf src n with
  | Some data => buf_write buf dst data
  | None => None
  end.

(** Texel [t] of a buffer of [bpt]-byte texels. *)
Definition texel_at (bpt : Z) (buf : list Z) (t : Z) : option (list Z) :=
  buf_read buf (t * bpt) bpt.

(** ** Raster store *)

Record MLoopPtex : Type := {
  lp_texel_info : MPtexTexelInfo;
  lp_logres : MPtexLogRes;
  lp_rect : option pointer;
  lp_image : option Z
}.

Definition BKE_loop_ptex_rect_num_bytes (loop_ptex : MLoopPtex) : Z :=
  BKE_ptex_rect_num_bytes (lp_texel_info loop_ptex) (lp_logres loop_ptex).

Definition bke_ptex_texels_malloc (texel_info : MPtexTexelInfo)
    (logres : MPtexLogRes) (h : heap) : option pointer * heap :=
  MEM_mallocN (BKE_ptex_rect_num_bytes texel_info logres) h.

(** [ptex_data_from_float(buf + dst, src, data_type, count)]: the first
    [count] floats of [src] converted and stored at offset [dst]. *)
Definition ptex_data_from_float (buf : list Z) (dst : Z) (src : list spec_float)
    (data_type : MPtexDataType) (count : Z) : option (list Z) :=
  match data_type with
  | MPTEX_DATA_TYPE_UINT8 =>
      if count <=? Z.of_nat (length src)
      then buf_write buf dst (FTOCHAR <$> take (Z.to_nat count) src)
      else None
  | MPTEX_DATA_TYPE_FLOAT32 =>
      if count <=? Z.of_nat (length src)
      then buf_write buf dst
             (mjoin (Float32.bytes <$> take (Z.to_nat count) src))
      else None
  | MPTEX_DATA_TYPE_other _ => Some buf
  end.

(** [bke_loop_ptex_fill]: the first texel is converted from [fpixel], the
    others are byte copies of it.  The loop counter is an [int]: an area
    above [INT_MAX] cannot be traversed. *)
Definition bke_loop_ptex_fill (lp : MLoopPtex) (fpixel : list spec_float)
    (h : heap) : option (bool * heap) :=
  let bytes_per_texel := wrap_int (BKE_ptex_bytes_per_texel (lp_texel_info lp)) in
  let area := ptex_area_from_logres (lp_logres lp) in
  match lp_rect lp with
  | None => Some (false, h)
  | Some p =>
      if area <? 1 then Some (false, h)
      else
        buf ← blocks h !! p;
        buf1 ← ptex_data_from_float buf 0 fpixel
                 (data_type (lp_texel_info lp))
                 (wrap_size_t (num_channels (lp_texel_info lp)));
        if INT_MAX <? area then None
        else
          '(_, buf2) ← for_each (seqZ 1 (area - 1))
             (fun _ '(dst, b) =>
                let dst' := dst + bytes_per_texel in
                b' ← memcpy_within b dst' 0 bytes_per_texel;
                Some (dst', b'))
             (0, buf1);
          Some (true, heap_with_blocks h (<[p := buf2]> (blocks h)))
  end.

(** [{0.8, 0.8, 0.8, 1}]: [double] literals stored as [float]. *)
Definition default_pixel : list spec_float :=
  [Float32.of_double (Float32.double_of_ratio 8 10);
   Float32.of_double (Float32.double_of_ratio 8 10);
   Float32.of_double (Float32.double_of_ratio 8 10);
   Float32.of_Z 1].

Definition BKE_loop_ptex_init (loop_ptex : MLoopPtex)
    (texel_info : MPtexTexelInfo) (logres : MPtexLogRes) (h : heap)
    : option (MLoopPtex * heap) :=
  let '(rect, h1) := bke_ptex_texels_malloc texel_info logres h in
  let lp := {| lp_texel_info := texel_info; lp_logres := logres;
               lp_rect := rect; lp_image := lp_image loop_ptex |} in
  '(_, h2) ← bke_loop_ptex_fill lp default_pixel h1;
  Some (lp, h2).

Definition BKE_loop_ptex_free (loop_ptex : MLoopPtex) (h : heap) : heap :=
  match lp_rect loop_ptex with
  | Some p => MEM_freeN (Some p) h
  | None => h
  end.

(** ** The BPX image library

    The image-buffer wrapper and the Ptex file reader are an external
    library.  A [BPXImageBuf] made by wrapping describes pixels that stay in
    the raster's own block; the library's operations are taken as an
    interface. *)

Inductive BPXTypeDesc : Type :=
  | BPX_TYPE_DESC_UINT8
  | BPX_TYPE_DESC_FLOAT
  | BPX_TYPE_DESC_other (raw : Z).

Record BPXImageBuf : Type := {
  bpx_width : Z;
  bpx_height : Z;
  bpx_channels : Z;
  bpx_type_desc : BPXTypeDesc;
  bpx_data : pointer
}.

(** [World] is the state of the library: the open file with its current
    subimage and the buffers the library owns; [Owned] names one of those
    buffers.  An operation on wrapped buffers receives the bytes of the
    blocks it is handed and returns its status with the new bytes of the
    destination. *)
Class BPXLibrary (World Owned : Type) : Type := {
  BPX_image_buf_wrap_ok : Z -> Z -> Z -> BPXTypeDesc -> bool;
  BPX_resample :
    BPXImageBuf -> BPXImageBuf -> list Z -> list Z -> bool * list Z;
  BPX_image_input_type_desc : World -> option BPXTypeDesc;
  BPX_image_input_num_channels : World -> option Z;
  BPX_image_input_seek_subimage : World -> Z -> option (Z * Z) * World;
  BPX_input_read_wrapped : World -> BPXImageBuf -> list Z -> bool * list Z;
  BPX_transform : BPXImageBuf -> list Z -> bool * list Z;
  BPX_image_buf_alloc_empty : World -> option Owned * World;
  BPX_input_read_owned : World -> Owned -> bool * World;
  BPX_quad_split_bytes :
    World -> Owned -> list (BPXImageBuf * list Z) -> bool * list (list Z);
  BPX_image_buf_free_owned : World -> Owned -> World
}.

Definition bpx_type_desc_to_mptex_data_type (type_desc : BPXTypeDesc)
    : option MPtexDataType :=
  match type_desc with
  | BPX_TYPE_DESC_UINT8 => Some MPTEX_DATA_TYPE_UINT8
  | BPX_TYPE_DESC_FLOAT => Some MPTEX_DATA_TYPE_FLOAT32
  | BPX_TYPE_DESC_other _ => None
  end.

Definition bpx_type_desc_from_mptex_data_type (data_type : MPtexDataType)
    : option BPXTypeDesc :=
  match data_type with
  | MPTEX_DATA_TYPE_UINT8 => Some BPX_TYPE_DESC_UINT8
  | MPTEX_DATA_TYPE_FLOAT32 => Some BPX_TYPE_DESC_FLOAT
  | MPTEX_DATA_TYPE_other _ => None
  end.

Section WithBPX.
Context {World Owned : Type} `{!BPXLibrary World Owned}.

Definition BPX_image_buf_wrap (width height channels : Z)
    (type_desc : BPXTypeDesc) (data : pointer) : option BPXImageBuf :=
  if BPX_image_buf_wrap_ok width height channels type_desc
  then Some {| bpx_width := width; bpx_height := height;
               bpx_channels := channels; bpx_type_desc := type_desc;
               bpx_data := data |}
  else None.

Definition bpx_image_buf_wrap_ptex_rect (logres : MPtexLogRes)
    (info : MPtexTexelInfo) (rect : option pointer) : option BPXImageBuf :=
  match rect with
  | Some r =>
      let res := bke_ptex_res_from_logres logres in
      match bpx_type_desc_from_mptex_data_type (data_type info) with
      | Some type_desc =>
          BPX_image_buf_wrap (res_u res) (res_v res) (num_channels info)
            type_desc r
      | None => None
      end
  | None => None
  end.

Definition bpx_image_buf_wrap_loop_ptex (loop_ptex : option MLoopPtex)
    : option BPXImageBuf :=
  match loop_ptex with
  | None => None
  | Some lp =>
      bpx_image_buf_wrap_ptex_rect (lp_logres lp) (lp_texel_info lp)
        (lp_rect lp)
  end.

(** A library operation that reads the block of [src] and writes the block
    of [dst]; a NULL wrapper makes it fail, a wrapper of a block that is not
    allocated has no defined behaviour. *)
Definition bpx_on_blocks (op : BPXImageBuf -> list Z -> list Z -> bool * list Z)
    (dst src : option BPXImageBuf) (h : heap) : option (bool * heap) :=
  match dst, src with
  | Some d, Some s =>
      sb ← blocks h !! bpx_data s;
      db ← blocks h !! bpx_data d;
      let '(ok, db') := op s sb db in
      Some (ok, heap_with_blocks h (<[bpx_data d := db']> (blocks h)))
  | _, _ => Some (false, h)
  end.

Definition BPX_image_buf_resize (dst src : option BPXImageBuf) (h : heap)
    : option (bool * heap) :=
  match dst with
  | Some d => bpx_on_blocks (BPX_resample d) dst src h
  | None => Some (false, h)
  end.

Definition BKE_loop_ptex_resize (lp : MLoopPtex) (dst_logres : MPtexLogRes)
    (h : heap) : option (bool * MLoopPtex * heap) :=
  let texel_info := lp_texel_info lp in
  match lp_rect lp with
  | Some old =>
      let '(dst_rect, h1) := bke_ptex_texels_malloc texel_info dst_logres h in
      let bpx_src := bpx_image_buf_wrap_loop_ptex (Some lp) in
      let bpx_dst := bpx_image_buf_wrap_ptex_rect dst_logres texel_info dst_rect in
      '(ok, h2) ← BPX_image_buf_resize bpx_dst bpx_src h1;
      if ok : bool then
        Some (true,
              {| lp_texel_info := lp_texel_info lp; lp_logres := dst_logres;
                 lp_rect := dst_rect; lp_image := lp_image lp |},
              MEM_freeN (Some old) h2)
      else Some (false, lp, MEM_freeN dst_rect h2)
  | None => Some (false, lp, h)
  end.

End WithBPX.

(** ** Mesh topology *)

Record MPoly : Type := {
  p_loopstart : Z;
  p_totloop : Z
}.

Record MLoop : Type := {
  l_v : Z;
  l_e : Z
}.

(** A named [CD_LOOP_PTEX] layer: one raster record per loop. *)
Record PtexLayer : Type := {
  layer_name : list Z;
  layer_data : list MLoopPtex
}.

Record Mesh : Type := {
  me_totedge : Z;
  me_totpoly : Z;
  me_totloop : Z;
  me_mpoly : list MPoly;
  me_mloop : list MLoop;
  me_ldata : list PtexLayer
}.

(** ** Mesh edge-adjacency index *)

Definition BKE_PTEX_NO_ADJ_POLY : Z := -1.
Definition BKE_PTEX_MAX_ADJ_POLYS : Z := 2.

(** [int polys[BKE_PTEX_MAX_ADJ_POLYS]]. *)
Record BKEPtexEdgeAdj : Type := {
  polys_0 : Z;
  polys_1 : Z
}.

#[global] Instance BKEPtexEdgeAdj_eq_dec : EqDecision BKEPtexEdgeAdj.
Proof. solve_decision. Defined.

Definition polys (a : BKEPtexEdgeAdj) (i : Z) : Z :=
  if i =? 0 then polys_0 a else polys_1 a.

Definition polys_set (a : BKEPtexEdgeAdj) (i : Z) (x : Z) : BKEPtexEdgeAdj :=
  if i =? 0 then {| polys_0 := x; polys_1 := polys_1 a |}
  else {| polys_0 := polys_0 a; polys_1 := x |}.

Definition bke_ptex_edge_adj_alloc (me : Mesh) : list BKEPtexEdgeAdj :=
  replicate (Z.to_nat (me_totedge me))
    {| polys_0 := BKE_PTEX_NO_ADJ_POLY; polys_1 := BKE_PTEX_NO_ADJ_POLY |}.

(** The slot loop of [bke_ptex_edge_adj_init]: the first empty slot among
    [js] takes [poly_index], then the loop breaks. *)
Fixpoint edge_adj_fill_slot (js : list Z) (a : BKEPtexEdgeAdj) (poly_index : Z)
    : BKEPtexEdgeAdj :=
  match js with
  | [] => a
  | j :: js' =>
      if polys a j =? BKE_PTEX_NO_ADJ_POLY
      then polys_set a j poly_index
      else edge_adj_fill_slot js' a poly_index
  end.

Definition edge_adj_add (a : BKEPtexEdgeAdj) (poly_index : Z) : BKEPtexEdgeAdj :=
  edge_adj_fill_slot (seqZ 0 BKE_PTEX_MAX_ADJ_POLYS) a poly_index.

(** The body of the loop over the loops of polygon [poly_index]. *)
Definition edge_adj_visit_loop (me : Mesh) (p : MPoly) (poly_index : Z)
    (i : Z) (adj : list BKEPtexEdgeAdj) : option (list BKEPtexEdgeAdj) :=
  let li := int_add (p_loopstart p) i in
  l ← array_get (me_mloop me) li;
  let ei := l_e l in
  a ← array_get adj ei;
  array_set adj ei (edge_adj_add a poly_index).

Definition edge_adj_visit_poly (me : Mesh) (poly_index : Z)
    (adj : list BKEPtexEdgeAdj) : option (list BKEPtexEdgeAdj) :=
  p ← array_get (me_mpoly me) poly_index;
  for_each (seqZ 0 (p_totloop p)) (edge_adj_visit_loop me p poly_index) adj.

(** [None] is a run that reads or writes outside an array. *)
Definition bke_ptex_edge_adj_init (me : Mesh) : option (list BKEPtexEdgeAdj) :=
  for_each (seqZ 0 (me_totpoly me)) (edge_adj_visit_poly me)
    (bke_ptex_edge_adj_alloc me).

(** The search loop of [bke_ptex_edge_adj_other_poly]. *)
Fixpoint edge_adj_other_from (idx : list Z) (edge_adj : BKEPtexEdgeAdj)
    (poly_index : Z) : Z :=
  match idx with
  | [] => BKE_PTEX_NO_ADJ_POLY
  | i :: idx' =>
      if polys edge_adj i =? poly_index
      then polys edge_adj (BKE_PTEX_MAX_ADJ_POLYS - i - 1)
      else edge_adj_other_from idx' edge_adj poly_index
  end.

(** [edge_adj] is a pointer in C; [None] is NULL. *)
Definition bke_ptex_edge_adj_other_poly (edge_adj : option BKEPtexEdgeAdj)
    (poly_index : Z) : Z :=
  match edge_adj with
  | Some a => edge_adj_other_from (seqZ 0 BKE_PTEX_MAX_ADJ_POLYS) a poly_index
  | None => BKE_PTEX_NO_ADJ_POLY
  end.

(** ** Border filter: the neighbour across one side *)

Inductive BPXSide : Type :=
  | BPX_SIDE_BOTTOM
  | BPX_SIDE_RIGHT
  | BPX_SIDE_TOP
  | BPX_SIDE_LEFT.

#[global] Instance BPXSide_eq_dec : EqDecision BPXSide.
Proof. solve_decision. Defined.

Record BPXEdge : Type := {
  side : BPXSide;
  reverse : bool
}.

#[global] Instance BPXEdge_eq_dec : EqDecision BPXEdge.
Proof. solve_decision. Defined.

(** The scan of the loops of the neighbour [p2] for the edge [e1].
    [Some None]: the scan ended without a match. *)
Fixpoint adj_edge_scan (me : Mesh) (p2 : MPoly) (e1 : Z) (loop_side : BPXSide)
    (idx : list Z) : option (option (Z * BPXSide)) :=
  match idx with
  | [] => Some None
  | i :: idx' =>
      let li2 := int_add (p_loopstart p2) i in
      l2 ← array_get (me_mloop me) li2;
      if e1 =? l_e l2 then
        match loop_side with
        | BPX_SIDE_TOP =>
            r ← int_rem (int_add i 1) (p_totloop p2);
            Some (Some (int_add (p_loopstart p2) r, BPX_SIDE_RIGHT))
        | _ => Some (Some (int_add (p_loopstart p2) i, BPX_SIDE_TOP))
        end
      else adj_edge_scan me p2 e1 loop_side idx'
  end.

(** [ptex_adj_edge]: the result is the pair stored through [adj_loop] and
    [adj_edge]; [None] is a run that indexes outside an array or takes a
    remainder by zero. *)
Definition ptex_adj_edge (adj : list BKEPtexEdgeAdj) (me : Mesh)
    (poly_index1 loop_offset : Z) (loop_side : BPXSide)
    : option (Z * BPXEdge) :=
  p1 ← array_get (me_mpoly me) poly_index1;
  match loop_side with
  | BPX_SIDE_BOTTOM =>
      r ← int_rem (int_sub (int_add (p_totloop p1) loop_offset) 1)
            (p_totloop p1);
      Some (int_add (p_loopstart p1) r,
            {| side := BPX_SIDE_LEFT; reverse := true |})
  | BPX_SIDE_LEFT =>
      r ← int_rem (int_add loop_offset 1) (p_totloop p1);
      Some (int_add (p_loopstart p1) r,
            {| side := BPX_SIDE_BOTTOM; reverse := true |})
  | _ =>
      e1_offset ←
        match loop_side with
        | BPX_SIDE_TOP => Some loop_offset
        | _ => int_rem (int_sub (int_add (p_totloop p1) loop_offset) 1)
                 (p_totloop p1)
        end;
      l1 ← array_get (me_mloop me) (int_add (p_loopstart p1) e1_offset);
      a ← array_get adj (l_e l1);
      let poly_index2 := bke_ptex_edge_adj_other_poly (Some a) poly_index1 in
      let self := (int_add (p_loopstart p1) loop_offset,
                   {| side := loop_side; reverse := true |}) in
      if poly_index2 =? BKE_PTEX_NO_ADJ_POLY then Some self
      else
        p2 ← array_get (me_mpoly me) poly_index2;
        found ← adj_edge_scan me p2 (l_e l1) loop_side (seqZ 0 (p_totloop p2));
        match found with
        | Some (li, s) => Some (li, {| side := s; reverse := true |})
        | None => Some self
        end
  end.

(** ** Ptex file import *)

(** Modelled from the spec: [is_power_of_2_i] of [BLI_math_base.h] (not
    under src/), the power-of-two test on a resolution,
    [(n & (n - 1)) == 0]. *)
Definition is_power_of_2_i (n : Z) : bool := Z.land n (n - 1) =? 0.

(** The record of a [CD_CALLOC] layer: every field zero, [rect] and [image]
    NULL (the enumerator with value zero is taken to be the first one). *)
Definition loop_ptex_calloc : MLoopPtex :=
  {| lp_texel_info := {| data_type := MPTEX_DATA_TYPE_UINT8; num_channels := 0 |};
     lp_logres := {| logres_u := 0; logres_v := 0 |};
     lp_rect := None;
     lp_image := None |}.

(** Modelled from the spec: [CustomData_add_layer_named] of [customdata.c]
    (not under src/) called with [CD_CALLOC]: a named per-face layer of
    [totelem] zeroed raster records is added to the mesh's layers, one record
    per loop.  The result is the position of the new layer with the new
    layers; [None] is the NULL result, given when there is nothing to
    allocate. *)
Definition CustomData_add_layer_named (ldata : list PtexLayer) (totelem : Z)
    (name : list Z) : option (nat * list PtexLayer) :=
  if 0 <? totelem
  then Some (length ldata,
             ldata ++ [ {| layer_name := name;
                           layer_data := replicate (Z.to_nat totelem)
                                           loop_ptex_calloc |} ])
  else None.

(** The state the import loops work on.  [im_layer] is the array
    [loop_ptex] points to, which is the data of the layer just added to the
    mesh: a write to it is a write to the mesh. *)
Record import_state (World : Type) : Type := {
  im_layer : list MLoopPtex;
  im_face_id : Z;
  im_heap : heap;
  im_world : World
}.
Arguments im_layer {World} _.
Arguments im_face_id {World} _.
Arguments im_heap {World} _.
Arguments im_world {World} _.

Section PtexImport.
Context {World Owned : Type} `{!BPXLibrary World Owned}.

(** [(int)(log(x) / M_LN2)], computed by the C library in floating point. *)
Variable log2_trunc : Z -> Z.

Definition BKE_ptex_log_res_from_res (u v : Z) : option MPtexLogRes :=
  if is_power_of_2_i u && (0 <=? u) && is_power_of_2_i v && (0 <=? v)
  then Some {| logres_u := log2_trunc u; logres_v := log2_trunc v |}
  else None.

Definition bke_ptex_texel_info_from_bpx (input : option World)
    : option MPtexTexelInfo :=
  w ← input;
  type_desc ← BPX_image_input_type_desc w;
  num_channels ← BPX_image_input_num_channels w;
  data_type ← bpx_type_desc_to_mptex_data_type type_desc;
  BKE_ptex_texel_info_init data_type num_channels.

(** A library operation that rewrites the block of one wrapped buffer. *)
Definition bpx_on_block (op : list Z -> bool * list Z) (d : BPXImageBuf)
    (h : heap) : option (bool * heap) :=
  db ← blocks h !! bpx_data d;
  let '(ok, db') := op db in
  Some (ok, heap_with_blocks h (<[bpx_data d := db']> (blocks h))).

(** The result carries the raster as the call leaves it, whatever the
    status. *)
Definition mesh_ptex_import_loop (src : World) (loop_ptex : MLoopPtex)
    (texel_info : MPtexTexelInfo) (width height : Z) (h : heap)
    : option (bool * MLoopPtex * heap) :=
  match BKE_ptex_log_res_from_res width height with
  | None => Some (false, loop_ptex, h)
  | Some logres =>
      '(lp, h1) ← BKE_loop_ptex_init loop_ptex texel_info logres h;
      match bpx_image_buf_wrap_loop_ptex (Some lp) with
      | None => Some (false, lp, h1)
      | Some dst =>
          '(result, h2) ← bpx_on_block (BPX_input_read_wrapped src dst) dst h1;
          if result : bool then
            '(result', h3) ← bpx_on_block (BPX_transform dst) dst h2;
            Some (result', lp, h3)
          else Some (false, lp, h2)
      end
  end.

Definition quad_logres (logres : MPtexLogRes) : MPtexLogRes :=
  {| logres_u := if 1 <=? logres_u logres then logres_u logres - 1
                 else logres_u logres;
     logres_v := if 1 <=? logres_v logres then logres_v logres - 1
                 else logres_v logres |}.

Definition transpose_logres (logres : MPtexLogRes) : MPtexLogRes :=
  {| logres_u := logres_v logres; logres_v := logres_u logres |}.

(** The allocation loop of [mesh_ptex_import_quad] over [loop_ptex[i]],
    where [loop_ptex] is [&layer[base]]. *)
Definition import_quad_alloc (texel_info : MPtexTexelInfo)
    (logres logres_transposed : MPtexLogRes) (base : Z) (i : Z)
    (s : list MLoopPtex * heap * list (option BPXImageBuf))
    : option (list MLoopPtex * heap * list (option BPXImageBuf)) :=
  let '(layer, h, dst) := s in
  lp ← array_get layer (base + i);
  '(lp', h') ← BKE_loop_ptex_init lp texel_info
                 (if Z.rem i 2 =? 0 then logres else logres_transposed) h;
  layer' ← array_set layer (base + i) lp';
  Some (layer', h', dst ++ [bpx_image_buf_wrap_loop_ptex (Some lp')]).

(** [BPX_image_buf_quad_split(dst, all_buf)]: the four destination blocks
    are rewritten; with a NULL destination nothing is written. *)
Definition BPX_image_buf_quad_split (dst : list (option BPXImageBuf))
    (w : World) (all_buf : Owned) (h : heap) : option (bool * heap) :=
  match mapM id dst with
  | None => Some (false, h)
  | Some ds =>
      bs ← mapM (fun d => blocks h !! bpx_data d) ds;
      let '(r, bs') := BPX_quad_split_bytes w all_buf (zip ds bs) in
      Some (r, heap_with_blocks h
                 (foldr (fun '(d, b) m => <[bpx_data d := b]> m) (blocks h)
                    (zip ds bs')))
  end.

Definition mesh_ptex_import_quad (src : World) (layer : list MLoopPtex)
    (base : Z) (texel_info : MPtexTexelInfo) (width height : Z) (h : heap)
    : option (bool * list MLoopPtex * heap * World) :=
  match BKE_ptex_log_res_from_res width height with
  | None => Some (false, layer, h, src)
  | Some logres0 =>
      match BPX_image_buf_alloc_empty src with
      | (None, w1) => Some (false, layer, h, w1)
      | (Some all_buf, w1) =>
          match BPX_input_read_owned w1 all_buf with
          | (false, w2) =>
              Some (false, layer, h, BPX_image_buf_free_owned w2 all_buf)
          | (true, w2) =>
              let logres := quad_logres logres0 in
              let logres_transposed := transpose_logres logres in
              '(layer', h1, dst) ←
                 for_each (seqZ 0 4)
                   (import_quad_alloc texel_info logres logres_transposed base)
                   (layer, h, []);
              '(_, h2) ← BPX_image_buf_quad_split dst w2 all_buf h1;
              Some (true, layer', h2, BPX_image_buf_free_owned w2 all_buf)
          end
      end
  end.

(** The loop over the loops [js] of polygon [p].  The flag of the result
    is set when the import is given up ([i = me->totpoly; break]). *)
Fixpoint import_poly_loops (texel_info : MPtexTexelInfo) (p : MPoly)
    (js : list Z) (st : import_state World)
    : option (import_state World * bool) :=
  match js with
  | [] => Some (st, false)
  | j :: js' =>
      let loop_index := int_add (p_loopstart p) j in
      match BPX_image_input_seek_subimage (im_world st) (im_face_id st) with
      | (None, w1) =>
          Some ({| im_layer := im_layer st; im_face_id := im_face_id st;
                   im_heap := im_heap st; im_world := w1 |}, true)
      | (Some (width, height), w1) =>
          if p_totloop p =? 4 then
            '(ok, layer', h', w2) ←
               mesh_ptex_import_quad w1 (im_layer st) loop_index texel_info
                 width height (im_heap st);
            if ok : bool then
              Some ({| im_layer := layer';
                       im_face_id := int_add (im_face_id st) 1;
                       im_heap := h'; im_world := w2 |}, false)
            else
              Some ({| im_layer := layer'; im_face_id := im_face_id st;
                       im_heap := h'; im_world := w2 |}, true)
          else
            lp ← array_get (im_layer st) loop_index;
            '(ok, lp', h') ←
               mesh_ptex_import_loop w1 lp texel_info width height (im_heap st);
            layer' ← array_set (im_layer st) loop_index lp';
            if ok : bool then
              import_poly_loops texel_info p js'
                {| im_layer := layer';
                   im_face_id := int_add (im_face_id st) 1;
                   im_heap := h'; im_world := w1 |}
            else
              Some ({| im_layer := layer'; im_face_id := im_face_id st;
                       im_heap := h'; im_world := w1 |}, true)
      end
  end.

(** The loop over the polygons [idx]; it ends at the first polygon that
    gives the import up. *)
Fixpoint import_polys (me : Mesh) (texel_info : MPtexTexelInfo)
    (idx : list Z) (st : import_state World)
    : option (import_state World * bool) :=
  match idx with
  | [] => Some (st, false)
  | i :: idx' =>
      p ← array_get (me_mpoly me) i;
      '(st', stop) ← import_poly_loops texel_info p (seqZ 0 (p_totloop p)) st;
      if stop : bool then Some (st', true)
      else import_polys me texel_info idx' st'
  end.

Definition mesh_with_ldata (me : Mesh) (ldata : list PtexLayer) : Mesh :=
  {| me_totedge := me_totedge me; me_totpoly := me_totpoly me;
     me_totloop := me_totloop me; me_mpoly := me_mpoly me;
     me_mloop := me_mloop me; me_ldata := ldata |}.

(** [BKE_ptex_import(me, filepath)]: [input] is what opening the file gave
    and [name] the base name of the path.  The result is the returned status
    with the mesh and the store as the call leaves them. *)
Definition BKE_ptex_import (me : Mesh) (input : option World) (name : list Z)
    (h : heap) : option (bool * Mesh * heap) :=
  match input with
  | None => Some (false, me, h)
  | Some w =>
      match bke_ptex_texel_info_from_bpx input with
      | None => Some (false, me, h)
      | Some texel_info =>
          match CustomData_add_layer_named (me_ldata me) (me_totloop me) name with
          | None => Some (false, me, h)
          | Some (ln, ldata) =>
              loop_ptex ← ldata !! ln;
              '(st, _) ←
                 import_polys me texel_info (seqZ 0 (me_totpoly me))
                   {| im_layer := layer_data loop_ptex;
                      im_face_id := 0; im_heap := h; im_world := w |};
              Some (true,
                    mesh_with_ldata me
                      (<[ln := {| layer_name := name;
                                  layer_data := im_layer st |}]> ldata),
                    im_heap st)
          end
      end
  end.

End PtexImport.

(** ** A small instance of the library

    A Ptex file as the list of its subimages (width, height, and whether the
    subimage decodes); the pixel operations leave simple patterns.  It is
    used to run the functions above on concrete meshes and files. *)

Record ptex_file : Type := {
  file_type_desc : BPXTypeDesc;
  file_channels : Z;
  file_subimages : list (Z * Z * bool);
  file_current : Z
}.

Definition ptex_file_seek (f : ptex_file) (id : Z)
    : option (Z * Z) * ptex_file :=
  match array_get (file_subimages f) id with
  | Some (w, h, _) =>
      (Some (w, h),
       {| file_type_desc := file_type_desc f; file_channels := file_channels f;
          file_subimages := file_subimages f; file_current := id |})
  | None => (None, f)
  end.

Definition ptex_file_decodes (f : ptex_file) : bool :=
  match array_get (file_subimages f) (file_current f) with
  | Some (_, _, ok) => ok
  | None => false
  end.

#[global] Instance ptex_file_library : BPXLibrary ptex_file unit := {|
  BPX_image_buf_wrap_ok := fun _ _ _ _ => true;
  BPX_resample := fun _ _ sb db =>
    (negb (bool_decide (sb = [])), replicate (length db) (hd 0 sb));
  BPX_image_input_type_desc := fun f => Some (file_type_desc f);
  BPX_image_input_num_channels := fun f => Some (file_channels f);
  BPX_image_input_seek_subimage := ptex_file_seek;
  BPX_input_read_wrapped := fun f _ db =>
    (ptex_file_decodes f, replicate (length db) (file_current f + 1));
  BPX_transform := fun _ db => (true, db);
  BPX_image_buf_alloc_empty := fun f => (Some (), f);
  BPX_input_read_owned := fun f _ => (ptex_file_decodes f, f);
  BPX_quad_split_bytes := fun f _ dst =>
    (true, (fun '(_, b) => replicate (length b) (file_current f + 1)) <$> dst);
  BPX_image_buf_free_owned := fun f _ => f
|}.

Definition heap_empty : heap :=
  {| blocks := ∅; alloc_limit := 2 ^ 20; junk := 0 |}.

(** ** Notions used in the statements *)

(** The mesh invariants the functions rely on: the counts are the array
    lengths, every polygon's loops lie in the loop array, every loop's edge
    is an edge of the mesh, and the loop count leaves room for the index
    arithmetic in [int]. *)
Definition poly_valid (me : Mesh) (p : MPoly) : bool :=
  (0 <=? p_loopstart p) && (0 <=? p_totloop p) &&
  (p_loopstart p + p_totloop p <=? me_totloop me).

Definition loop_valid (me : Mesh) (l : MLoop) : bool :=
  (0 <=? l_e l) && (l_e l <? me_totedge me).

Definition mesh_valid (me : Mesh) : bool :=
  (me_totpoly me =? Z.of_nat (length (me_mpoly me))) &&
  (me_totloop me =? Z.of_nat (length (me_mloop me))) &&
  (0 <=? me_totedge me) &&
  (me_totloop me <=? 2 ^ 30) &&
  forallb (poly_valid me) (me_mpoly me) &&
  forallb (loop_valid me) (me_mloop me).

(** The polygon [poly_index], once for each of its loops among the offsets
    [idx] that references edge [e]. *)
Definition loop_refs (me : Mesh) (p : MPoly) (poly_index : Z) (idx : list Z)
    (e : Z) : list Z :=
  idx ≫= fun i =>
    match array_get (me_mloop me) (p_loopstart p + i) with
    | Some l => if l_e l =? e then [poly_index] else []
    | None => []
    end.

Definition poly_refs (me : Mesh) (idx : list Z) (e : Z) : list Z :=
  idx ≫= fun poly_index =>
    match array_get (me_mpoly me) poly_index with
    | Some p => loop_refs me p poly_index (seqZ 0 (p_totloop p)) e
    | None => []
    end.

(** The references to edge [e] in the order the polygons and their loops
    are scanned: the owning polygon of every loop on [e]. *)
Definition edge_refs (me : Mesh) (e : Z) : list Z :=
  poly_refs me (seqZ 0 (me_totpoly me)) e.

(** The record whose slots are the first two entries of [refs]. *)
Definition record_of (refs : list Z) : BKEPtexEdgeAdj :=
  {| polys_0 := nth 0 refs BKE_PTEX_NO_ADJ_POLY;
     polys_1 := nth 1 refs BKE_PTEX_NO_ADJ_POLY |}.

(** Polygon [p] has a loop on edge [e]. *)
Definition poly_on_edge (me : Mesh) (p : MPoly) (e : Z) : bool :=
  bool_decide (loop_refs me p 0 (seqZ 0 (p_totloop p)) e ≠ []).

Definition poly_index_on_edge (me : Mesh) (e : Z) (poly_index : Z) : bool :=
  match array_get (me_mpoly me) poly_index with
  | Some p => poly_on_edge me p e
  | None => false
  end.

(** The polygons with a loop on edge [e], by increasing index. *)
Definition polys_on_edge (me : Mesh) (e : Z) : list Z :=
  filter (fun poly_index => poly_index_on_edge me e poly_index = true)
    (seqZ 0 (me_totpoly me)).

(** No polygon has two loops on the same edge. *)
Definition simple_polys (me : Mesh) : Prop :=
  forall poly_index p e, array_get (me_mpoly me) poly_index = Some p ->
    (length (loop_refs me p poly_index (seqZ 0 (p_totloop p)) e) <= 1)%nat.

(** The offset, within polygon [p], of the loop whose edge lies on side
    [loop_side] of the raster of loop [loop_offset]. *)
Definition side_edge_offset (p : MPoly) (loop_offset : Z) (loop_side : BPXSide)
    : Z :=
  match loop_side with
  | BPX_SIDE_TOP => loop_offset
  | _ => (p_totloop p + loop_offset - 1) mod p_totloop p
  end.

(** In polygon [p2], offset [i] is the first loop on edge [e1]. *)
Definition first_loop_on_edge (me : Mesh) (p2 : MPoly) (e1 : Z) (i : Z) : Prop :=
  0 <= i < p_totloop p2 /\
  (exists l2, array_get (me_mloop me) (p_loopstart p2 + i) = Some l2 /\
              l_e l2 = e1) /\
  forall i', 0 <= i' < i ->
    exists l2, array_get (me_mloop me) (p_loopstart p2 + i') = Some l2 /\
               l_e l2 <> e1.

(** No loop of polygon [p2] is on edge [e1]. *)
Definition no_loop_on_edge (me : Mesh) (p2 : MPoly) (e1 : Z) : Prop :=
  forall i, 0 <= i < p_totloop p2 ->
    exists l2, array_get (me_mloop me) (p_loopstart p2 + i) = Some l2 /\
               l_e l2 <> e1.

(** Two triangles over the vertices 0..3 that share edge 1. *)
Definition mesh_two_triangles : Mesh :=
  {| me_totedge := 5; me_totpoly := 2; me_totloop := 6;
     me_mpoly := [ {| p_loopstart := 0; p_totloop := 3 |};
                   {| p_loopstart := 3; p_totloop := 3 |} ];
     me_mloop := [ {| l_v := 0; l_e := 0 |}; {| l_v := 1; l_e := 1 |};
                   {| l_v := 2; l_e := 2 |}; {| l_v := 2; l_e := 1 |};
                   {| l_v := 1; l_e := 3 |}; {| l_v := 3; l_e := 4 |} ];
     me_ldata := [] |}.

(** One triangle. *)
Definition mesh_triangle : Mesh :=
  {| me_totedge := 3; me_totpoly := 1; me_totloop := 3;
     me_mpoly := [ {| p_loopstart := 0; p_totloop := 3 |} ];
     me_mloop := [ {| l_v := 0; l_e := 0 |}; {| l_v := 1; l_e := 1 |};
                   {| l_v := 2; l_e := 2 |} ];
     me_ldata := [] |}.

(** One quadrilateral. *)
Definition mesh_quad : Mesh :=
  {| me_totedge := 4; me_totpoly := 1; me_totloop := 4;
     me_mpoly := [ {| p_loopstart := 0; p_totloop := 4 |} ];
     me_mloop := [ {| l_v := 0; l_e := 0 |}; {| l_v := 1; l_e := 1 |};
                   {| l_v := 2; l_e := 2 |}; {| l_v := 3; l_e := 3 |} ];
     me_ldata := [] |}.

(** A one-channel byte file that holds a single 2x2 subimage. *)
Definition file_one_subimage : ptex_file :=
  {| file_type_desc := BPX_TYPE_DESC_UINT8; file_channels := 1;
     file_subimages := [(2, 2, true)]; file_current := 0 |}.

(** A one-channel byte file that holds a single 4x2 subimage. *)
Definition file_quad_subimage : ptex_file :=
  {| file_type_desc := BPX_TYPE_DESC_UINT8; file_channels := 1;
     file_subimages := [(4, 2, true)]; file_current := 0 |}.

(** The adjacency array [adj] records, for every edge [e], the first two
    entries of [refs e], and the entries of [refs e] are polygon indices
    below [bound]. *)
Definition adj_records (me : Mesh) (bound : Z) (adj : list BKEPtexEdgeAdj)
    (refs : Z -> list Z) : Prop :=
  (forall e, 0 <= e < me_totedge me ->
     array_get adj e = Some (record_of (refs e))) /\
  (forall e x, x ∈ refs e -> 0 <= x < bound).

(** The query's own loop and side, the answer for an edge without a
    neighbour. *)
Definition self_neighbour (p1 : MPoly) (loop_offset : Z) (loop_side : BPXSide)
    : Z * BPXEdge :=
  (p_loopstart p1 + loop_offset, {| side := loop_side; reverse := true |}).

(** The answer found on the neighbour [p2] whose loop at offset [i] is on
    the shared edge. *)
Definition neighbour_across (p2 : MPoly) (loop_side : BPXSide) (i : Z)
    : Z * BPXEdge :=
  match loop_side with
  | BPX_SIDE_TOP =>
      (p_loopstart p2 + (i + 1) mod p_totloop p2,
       {| side := BPX_SIDE_RIGHT; reverse := true |})
  | _ => (p_loopstart p2 + i, {| side := BPX_SIDE_TOP; reverse := true |})
  end.

(** [n] texels, each the bytes [tx]. *)
Definition texels (n : nat) (tx : list Z) : list Z := mjoin (replicate n tx).

(** The bytes of one texel of the default colour: the channels of
    (204, 204, 204, 255) for uint8, the single-precision encodings of
    0.8, 0.8, 0.8 and 1.0 for float32, cut to the channel count. *)
Definition default_texel (info : MPtexTexelInfo) : list Z :=
  match data_type info with
  | MPTEX_DATA_TYPE_UINT8 =>
      take (Z.to_nat (num_channels info)) [204; 204; 204; 255]
  | MPTEX_DATA_TYPE_FLOAT32 =>
      take (Z.to_nat (4 * num_channels info))
        [205; 204; 76; 63; 205; 204; 76; 63; 205; 204; 76; 63; 0; 0; 128; 63]
  | MPTEX_DATA_TYPE_other _ => []
  end.

(** A raster of one byte channel at log-resolution (1, 1) whose four
    texels are stored in block 1. *)
Definition heap_one_raster : heap :=
  {| blocks := {[ 1%positive := [10; 20; 30; 40] ]};
     alloc_limit := 2 ^ 20; junk := 0 |}.

Definition raster_2x2 : MLoopPtex :=
  {| lp_texel_info := {| data_type := MPTEX_DATA_TYPE_UINT8; num_channels := 1 |};
     lp_logres := {| logres_u := 1; logres_v := 1 |};
     lp_rect := Some 1%positive;
     lp_image := None |}.

(** A one-channel byte file with two 2x2 subimages, the second of which
    does not decode. *)
Definition file_second_undecodable : ptex_file :=
  {| file_type_desc := BPX_TYPE_DESC_UINT8; file_channels := 1;
     file_subimages := [(2, 2, true); (2, 2, false)]; file_current := 0 |}.

(** ** Border filter: the pass over the packed image *)

Record ImPtexRegion : Type := {
  region_x : Z;
  region_y : Z;
  region_width : Z;
  region_height : Z
}.

Record BPXRect : Type := {
  xbegin : Z;
  xend : Z;
  ybegin : Z;
  yend : Z
}.

Definition bpx_rect_from_im_ptex_region (src : ImPtexRegion) : BPXRect :=
  {| xbegin := region_x src;
     ybegin := region_y src;
     xend := int_add (region_x src) (region_width src);
     yend := int_add (region_y src) (region_height src) |}.

Section BorderFilter.
(** The wrapped image that [BPX_rect_borders_update] rewrites. *)
Context {Image : Type}.
Variable BPX_rect_borders_update :
  Image -> BPXRect -> list BPXRect -> list BPXEdge -> bool * Image.
(** The loop counter [k] passed where a [BPXSide] is expected: the values of
    the enumerators are declared in [BPX_ptex.h]. *)
Variable side_of_int : Z -> BPXSide.

(** The loop over the four sides: [adj_rect[k]] and [adj_edge[k]]. *)
Definition filter_borders_side (adj : list BKEPtexEdgeAdj) (me : Mesh)
    (ptex_regions : list ImPtexRegion) (i j : Z) (k : Z)
    (acc : list BPXRect * list BPXEdge) : option (list BPXRect * list BPXEdge) :=
  let '(adj_rect, adj_edge) := acc in
  '(adj_loop, edge) ← ptex_adj_edge adj me i j (side_of_int k);
  region ← array_get ptex_regions adj_loop;
  Some (adj_rect ++ [bpx_rect_from_im_ptex_region region], adj_edge ++ [edge]).

(** The body of the loop over the loops of polygon [i]; a failed update is
    only asserted. *)
Definition filter_borders_loop (adj : list BKEPtexEdgeAdj) (me : Mesh)
    (ptex_regions : list ImPtexRegion) (i : Z) (p : MPoly) (j : Z)
    (bpx_buf : Image) : option Image :=
  let cur_loop := int_add (p_loopstart p) j in
  region ← array_get ptex_regions cur_loop;
  let dst_rect := bpx_rect_from_im_ptex_region region in
  '(adj_rect, adj_edge) ←
     for_each (seqZ 0 4) (filter_borders_side adj me ptex_regions i j) ([], []);
  Some (snd (BPX_rect_borders_update bpx_buf dst_rect adj_rect adj_edge)).

(** [ptex_filter_borders_update(ibuf, me)], with the regions and the wrapped
    pixels of [ibuf]; [None] is a run that indexes outside an array.  The
    adjacency index is the one [bke_ptex_edge_adj_init] builds, whose
    allocation is taken to succeed, so the early return on a NULL index is
    not taken. *)
Definition ptex_filter_borders_update (ptex_regions : list ImPtexRegion)
    (bpx_buf : Image) (me : Mesh) : option Image :=
  adj ← bke_ptex_edge_adj_init me;
  for_each (seqZ 0 (me_totpoly me))
    (fun i buf =>
       p ← array_get (me_mpoly me) i;
       for_each (seqZ 0 (p_totloop p))
         (filter_borders_loop adj me ptex_regions i p) buf)
    bpx_buf.

End BorderFilter.

(** ** Loop interpolation identifiers *)





(** The bytes [ptex_data_from_float] stores for the first [count] floats. *)
Definition float_data_bytes (data_type : MPtexDataType) (count : nat)
    (src : list spec_float) : list Z :=
  match data_type with
  | MPTEX_DATA_TYPE_UINT8 => FTOCHAR <$> take count src
  | MPTEX_DATA_TYPE_FLOAT32 => mjoin (Float32.bytes <$> take count src)
  | MPTEX_DATA_TYPE_other _ => []
  end.

(** Three triangles around the common edge 0. *)
Definition mesh_three_triangles : Mesh :=
  {| me_totedge := 7; me_totpoly := 3; me_totloop := 9;
     me_mpoly := [ {| p_loopstart := 0; p_totloop := 3 |};
                   {| p_loopstart := 3; p_totloop := 3 |};
                   {| p_loopstart := 6; p_totloop := 3 |} ];
     me_mloop := [ {| l_v := 0; l_e := 0 |}; {| l_v := 1; l_e := 1 |};
                   {| l_v := 2; l_e := 2 |}; {| l_v := 1; l_e := 0 |};
                   {| l_v := 0; l_e := 3 |}; {| l_v := 3; l_e := 4 |};
                   {| l_v := 0; l_e := 0 |}; {| l_v := 1; l_e := 5 |};
                   {| l_v := 4; l_e := 6 |} ];
     me_ldata := [] |}.


(** Every block of the store [h] is still allocated in [h'], with the same
    bytes. *)
Definition blocks_kept (h h' : heap) : Prop :=
  forall q buf, blocks h !! q = Some buf -> blocks h' !! q = Some buf.

(** No raster of [layer] has its buffer among the blocks of [h]. *)
Definition rasters_new (h : heap) (layer : list MLoopPtex) : Prop :=
  forall lp p, lp ∈ layer -> lp_rect lp = Some p -> blocks h !! p = None.


(** The Ptex faces one polygon stands for: a quadrilateral is one face,
    any other polygon one face per loop. *)
Definition ptex_face_count (p : MPoly) : Z :=
  if p_totloop p =? 4 then 1 else Z.max 0 (p_totloop p).

(** The Ptex faces of the polygons [idx] of a mesh. *)
Definition ptex_faces (me : Mesh) (idx : list Z) : Z :=
  foldr (fun i acc =>
           match array_get (me_mpoly me) i with
           | Some p => ptex_face_count p
           | None => 0
           end + acc) 0 idx.
(** * Properties *)

Lemma wrap_int_id z : in_int z -> wrap_int z = z.
Proof.
  unfold in_int, INT_MIN, INT_MAX, wrap_int. intros H.
  rewrite Z.mod_small; lia.
Qed.

Lemma wrap_size_t_id z : 0 <= z < 2 ^ 64 -> wrap_size_t z = z.
Proof. unfold wrap_size_t. intros H. apply Z.mod_small. lia. Qed.

Lemma ptex_rlog2_valid_spec r : ptex_rlog2_valid r = true <-> 0 <= r <= 30.
Proof. unfold ptex_rlog2_valid, ptex_rlog2_limit. lia. Qed.

Lemma ptex_res_from_rlog2_valid r :
  0 <= r <= 30 -> ptex_res_from_rlog2 r = 2 ^ r.
Proof.
  intros H. unfold ptex_res_from_rlog2, int_shl.
  rewrite Z.shiftl_1_l. apply wrap_int_id.
  unfold in_int, INT_MIN, INT_MAX.
  assert (0 < 2 ^ r) by (apply Z.pow_pos_nonneg; lia).
  assert (2 ^ r <= 2 ^ 30) by (apply Z.pow_le_mono_r; lia).
  lia.
Qed.

Lemma bytes_per_texel_accepted info :
  0 <= num_channels info <= 4 ->
  BKE_ptex_bytes_per_texel info =
    ptex_data_type_num_bytes (data_type info) * num_channels info.
Proof.
  intros H. unfold BKE_ptex_bytes_per_texel, int_mul.
  assert (0 <= ptex_data_type_num_bytes (data_type info) <= 4)
    by (destruct (data_type info); simpl; lia).
  rewrite wrap_int_id by (unfold in_int, INT_MIN, INT_MAX; nia).
  apply wrap_size_t_id. nia.
Qed.

(** Where the sum of the two log-resolutions stays within 30 the area is
    computed without wrap-around. *)
Lemma ptex_area_from_logres_small logres :
  0 <= logres_u logres -> 0 <= logres_v logres ->
  logres_u logres + logres_v logres <= 30 ->
  ptex_area_from_logres logres = 2 ^ logres_u logres * 2 ^ logres_v logres.
Proof.
  intros Hu Hv Huv. unfold ptex_area_from_logres, int_mul.
  rewrite !ptex_res_from_rlog2_valid by lia.
  rewrite <- Z.pow_add_r by lia.
  assert (0 < 2 ^ (logres_u logres + logres_v logres))
    by (apply Z.pow_pos_nonneg; lia).
  assert (2 ^ (logres_u logres + logres_v logres) <= 2 ^ 30)
    by (apply Z.pow_le_mono_r; lia).
  rewrite wrap_int_id by (unfold in_int, INT_MIN, INT_MAX; lia).
  apply wrap_size_t_id. lia.
Qed.

Lemma rect_num_bytes_small info logres :
  0 <= num_channels info <= 4 ->
  0 <= logres_u logres -> 0 <= logres_v logres ->
  logres_u logres + logres_v logres <= 30 ->
  BKE_ptex_rect_num_bytes info logres =
    BKE_ptex_bytes_per_texel info * 2 ^ logres_u logres * 2 ^ logres_v logres.
Proof.
  intros Hc Hu Hv Huv. unfold BKE_ptex_rect_num_bytes, size_mul.
  rewrite ptex_area_from_logres_small by lia.
  rewrite bytes_per_texel_accepted by lia.
  assert (0 <= ptex_data_type_num_bytes (data_type info) <= 4)
    by (destruct (data_type info); simpl; lia).
  assert (0 < 2 ^ (logres_u logres + logres_v logres))
    by (apply Z.pow_pos_nonneg; lia).
  assert (2 ^ (logres_u logres + logres_v logres) <= 2 ^ 30)
    by (apply Z.pow_le_mono_r; lia).
  rewrite Z.pow_add_r in * by lia.
  assert (0 <= ptex_data_type_num_bytes (data_type info) * num_channels info
          <= 16) by nia.
  set (bpt := ptex_data_type_num_bytes (data_type info) * num_channels info)
    in *.
  set (area := 2 ^ logres_u logres * 2 ^ logres_v logres) in *.
  rewrite wrap_size_t_id by nia. subst bpt area. lia.
Qed.

(** ** Texel descriptor *)

(** C8 does not hold as stated: a descriptor with zero channels is accepted
    by [BKE_ptex_texel_info_init] and has zero bytes per texel, below the
    stated lower bound of 1. *)
Lemma bytes_per_texel_zero_channels :
  let info := {| data_type := MPTEX_DATA_TYPE_UINT8; num_channels := 0 |} in
  BKE_ptex_texel_info_init MPTEX_DATA_TYPE_UINT8 0 = Some info /\
  texel_info_accepted info /\
  BKE_ptex_bytes_per_texel info = 0 /\
  ~ (1 <= BKE_ptex_bytes_per_texel info <= 4).
Proof.
  cbv zeta. split; [reflexivity|]. split.
  - unfold texel_info_accepted; simpl. split; [left; reflexivity | lia].
  - split; [reflexivity|]. vm_compute. intros [H _]. apply H. reflexivity.
Qed.

(** C8, amended: for every descriptor with data type uint8 or float32 and a
    channel count in the accepted range [0, 4], [BKE_ptex_bytes_per_texel]
    is the per-channel byte size (1 for uint8, 4 for float32) times the
    channel count; the value lies between 0 and 4 for uint8 and between 0
    and 16 for float32, and between 1 and 4, respectively 4 and 16, when
    there is at least one channel. *)
Theorem bytes_per_texel_bounds (info : MPtexTexelInfo) :
  texel_info_accepted info ->
  BKE_ptex_bytes_per_texel info =
    ptex_data_type_num_bytes (data_type info) * num_channels info /\
  (data_type info = MPTEX_DATA_TYPE_UINT8 ->
     ptex_data_type_num_bytes (data_type info) = 1 /\
     0 <= BKE_ptex_bytes_per_texel info <= 4 /\
     (1 <= num_channels info -> 1 <= BKE_ptex_bytes_per_texel info <= 4)) /\
  (data_type info = MPTEX_DATA_TYPE_FLOAT32 ->
     ptex_data_type_num_bytes (data_type info) = 4 /\
     0 <= BKE_ptex_bytes_per_texel info <= 16 /\
     (1 <= num_channels info -> 4 <= BKE_ptex_bytes_per_texel info <= 16)).
Proof.
  intros [Hdt Hnc]. rewrite bytes_per_texel_accepted by exact Hnc.
  split; [reflexivity|].
  split; intros ->; simpl; repeat split; lia.
Qed.

Lemma bytes_per_texel_bounds_witness :
  let info := {| data_type := MPTEX_DATA_TYPE_FLOAT32; num_channels := 3 |} in
  texel_info_accepted info /\
  BKE_ptex_bytes_per_texel info = 4 * 3 /\
  4 <= BKE_ptex_bytes_per_texel info <= 16.
Proof.
  cbv zeta.
  assert (texel_info_accepted
            {| data_type := MPTEX_DATA_TYPE_FLOAT32; num_channels := 3 |}) as H.
  { unfold texel_info_accepted; simpl. split; [right; reflexivity | lia]. }
  split; [exact H|].
  destruct (bytes_per_texel_bounds _ H) as (Heq & _ & Hf).
  split; [exact Heq|]. apply Hf; simpl; [reflexivity | lia].
Defined.

(** C3 at the log-resolution (16, 16), valid on both axes, with one uint8
    channel: the area is multiplied in [int], where 2^16 * 2^16 wraps to 0,
    so [BKE_ptex_rect_num_bytes] is 0 whereas
    bytes_per_texel * 2^u * 2^v is 2^32. *)
Theorem rect_num_bytes_wraps :
  let info := {| data_type := MPTEX_DATA_TYPE_UINT8; num_channels := 1 |} in
  let logres := {| logres_u := 16; logres_v := 16 |} in
  texel_info_valid info /\ logres_valid logres /\
  ptex_area_from_logres logres = 0 /\
  BKE_ptex_rect_num_bytes info logres = 0 /\
  BKE_ptex_bytes_per_texel info * 2 ^ logres_u logres * 2 ^ logres_v logres
    = 4294967296.
Proof.
  cbv zeta. split.
  - unfold texel_info_valid; simpl. split; [left; reflexivity | lia].
  - split; [split; reflexivity|]. repeat split; reflexivity.
Qed.

(** ** Edge adjacency: the other polygon *)

Lemma other_poly_unfold a p :
  bke_ptex_edge_adj_other_poly (Some a) p =
    if polys_0 a =? p then polys_1 a
    else if polys_1 a =? p then polys_0 a
    else BKE_PTEX_NO_ADJ_POLY.
Proof. reflexivity. Qed.

Lemma other_poly_involutive_any a p q :
  bke_ptex_edge_adj_other_poly (Some a) p = q ->
  q <> BKE_PTEX_NO_ADJ_POLY ->
  bke_ptex_edge_adj_other_poly (Some a) q = p.
Proof.
  rewrite !other_poly_unfold. intros Hq Hne.
  destruct (polys_0 a =? p) eqn:E0.
  - apply Z.eqb_eq in E0. subst q.
    destruct (polys_0 a =? polys_1 a) eqn:E1.
    + apply Z.eqb_eq in E1. lia.
    + rewrite Z.eqb_refl. exact E0.
  - destruct (polys_1 a =? p) eqn:E1.
    + apply Z.eqb_eq in E1. subst q. rewrite Z.eqb_refl. exact E1.
    + congruence.
Qed.

Lemma other_poly_absent a p :
  polys_0 a <> p -> polys_1 a <> p ->
  bke_ptex_edge_adj_other_poly (Some a) p = BKE_PTEX_NO_ADJ_POLY.
Proof.
  intros H0 H1. rewrite other_poly_unfold.
  apply Z.eqb_neq in H0, H1. rewrite H0, H1. reflexivity.
Qed.

Lemma other_poly_complement_empty a p i :
  i = 0 \/ i = 1 ->
  polys a i = p ->
  polys a (BKE_PTEX_MAX_ADJ_POLYS - i - 1) = BKE_PTEX_NO_ADJ_POLY ->
  bke_ptex_edge_adj_other_poly (Some a) p = BKE_PTEX_NO_ADJ_POLY.
Proof.
  rewrite other_poly_unfold. unfold polys, BKE_PTEX_MAX_ADJ_POLYS.
  intros [-> | ->]; simpl; intros Hp He.
  - apply Z.eqb_eq in Hp. rewrite Hp. exact He.
  - destruct (polys_0 a =? p) eqn:E0.
    + apply Z.eqb_eq in E0. congruence.
    + apply Z.eqb_eq in Hp. rewrite Hp. exact He.
Qed.

(** ** Arrays *)

Lemma array_get_Some {A} (a : list A) i x :
  array_get a i = Some x -> 0 <= i < Z.of_nat (length a).
Proof.
  unfold array_get. destruct (0 <=? i) eqn:E; [|discriminate].
  intros H%lookup_lt_Some. lia.
Qed.

Lemma array_get_is_Some {A} (a : list A) i :
  0 <= i < Z.of_nat (length a) -> is_Some (array_get a i).
Proof.
  intros H. unfold array_get.
  destruct (0 <=? i) eqn:E; [|lia]. apply lookup_lt_is_Some. lia.
Qed.

Lemma array_get_elem_of {A} (a : list A) i x :
  array_get a i = Some x -> x ∈ a.
Proof.
  unfold array_get. destruct (0 <=? i); [|discriminate].
  apply list_elem_of_lookup_2.
Qed.

Lemma array_set_Some {A} (a : list A) i x :
  0 <= i < Z.of_nat (length a) ->
  array_set a i x = Some (<[Z.to_nat i := x]> a).
Proof.
  intros H. unfold array_set.
  destruct (0 <=? i) eqn:E1; [|lia]. destruct (i <? _) eqn:E2; [|lia].
  reflexivity.
Qed.

Lemma array_get_insert {A} (a : list A) i j x :
  0 <= i < Z.of_nat (length a) -> 0 <= j ->
  array_get (<[Z.to_nat i := x]> a) j =
    if i =? j then Some x else array_get a j.
Proof.
  intros Hi Hj. unfold array_get.
  destruct (0 <=? j) eqn:E; [|lia].
  destruct (i =? j) eqn:Eij.
  - apply Z.eqb_eq in Eij. subst j. apply list_lookup_insert_eq. lia.
  - apply Z.eqb_neq in Eij. apply list_lookup_insert_ne. lia.
Qed.

Lemma array_get_replicate {A} n (x : A) i :
  0 <= i < n -> array_get (replicate (Z.to_nat n) x) i = Some x.
Proof.
  intros H. unfold array_get. destruct (0 <=? i) eqn:E; [|lia].
  apply lookup_replicate_2. lia.
Qed.

Lemma for_each_app {S} (l1 l2 : list Z) (body : Z -> S -> option S) s :
  for_each (l1 ++ l2) body s =
    match for_each l1 body s with
    | Some s' => for_each l2 body s'
    | None => None
    end.
Proof.
  revert s. induction l1 as [|i l1 IH]; intros s; simpl; [reflexivity|].
  destruct (body i s); [apply IH | reflexivity].
Qed.

(** ** Mesh invariants *)

Lemma mesh_valid_spec me :
  mesh_valid me = true ->
  me_totpoly me = Z.of_nat (length (me_mpoly me)) /\
  me_totloop me = Z.of_nat (length (me_mloop me)) /\
  0 <= me_totedge me /\
  me_totloop me <= 2 ^ 30 /\
  (forall p, p ∈ me_mpoly me ->
     0 <= p_loopstart p /\ 0 <= p_totloop p /\
     p_loopstart p + p_totloop p <= me_totloop me) /\
  (forall l, l ∈ me_mloop me -> 0 <= l_e l < me_totedge me).
Proof.
  unfold mesh_valid. rewrite !andb_true_iff, !forallb_forall.
  intros [[[[[H1 H2] H3] H4] H5] H6].
  repeat split; try lia.
  - apply list_elem_of_In, H5 in H. unfold poly_valid in H. lia.
  - apply list_elem_of_In, H5 in H. unfold poly_valid in H. lia.
  - apply list_elem_of_In, H5 in H. unfold poly_valid in H. lia.
  - apply list_elem_of_In, H6 in H. unfold loop_valid in H. lia.
  - apply list_elem_of_In, H6 in H. unfold loop_valid in H. lia.
Qed.

(** In a valid mesh the loop at offset [i] of a polygon exists, its index
    is computed without wrap-around and its edge is an edge of the mesh. *)
Lemma mesh_valid_loop me p i :
  mesh_valid me = true -> p ∈ me_mpoly me -> 0 <= i < p_totloop p ->
  int_add (p_loopstart p) i = p_loopstart p + i /\
  0 <= p_loopstart p + i < me_totloop me /\
  exists l, array_get (me_mloop me) (p_loopstart p + i) = Some l /\
            0 <= l_e l < me_totedge me.
Proof.
  intros Hv Hp Hi.
  destruct (mesh_valid_spec me Hv) as (_ & Hl & _ & Hsmall & Hpolys & Hloops).
  destruct (Hpolys p Hp) as (Hs & Ht & Hend).
  assert (2 ^ 30 = 1073741824) as E30 by reflexivity.
  split.
  { unfold int_add. apply wrap_int_id.
    unfold in_int, INT_MIN, INT_MAX. lia. }
  split; [lia|].
  destruct (array_get_is_Some (me_mloop me) (p_loopstart p + i)) as [l Hget];
    [lia|].
  exists l. split; [exact Hget|].
  apply Hloops. eapply array_get_elem_of. exact Hget.
Qed.

(** ** Edge adjacency: construction *)

Lemma edge_adj_add_unfold a poly_index :
  edge_adj_add a poly_index =
    if polys_0 a =? BKE_PTEX_NO_ADJ_POLY
    then {| polys_0 := poly_index; polys_1 := polys_1 a |}
    else if polys_1 a =? BKE_PTEX_NO_ADJ_POLY
    then {| polys_0 := polys_0 a; polys_1 := poly_index |}
    else a.
Proof. reflexivity. Qed.

Lemma record_of_snoc refs x :
  (forall y, y ∈ refs -> y <> BKE_PTEX_NO_ADJ_POLY) ->
  edge_adj_add (record_of refs) x = record_of (refs ++ [x]).
Proof.
  intros Hne. rewrite edge_adj_add_unfold. unfold record_of.
  destruct refs as [|a [|b refs]]; simpl.
  - reflexivity.
  - assert (a <> BKE_PTEX_NO_ADJ_POLY) as Ha by (apply Hne; left).
    apply Z.eqb_neq in Ha. rewrite Ha. reflexivity.
  - assert (a <> BKE_PTEX_NO_ADJ_POLY) as Ha by (apply Hne; left).
    assert (b <> BKE_PTEX_NO_ADJ_POLY) as Hb by (apply Hne; right; left).
    apply Z.eqb_neq in Ha, Hb. rewrite Ha, Hb. reflexivity.
Qed.

Lemma adj_records_ext me bound adj refs refs' :
  (forall e, refs e = refs' e) ->
  adj_records me bound adj refs -> adj_records me bound adj refs'.
Proof.
  intros Hext [H1 H2]. split.
  - intros e He. rewrite <- Hext. apply H1, He.
  - intros e x. rewrite <- Hext. apply H2.
Qed.

Lemma adj_records_length me bound adj refs e :
  adj_records me bound adj refs -> 0 <= e < me_totedge me ->
  0 <= e < Z.of_nat (length adj).
Proof.
  intros [H1 _] He. eapply array_get_Some. apply H1, He.
Qed.

Lemma loop_refs_singleton me p poly_index i e :
  loop_refs me p poly_index [i] e =
    match array_get (me_mloop me) (p_loopstart p + i) with
    | Some l => if l_e l =? e then [poly_index] else []
    | None => []
    end.
Proof. unfold loop_refs. simpl. apply app_nil_r. Qed.

Lemma loop_refs_cons me p poly_index i idx e :
  loop_refs me p poly_index (i :: idx) e =
    loop_refs me p poly_index [i] e ++ loop_refs me p poly_index idx e.
Proof. rewrite loop_refs_singleton. reflexivity. Qed.

Lemma poly_refs_cons me i idx e :
  poly_refs me (i :: idx) e =
    match array_get (me_mpoly me) i with
    | Some p => loop_refs me p i (seqZ 0 (p_totloop p)) e
    | None => []
    end ++ poly_refs me idx e.
Proof. reflexivity. Qed.

(** One loop of polygon [poly_index]: the record of the loop's edge takes
    the polygon in its first empty slot. *)
Lemma edge_adj_visit_loop_records me p poly_index i adj refs :
  mesh_valid me = true -> p ∈ me_mpoly me -> 0 <= i < p_totloop p ->
  0 <= poly_index < me_totpoly me ->
  adj_records me (me_totpoly me) adj refs ->
  exists adj',
    edge_adj_visit_loop me p poly_index i adj = Some adj' /\
    adj_records me (me_totpoly me) adj'
      (fun e => refs e ++ loop_refs me p poly_index [i] e).
Proof.
  intros Hv Hp Hi Hpi Hrec.
  destruct (mesh_valid_loop me p i Hv Hp Hi) as (Hadd & _ & l & Hl & He).
  pose proof (adj_records_length _ _ _ _ _ Hrec He) as Hlen.
  destruct Hrec as [Hget Hbound].
  exists (<[Z.to_nat (l_e l) :=
              edge_adj_add (record_of (refs (l_e l))) poly_index]> adj).
  split.
  { unfold edge_adj_visit_loop. rewrite Hadd, Hl. simpl.
    rewrite (Hget _ He). simpl. apply array_set_Some, Hlen. }
  split.
  - intros e' He'. rewrite array_get_insert by lia.
    rewrite loop_refs_singleton, Hl.
    destruct (l_e l =? e') eqn:E.
    + apply Z.eqb_eq in E. subst e'. rewrite record_of_snoc; [reflexivity|].
      intros y Hy%Hbound. unfold BKE_PTEX_NO_ADJ_POLY. lia.
    + rewrite app_nil_r. apply Hget, He'.
  - intros e' x. rewrite loop_refs_singleton, Hl.
    rewrite elem_of_app. intros [Hx | Hx]; [eapply Hbound, Hx|].
    destruct (l_e l =? e'); [|inversion Hx].
    apply list_elem_of_singleton in Hx. subst x. exact Hpi.
Qed.

Lemma edge_adj_visit_loops_records me p poly_index idx :
  mesh_valid me = true -> p ∈ me_mpoly me ->
  (forall i, i ∈ idx -> 0 <= i < p_totloop p) ->
  0 <= poly_index < me_totpoly me ->
  forall adj refs,
  adj_records me (me_totpoly me) adj refs ->
  exists adj',
    for_each idx (edge_adj_visit_loop me p poly_index) adj = Some adj' /\
    adj_records me (me_totpoly me) adj'
      (fun e => refs e ++ loop_refs me p poly_index idx e).
Proof.
  intros Hv Hp Hidx Hpi. induction idx as [|i idx IH]; intros adj refs Hrec.
  - exists adj. split; [reflexivity|].
    eapply adj_records_ext; [|exact Hrec].
    intros e. unfold loop_refs. simpl. rewrite app_nil_r. reflexivity.
  - destruct (edge_adj_visit_loop_records me p poly_index i adj refs)
      as (adj1 & Hstep & Hrec1); auto.
    { apply Hidx. left. }
    destruct (IH (fun i' Hi' => Hidx i' (list_elem_of_further _ _ _ Hi'))
                adj1 _ Hrec1) as (adj' & Hrest & Hrec').
    exists adj'. split.
    + simpl. rewrite Hstep. exact Hrest.
    + eapply adj_records_ext; [|exact Hrec'].
      intros e. cbv beta.
      rewrite (loop_refs_cons me p poly_index i idx), app_assoc. reflexivity.
Qed.

Lemma edge_adj_visit_polys_records me idx :
  mesh_valid me = true ->
  (forall i, i ∈ idx -> 0 <= i < me_totpoly me) ->
  forall adj refs,
  adj_records me (me_totpoly me) adj refs ->
  exists adj',
    for_each idx (edge_adj_visit_poly me) adj = Some adj' /\
    adj_records me (me_totpoly me) adj'
      (fun e => refs e ++ poly_refs me idx e).
Proof.
  intros Hv Hidx. induction idx as [|i idx IH]; intros adj refs Hrec.
  - exists adj. split; [reflexivity|].
    eapply adj_records_ext; [|exact Hrec].
    intros e. unfold poly_refs. simpl. rewrite app_nil_r. reflexivity.
  - assert (0 <= i < me_totpoly me) as Hi by (apply Hidx; left).
    destruct (mesh_valid_spec me Hv) as (Hnp & _).
    destruct (array_get_is_Some (me_mpoly me) i) as [p Hp]; [lia|].
    destruct (edge_adj_visit_loops_records me p i (seqZ 0 (p_totloop p)))
      with (adj := adj) (refs := refs) as (adj1 & Hstep & Hrec1); auto.
    { eapply array_get_elem_of, Hp. }
    { intros j Hj%elem_of_seqZ. lia. }
    destruct (IH (fun i' Hi' => Hidx i' (list_elem_of_further _ _ _ Hi'))
                adj1 _ Hrec1) as (adj' & Hrest & Hrec').
    exists adj'. split.
    + simpl. unfold edge_adj_visit_poly at 1. rewrite Hp. simpl.
      rewrite Hstep. exact Hrest.
    + eapply adj_records_ext; [|exact Hrec'].
      intros e. cbv beta. rewrite poly_refs_cons, Hp, app_assoc.
      reflexivity.
Qed.

(** The adjacency index of a valid mesh: every edge's record holds the
    first two references to the edge. *)
Lemma edge_adj_init_records me :
  mesh_valid me = true ->
  exists adj,
    bke_ptex_edge_adj_init me = Some adj /\
    adj_records me (me_totpoly me) adj (edge_refs me).
Proof.
  intros Hv. destruct (mesh_valid_spec me Hv) as (_ & _ & Hne & _).
  destruct (edge_adj_visit_polys_records me (seqZ 0 (me_totpoly me)) Hv)
    with (adj := bke_ptex_edge_adj_alloc me) (refs := fun _ : Z => @nil Z)
    as (adj & Hrun & Hrec).
  - intros i Hi%elem_of_seqZ. lia.
  - split.
    + intros e He. unfold bke_ptex_edge_adj_alloc.
      rewrite array_get_replicate by exact He. reflexivity.
    + intros e x Hx. inversion Hx.
  - exists adj. split; [exact Hrun|]. exact Hrec.
Qed.

Lemma loop_refs_elem me p poly_index idx e x :
  x ∈ loop_refs me p poly_index idx e -> x = poly_index.
Proof.
  induction idx as [|i idx IH].
  - intros H. inversion H.
  - rewrite loop_refs_cons, loop_refs_singleton, elem_of_app.
    intros [H | H]; [|exact (IH H)].
    destruct (array_get _ _) as [l|]; [|inversion H].
    destruct (l_e l =? e); [|inversion H].
    apply list_elem_of_singleton in H. exact H.
Qed.

Lemma loop_refs_length me p poly_index poly_index' idx e :
  length (loop_refs me p poly_index idx e) =
  length (loop_refs me p poly_index' idx e).
Proof.
  induction idx as [|i idx IH]; [reflexivity|].
  rewrite (loop_refs_cons me p poly_index), (loop_refs_cons me p poly_index').
  rewrite !length_app, IH, !loop_refs_singleton.
  destruct (array_get _ _) as [l|]; [|reflexivity].
  destruct (l_e l =? e); reflexivity.
Qed.

Lemma poly_refs_elem me idx e x :
  x ∈ poly_refs me idx e -> x ∈ idx.
Proof.
  induction idx as [|i idx IH].
  - intros H. inversion H.
  - rewrite poly_refs_cons, elem_of_app. intros [H | H].
    + destruct (array_get _ _) as [p|]; [|inversion H].
      apply loop_refs_elem in H. subst x. left.
    + right. exact (IH H).
Qed.

Lemma constant_list_sorted (l : list Z) x :
  (forall y, y ∈ l -> y = x) -> StronglySorted Z.le l.
Proof.
  induction l as [|a l IH]; intros H; constructor.
  - apply IH. intros y Hy. apply H. right. exact Hy.
  - apply Forall_forall. intros y Hy.
    rewrite (H a) by left. rewrite (H y) by (right; exact Hy). lia.
Qed.

Lemma poly_refs_sorted me idx e :
  StronglySorted Z.le idx -> StronglySorted Z.le (poly_refs me idx e).
Proof.
  induction idx as [|i idx IH]; intros Hs.
  - constructor.
  - apply StronglySorted_cons in Hs. destruct Hs as [Hle Hs].
    rewrite poly_refs_cons. apply StronglySorted_app. split; [|split].
    + intros x1 x2 H1 H2%poly_refs_elem.
      destruct (array_get _ _) as [p|]; [|inversion H1].
      apply loop_refs_elem in H1. subst x1.
      rewrite Forall_forall in Hle. apply Hle, H2.
    + destruct (array_get _ _) as [p|]; [|constructor].
      apply (constant_list_sorted _ i). intros y. apply loop_refs_elem.
    + apply IH, Hs.
Qed.

Lemma seqZ_sorted m n : StronglySorted Z.le (seqZ m n).
Proof.
  assert (forall k m', StronglySorted Z.le (seqZ m' (Z.of_nat k))) as H.
  { induction k as [|k IH]; intros m'.
    - rewrite seqZ_nil by lia. constructor.
    - rewrite seqZ_cons by lia. constructor.
      + replace (Z.pred (Z.of_nat (S k))) with (Z.of_nat k) by lia. apply IH.
      + apply Forall_forall. intros x Hx%elem_of_seqZ. lia. }
  destruct (Z.le_gt_cases n 0) as [Hn | Hn].
  - rewrite seqZ_nil by exact Hn. constructor.
  - replace n with (Z.of_nat (Z.to_nat n)) by lia. apply H.
Qed.

(** Where no polygon has two loops on one edge, the references to an edge
    are the polygons on that edge, each once, by increasing index. *)
Lemma poly_refs_simple me idx e :
  simple_polys me ->
  poly_refs me idx e =
    filter (fun poly_index => poly_index_on_edge me e poly_index = true) idx.
Proof.
  intros Hsimple. induction idx as [|i idx IH]; [reflexivity|].
  rewrite poly_refs_cons, IH. unfold poly_index_on_edge at 2.
  destruct (array_get (me_mpoly me) i) as [p|] eqn:Hp.
  - pose proof (Hsimple i p e Hp) as Hlen.
    pose proof (loop_refs_elem me p i (seqZ 0 (p_totloop p)) e) as Helem.
    assert (poly_index_on_edge me e i = true <->
            loop_refs me p i (seqZ 0 (p_totloop p)) e <> []) as Hon.
    { unfold poly_index_on_edge, poly_on_edge.
      rewrite Hp, bool_decide_eq_true.
      pose proof (loop_refs_length me p i 0 (seqZ 0 (p_totloop p)) e) as Hl0.
      destruct (loop_refs me p i (seqZ 0 (p_totloop p)) e),
               (loop_refs me p 0 (seqZ 0 (p_totloop p)) e);
        simpl in Hl0; split; intros H; congruence. }
    destruct (loop_refs me p i (seqZ 0 (p_totloop p)) e) as [|x [|y l]].
    + rewrite filter_cons_False; [reflexivity|].
      rewrite Hon. intros H. apply H. reflexivity.
    + rewrite (Helem x) by left.
      rewrite filter_cons_True; [reflexivity|].
      apply Hon. discriminate.
    + simpl in Hlen. lia.
  - rewrite filter_cons_False; [reflexivity|].
    unfold poly_index_on_edge. rewrite Hp. discriminate.
Qed.

Lemma sorted_first_two (l : list Z) :
  StronglySorted Z.le l -> (2 <= length l)%nat ->
  nth 0 l BKE_PTEX_NO_ADJ_POLY <= nth 1 l BKE_PTEX_NO_ADJ_POLY.
Proof.
  destruct l as [|a [|b l]]; simpl; intros Hs Hl; try lia.
  apply StronglySorted_cons in Hs. destruct Hs as [Hle _].
  rewrite Forall_forall in Hle. apply Hle. left.
Qed.

(** C10: after [bke_ptex_edge_adj_init] on a valid mesh, the record of every
    edge holds the first (at most two) polygons whose loops reference the
    edge, in the order of the scan by increasing polygon index, slot 0 before
    slot 1, the unused slots staying empty; slot 1 is filled only if slot 0
    is.  A polygon met when both slots are filled leaves the record
    unchanged, and no step overwrites a filled slot. *)
Theorem edge_adj_init_first_two (me : Mesh) :
  mesh_valid me = true ->
  exists adj,
    bke_ptex_edge_adj_init me = Some adj /\
    (forall e, 0 <= e < me_totedge me ->
       exists a,
         array_get adj e = Some a /\
         polys a 0 = nth 0 (edge_refs me e) BKE_PTEX_NO_ADJ_POLY /\
         polys a 1 = nth 1 (edge_refs me e) BKE_PTEX_NO_ADJ_POLY /\
         (polys a 1 <> BKE_PTEX_NO_ADJ_POLY ->
            polys a 0 <> BKE_PTEX_NO_ADJ_POLY /\ polys a 0 <= polys a 1) /\
         (simple_polys me -> edge_refs me e = polys_on_edge me e)) /\
    (forall a poly_index,
       (polys a 0 <> BKE_PTEX_NO_ADJ_POLY ->
        polys a 1 <> BKE_PTEX_NO_ADJ_POLY ->
        edge_adj_add a poly_index = a) /\
       (forall j, j = 0 \/ j = 1 -> polys a j <> BKE_PTEX_NO_ADJ_POLY ->
          polys (edge_adj_add a poly_index) j = polys a j) /\
       (polys a 0 = BKE_PTEX_NO_ADJ_POLY ->
          polys (edge_adj_add a poly_index) 0 = poly_index /\
          polys (edge_adj_add a poly_index) 1 = polys a 1) /\
       (polys a 0 <> BKE_PTEX_NO_ADJ_POLY ->
        polys a 1 = BKE_PTEX_NO_ADJ_POLY ->
          polys (edge_adj_add a poly_index) 1 = poly_index)).
Proof.
  intros Hv. destruct (edge_adj_init_records me Hv) as (adj & Hinit & Hget & Hb).
  exists adj. split; [exact Hinit|]. split.
  - intros e He. exists (record_of (edge_refs me e)).
    split; [apply Hget, He|]. split; [reflexivity|]. split; [reflexivity|].
    split.
    + unfold polys, record_of; simpl. intros H1.
      assert (2 <= length (edge_refs me e))%nat as Hlen.
      { destruct (edge_refs me e) as [|x [|y l]]; simpl in *;
          try congruence; lia. }
      split.
      * destruct (edge_refs me e) as [|x l] eqn:E; simpl in *; [lia|].
        assert (0 <= x < me_totpoly me) as Hx by (apply (Hb e); rewrite E; left).
        unfold BKE_PTEX_NO_ADJ_POLY. lia.
      * apply sorted_first_two; [|exact Hlen].
        apply poly_refs_sorted, seqZ_sorted.
    + intros Hs. apply poly_refs_simple, Hs.
  - intros a poly_index. rewrite edge_adj_add_unfold. unfold polys; simpl.
    repeat split.
    + intros H0 H1. apply Z.eqb_neq in H0, H1. rewrite H0, H1. reflexivity.
    + intros j [-> | ->]; simpl; intros Hj.
      * apply Z.eqb_neq in Hj. rewrite Hj.
        destruct (polys_1 a =? _); reflexivity.
      * apply Z.eqb_neq in Hj. rewrite Hj.
        destruct (polys_0 a =? _); reflexivity.
    + apply Z.eqb_eq in H. rewrite H. reflexivity.
    + apply Z.eqb_eq in H. rewrite H. reflexivity.
    + intros H0 H1. apply Z.eqb_neq in H0. apply Z.eqb_eq in H1.
      rewrite H0, H1. reflexivity.
Qed.

Lemma edge_adj_init_first_two_witness :
  mesh_valid mesh_two_triangles = true /\
  exists adj a,
    bke_ptex_edge_adj_init mesh_two_triangles = Some adj /\
    array_get adj 1 = Some a /\
    polys a 0 = nth 0 (edge_refs mesh_two_triangles 1) BKE_PTEX_NO_ADJ_POLY /\
    polys a 1 = nth 1 (edge_refs mesh_two_triangles 1) BKE_PTEX_NO_ADJ_POLY.
Proof.
  split; [reflexivity|].
  destruct (edge_adj_init_first_two mesh_two_triangles eq_refl)
    as (adj & Hinit & Hrec & _).
  destruct (Hrec 1) as (a & Ha & H0 & H1 & _); [vm_compute; split; congruence|].
  exists adj, a. repeat split; assumption.
Defined.

(** C4: for every record [a] of an adjacency index built by
    [bke_ptex_edge_adj_init] and every polygon index [p], whenever the other
    polygon of [p] is a valid polygon [q] (not -1), the other polygon of [q]
    is [p]; and the other polygon of [p] is -1 when [p] occupies no slot of
    the record or when the slot complementary to one that [p] occupies is
    empty. *)
Theorem other_poly_involutive (me : Mesh) (adj : list BKEPtexEdgeAdj)
    (e : Z) (a : BKEPtexEdgeAdj) (p : Z) :
  bke_ptex_edge_adj_init me = Some adj ->
  array_get adj e = Some a ->
  (forall q, bke_ptex_edge_adj_other_poly (Some a) p = q ->
             q <> BKE_PTEX_NO_ADJ_POLY ->
             bke_ptex_edge_adj_other_poly (Some a) q = p) /\
  (polys a 0 <> p -> polys a 1 <> p ->
     bke_ptex_edge_adj_other_poly (Some a) p = BKE_PTEX_NO_ADJ_POLY) /\
  (forall i, i = 0 \/ i = 1 -> polys a i = p ->
     polys a (BKE_PTEX_MAX_ADJ_POLYS - i - 1) = BKE_PTEX_NO_ADJ_POLY ->
     bke_ptex_edge_adj_other_poly (Some a) p = BKE_PTEX_NO_ADJ_POLY).
Proof.
  intros _ _. split; [|split].
  - intros q. apply other_poly_involutive_any.
  - apply other_poly_absent.
  - intros i. apply other_poly_complement_empty.
Qed.

Lemma other_poly_involutive_witness :
  bke_ptex_edge_adj_init mesh_two_triangles =
    Some [ {| polys_0 := 0; polys_1 := -1 |}; {| polys_0 := 0; polys_1 := 1 |};
           {| polys_0 := 0; polys_1 := -1 |}; {| polys_0 := 1; polys_1 := -1 |};
           {| polys_0 := 1; polys_1 := -1 |} ] /\
  bke_ptex_edge_adj_other_poly (Some {| polys_0 := 0; polys_1 := 1 |}) 0 = 1 /\
  bke_ptex_edge_adj_other_poly (Some {| polys_0 := 0; polys_1 := 1 |}) 1 = 0.
Proof.
  split; [reflexivity|]. split; [reflexivity|].
  eapply (other_poly_involutive mesh_two_triangles _ 1
            {| polys_0 := 0; polys_1 := 1 |} 0).
  - reflexivity.
  - reflexivity.
  - reflexivity.
  - discriminate.
Defined.

(** ** Border filter: the neighbour across a side *)

Lemma int_rem_nonneg a b :
  0 <= a -> 0 < b -> int_rem a b = Some (a mod b).
Proof.
  intros Ha Hb. unfold int_rem.
  destruct (b =? 0) eqn:E; [lia|]. rewrite Z.rem_mod_nonneg by lia.
  reflexivity.
Qed.

Lemma int_add_small a b :
  0 <= a -> 0 <= b -> a + b <= 2 ^ 31 - 1 -> int_add a b = a + b.
Proof.
  intros Ha Hb Hab.
  unfold int_add. apply wrap_int_id. unfold in_int, INT_MIN, INT_MAX. lia.
Qed.

Lemma int_sub_small a b :
  0 <= a <= 2 ^ 31 - 1 -> 0 <= b <= 2 ^ 30 -> int_sub a b = a - b.
Proof.
  intros Ha Hb. assert (2 ^ 30 = 1073741824) as E by reflexivity.
  unfold int_sub. apply wrap_int_id. unfold in_int, INT_MIN, INT_MAX. lia.
Qed.

Lemma mesh_valid_poly me p :
  mesh_valid me = true -> p ∈ me_mpoly me ->
  0 <= p_loopstart p /\ 0 <= p_totloop p /\
  p_loopstart p + p_totloop p <= me_totloop me /\ me_totloop me <= 2 ^ 30.
Proof.
  intros Hv Hp.
  destruct (mesh_valid_spec me Hv) as (_ & _ & _ & Hsmall & Hpolys & _).
  destruct (Hpolys p Hp) as (? & ? & ?). repeat split; assumption.
Qed.

(** The offset of the previous loop, as the code computes it. *)
Lemma prev_offset me p off :
  mesh_valid me = true -> p ∈ me_mpoly me -> 0 <= off < p_totloop p ->
  int_rem (int_sub (int_add (p_totloop p) off) 1) (p_totloop p) =
    Some ((p_totloop p + off - 1) mod p_totloop p).
Proof.
  intros Hv Hp Hoff. destruct (mesh_valid_poly me p Hv Hp) as (? & ? & ? & ?).
  assert (2 ^ 30 = 1073741824) as E by reflexivity.
  rewrite int_add_small by lia. rewrite int_sub_small by lia.
  apply int_rem_nonneg; lia.
Qed.

(** The offset of the next loop, as the code computes it. *)
Lemma next_offset me p off :
  mesh_valid me = true -> p ∈ me_mpoly me -> 0 <= off < p_totloop p ->
  int_rem (int_add off 1) (p_totloop p) = Some ((off + 1) mod p_totloop p).
Proof.
  intros Hv Hp Hoff. destruct (mesh_valid_poly me p Hv Hp) as (? & ? & ? & ?).
  assert (2 ^ 30 = 1073741824) as E by reflexivity.
  rewrite int_add_small by lia. apply int_rem_nonneg; lia.
Qed.

Lemma loop_index_small me p r :
  mesh_valid me = true -> p ∈ me_mpoly me -> 0 <= r < p_totloop p ->
  int_add (p_loopstart p) r = p_loopstart p + r /\
  0 <= p_loopstart p + r < me_totloop me.
Proof.
  intros Hv Hp Hr. destruct (mesh_valid_loop me p r Hv Hp Hr) as (H1 & H2 & _).
  split; assumption.
Qed.

Lemma ptex_adj_edge_bottom adj me poly_index1 p1 off :
  mesh_valid me = true -> array_get (me_mpoly me) poly_index1 = Some p1 ->
  0 <= off < p_totloop p1 ->
  ptex_adj_edge adj me poly_index1 off BPX_SIDE_BOTTOM =
    Some (p_loopstart p1 + (p_totloop p1 + off - 1) mod p_totloop p1,
          {| side := BPX_SIDE_LEFT; reverse := true |}).
Proof.
  intros Hv Hp Hoff. pose proof (array_get_elem_of _ _ _ Hp) as Hin.
  unfold ptex_adj_edge. rewrite Hp. simpl.
  rewrite (prev_offset me p1 off Hv Hin Hoff). simpl.
  destruct (loop_index_small me p1 ((p_totloop p1 + off - 1) mod p_totloop p1)
              Hv Hin) as [-> _]; [apply Z.mod_pos_bound; lia|].
  reflexivity.
Qed.

Lemma ptex_adj_edge_left adj me poly_index1 p1 off :
  mesh_valid me = true -> array_get (me_mpoly me) poly_index1 = Some p1 ->
  0 <= off < p_totloop p1 ->
  ptex_adj_edge adj me poly_index1 off BPX_SIDE_LEFT =
    Some (p_loopstart p1 + (off + 1) mod p_totloop p1,
          {| side := BPX_SIDE_BOTTOM; reverse := true |}).
Proof.
  intros Hv Hp Hoff. pose proof (array_get_elem_of _ _ _ Hp) as Hin.
  unfold ptex_adj_edge. rewrite Hp. simpl.
  rewrite (next_offset me p1 off Hv Hin Hoff). simpl.
  destruct (loop_index_small me p1 ((off + 1) mod p_totloop p1) Hv Hin)
    as [-> _]; [apply Z.mod_pos_bound; lia|].
  reflexivity.
Qed.

(** The scan of the neighbour's loops ends either without a match, when no
    loop of the neighbour is on the edge, or at the first loop on the
    edge. *)
Lemma adj_edge_scan_spec me p2 e1 loop_side :
  mesh_valid me = true -> p2 ∈ me_mpoly me ->
  loop_side = BPX_SIDE_TOP \/ loop_side = BPX_SIDE_RIGHT ->
  forall (k : nat) (m : Z),
    0 <= m -> m + Z.of_nat k = p_totloop p2 ->
    (forall i', 0 <= i' < m ->
       exists l2, array_get (me_mloop me) (p_loopstart p2 + i') = Some l2 /\
                  l_e l2 <> e1) ->
    (adj_edge_scan me p2 e1 loop_side (seqZ m (Z.of_nat k)) = Some None /\
     no_loop_on_edge me p2 e1) \/
    (exists i, first_loop_on_edge me p2 e1 i /\
       adj_edge_scan me p2 e1 loop_side (seqZ m (Z.of_nat k)) =
         Some (Some (fst (neighbour_across p2 loop_side i),
                     side (snd (neighbour_across p2 loop_side i))))).
Proof.
  intros Hv Hp Hside. induction k as [|k IH]; intros m Hm Hsum Hbefore.
  - left. rewrite seqZ_nil by lia. split; [reflexivity|].
    intros i Hi. apply Hbefore. lia.
  - rewrite seqZ_cons by lia.
    replace (Z.pred (Z.of_nat (S k))) with (Z.of_nat k) by lia.
    destruct (mesh_valid_loop me p2 m Hv Hp) as (Hadd & _ & l2 & Hl2 & _);
      [lia|].
    cbn [adj_edge_scan]. rewrite Hadd, Hl2. simpl.
    destruct (e1 =? l_e l2) eqn:E.
    + apply Z.eqb_eq in E. right. exists m. split.
      { split; [lia|]. split; [exists l2; split; [exact Hl2 | congruence]|].
        exact Hbefore. }
      destruct Hside as [-> | ->]; simpl.
      * rewrite (next_offset me p2 m Hv Hp) by lia. simpl.
        destruct (loop_index_small me p2 ((m + 1) mod p_totloop p2) Hv Hp)
          as [-> _]; [apply Z.mod_pos_bound; lia|].
        reflexivity.
      * reflexivity.
    + apply Z.eqb_neq in E. apply (IH (Z.succ m)); [lia | lia |].
      intros i' Hi'. destruct (Z.eq_dec i' m) as [-> | Hne].
      * exists l2. split; [exact Hl2 | congruence].
      * apply Hbefore. lia.
Qed.

Lemma first_loop_on_edge_unique me p2 e1 i j :
  first_loop_on_edge me p2 e1 i -> first_loop_on_edge me p2 e1 j -> i = j.
Proof.
  intros (Hi & (li & Hli & Hei) & Hbi) (Hj & (lj & Hlj & Hej) & Hbj).
  destruct (Z.lt_trichotomy i j) as [Hlt | [Heq | Hgt]]; [|exact Heq|].
  - destruct (Hbj i) as (l & Hl & Hne); [lia|]. congruence.
  - destruct (Hbi j) as (l & Hl & Hne); [lia|]. congruence.
Qed.

Lemma first_loop_not_none me p2 e1 i :
  first_loop_on_edge me p2 e1 i -> no_loop_on_edge me p2 e1 -> False.
Proof.
  intros (Hi & (li & Hli & Hei) & _) Hnone.
  destruct (Hnone i Hi) as (l & Hl & Hne). congruence.
Qed.

(** The sides resolved through the adjacency index. *)
Lemma ptex_adj_edge_cross adj me poly_index1 p1 off loop_side l1 a :
  mesh_valid me = true -> array_get (me_mpoly me) poly_index1 = Some p1 ->
  0 <= off < p_totloop p1 ->
  loop_side = BPX_SIDE_TOP \/ loop_side = BPX_SIDE_RIGHT ->
  array_get (me_mloop me)
    (p_loopstart p1 + side_edge_offset p1 off loop_side) = Some l1 ->
  array_get adj (l_e l1) = Some a ->
  (bke_ptex_edge_adj_other_poly (Some a) poly_index1 = BKE_PTEX_NO_ADJ_POLY ->
   ptex_adj_edge adj me poly_index1 off loop_side =
     Some (self_neighbour p1 off loop_side)) /\
  (forall p2,
     bke_ptex_edge_adj_other_poly (Some a) poly_index1 <> BKE_PTEX_NO_ADJ_POLY ->
     array_get (me_mpoly me)
       (bke_ptex_edge_adj_other_poly (Some a) poly_index1) = Some p2 ->
     (no_loop_on_edge me p2 (l_e l1) /\
      ptex_adj_edge adj me poly_index1 off loop_side =
        Some (self_neighbour p1 off loop_side)) \/
     (exists i, first_loop_on_edge me p2 (l_e l1) i /\
        ptex_adj_edge adj me poly_index1 off loop_side =
          Some (neighbour_across p2 loop_side i))).
Proof.
  intros Hv Hp Hoff Hside Hl1 Ha.
  pose proof (array_get_elem_of _ _ _ Hp) as Hin.
  assert (ptex_adj_edge adj me poly_index1 off loop_side =
      (let poly_index2 := bke_ptex_edge_adj_other_poly (Some a) poly_index1 in
       if poly_index2 =? BKE_PTEX_NO_ADJ_POLY
       then Some (self_neighbour p1 off loop_side)
       else
         p2 ← array_get (me_mpoly me) poly_index2;
         found ← adj_edge_scan me p2 (l_e l1) loop_side
                   (seqZ 0 (p_totloop p2));
         match found with
         | Some (li, s) => Some (li, {| side := s; reverse := true |})
         | None => Some (self_neighbour p1 off loop_side)
         end)) as Hunfold.
  { destruct (loop_index_small me p1 off Hv Hin Hoff) as [Hself _].
    unfold ptex_adj_edge, self_neighbour. rewrite Hp. simpl.
    destruct Hside as [-> | ->]; simpl in Hl1 |- *.
    - rewrite Hself, Hl1. simpl. rewrite Ha. reflexivity.
    - rewrite (prev_offset me p1 off Hv Hin Hoff). simpl.
      destruct (loop_index_small me p1
                  ((p_totloop p1 + off - 1) mod p_totloop p1) Hv Hin)
        as [-> _]; [apply Z.mod_pos_bound; lia|].
      rewrite Hself, Hl1. simpl. rewrite Ha. reflexivity. }
  rewrite Hunfold. cbv zeta. split.
  - intros ->. reflexivity.
  - intros p2 Hq Hp2. apply Z.eqb_neq in Hq. rewrite Hq, Hp2. simpl.
    pose proof (array_get_elem_of _ _ _ Hp2) as Hin2.
    destruct (mesh_valid_poly me p2 Hv Hin2) as (_ & Htot & _).
    destruct (adj_edge_scan_spec me p2 (l_e l1) loop_side Hv Hin2 Hside
                (Z.to_nat (p_totloop p2)) 0) as [[Hscan Hnone] | (i & Hfirst & Hscan)];
      try lia.
    + rewrite Z2Nat.id in Hscan by lia. rewrite Hscan. simpl.
      left. split; [exact Hnone | reflexivity].
    + rewrite Z2Nat.id in Hscan by lia. rewrite Hscan. simpl.
      right. exists i. split; [exact Hfirst|].
      destruct Hside as [-> | ->]; reflexivity.
Qed.

(** C2 does not hold as stated.  On two triangles sharing an edge, the TOP
    side of loop 1 of polygon 0 resolves to loop 4, a loop of polygon 1, and
    the answer changes with the adjacency index, so TOP is not an index
    rotation inside the polygon free of adjacency lookups; the LEFT side of
    the same loop resolves to loop 2 of polygon 0 itself, whatever the
    adjacency index holds, so LEFT is not resolved through the neighbour. *)
Lemma ptex_adj_edge_top_crosses_left_rotates :
  let me := mesh_two_triangles in
  let empty := bke_ptex_edge_adj_alloc me in
  exists adj,
    bke_ptex_edge_adj_init me = Some adj /\
    ptex_adj_edge adj me 0 1 BPX_SIDE_TOP =
      Some (4, {| side := BPX_SIDE_RIGHT; reverse := true |}) /\
    ptex_adj_edge empty me 0 1 BPX_SIDE_TOP =
      Some (1, {| side := BPX_SIDE_TOP; reverse := true |}) /\
    ptex_adj_edge adj me 0 1 BPX_SIDE_TOP <>
      ptex_adj_edge empty me 0 1 BPX_SIDE_TOP /\
    ptex_adj_edge adj me 0 1 BPX_SIDE_LEFT =
      Some (2, {| side := BPX_SIDE_BOTTOM; reverse := true |}) /\
    ptex_adj_edge empty me 0 1 BPX_SIDE_LEFT =
      Some (2, {| side := BPX_SIDE_BOTTOM; reverse := true |}).
Proof.
  cbv zeta. eexists. split; [reflexivity|].
  split; [reflexivity|]. split; [reflexivity|].
  split; [discriminate|]. split; reflexivity.
Qed.

(** C2, amended: in [ptex_adj_edge], for every polygon, loop offset and
    queried side, the BOTTOM and LEFT sides are handled by index rotation
    within the same polygon (previous loop, next loop), whatever the
    adjacency index holds, while the TOP and RIGHT sides are resolved through
    cross-polygon adjacency: the mesh edge of the side is looked up, the
    adjacent polygon is taken from the adjacency index, and that polygon's
    loops are scanned in order for the first loop on the edge; the query's own
    loop and side are the answer when there is no adjacent polygon or no
    loop of it is on the edge. *)
Theorem ptex_adj_edge_sides (adj adj' : list BKEPtexEdgeAdj) (me : Mesh)
    (poly_index1 : Z) (p1 : MPoly) (loop_offset : Z) :
  mesh_valid me = true ->
  array_get (me_mpoly me) poly_index1 = Some p1 ->
  0 <= loop_offset < p_totloop p1 ->
  (ptex_adj_edge adj me poly_index1 loop_offset BPX_SIDE_BOTTOM =
     Some (p_loopstart p1 +
             (p_totloop p1 + loop_offset - 1) mod p_totloop p1,
           {| side := BPX_SIDE_LEFT; reverse := true |}) /\
   ptex_adj_edge adj' me poly_index1 loop_offset BPX_SIDE_BOTTOM =
     ptex_adj_edge adj me poly_index1 loop_offset BPX_SIDE_BOTTOM) /\
  (ptex_adj_edge adj me poly_index1 loop_offset BPX_SIDE_LEFT =
     Some (p_loopstart p1 + (loop_offset + 1) mod p_totloop p1,
           {| side := BPX_SIDE_BOTTOM; reverse := true |}) /\
   ptex_adj_edge adj' me poly_index1 loop_offset BPX_SIDE_LEFT =
     ptex_adj_edge adj me poly_index1 loop_offset BPX_SIDE_LEFT) /\
  (forall loop_side,
     loop_side = BPX_SIDE_TOP \/ loop_side = BPX_SIDE_RIGHT ->
     exists l1,
       array_get (me_mloop me)
         (p_loopstart p1 + side_edge_offset p1 loop_offset loop_side)
         = Some l1 /\
       forall a, array_get adj (l_e l1) = Some a ->
         (bke_ptex_edge_adj_other_poly (Some a) poly_index1
            = BKE_PTEX_NO_ADJ_POLY ->
          ptex_adj_edge adj me poly_index1 loop_offset loop_side =
            Some (self_neighbour p1 loop_offset loop_side)) /\
         (forall p2,
            bke_ptex_edge_adj_other_poly (Some a) poly_index1
              <> BKE_PTEX_NO_ADJ_POLY ->
            array_get (me_mpoly me)
              (bke_ptex_edge_adj_other_poly (Some a) poly_index1) = Some p2 ->
            (forall i, first_loop_on_edge me p2 (l_e l1) i ->
               ptex_adj_edge adj me poly_index1 loop_offset loop_side =
                 Some (neighbour_across p2 loop_side i)) /\
            (no_loop_on_edge me p2 (l_e l1) ->
               ptex_adj_edge adj me poly_index1 loop_offset loop_side =
                 Some (self_neighbour p1 loop_offset loop_side)))).
Proof.
  intros Hv Hp Hoff. pose proof (array_get_elem_of _ _ _ Hp) as Hin.
  split; [|split].
  - rewrite !(ptex_adj_edge_bottom _ me poly_index1 p1) by assumption.
    split; reflexivity.
  - rewrite !(ptex_adj_edge_left _ me poly_index1 p1) by assumption.
    split; reflexivity.
  - intros loop_side Hside.
    assert (0 <= side_edge_offset p1 loop_offset loop_side < p_totloop p1)
      as Hso.
    { destruct Hside as [-> | ->]; simpl; [lia|].
      apply Z.mod_pos_bound. lia. }
    destruct (mesh_valid_loop me p1 _ Hv Hin Hso) as (_ & _ & l1 & Hl1 & _).
    exists l1. split; [exact Hl1|]. intros a Ha.
    destruct (ptex_adj_edge_cross adj me poly_index1 p1 loop_offset loop_side
                l1 a Hv Hp Hoff Hside Hl1 Ha) as [Hnone Hsome].
    split; [exact Hnone|]. intros p2 Hq Hp2.
    destruct (Hsome p2 Hq Hp2) as [[Hno Hself] | (i & Hfirst & Hacross)].
    + split; [|intros _; exact Hself].
      intros i Hi. destruct (first_loop_not_none _ _ _ _ Hi Hno).
    + split.
      * intros j Hj.
        rewrite (first_loop_on_edge_unique _ _ _ _ _ Hj Hfirst).
        exact Hacross.
      * intros Hno. destruct (first_loop_not_none _ _ _ _ Hfirst Hno).
Qed.

Lemma ptex_adj_edge_sides_witness :
  let me := mesh_two_triangles in
  let p1 := {| p_loopstart := 0; p_totloop := 3 |} in
  mesh_valid me = true /\
  array_get (me_mpoly me) 0 = Some p1 /\
  0 <= 1 < p_totloop p1 /\
  ptex_adj_edge [] me 0 1 BPX_SIDE_BOTTOM =
    Some (0, {| side := BPX_SIDE_LEFT; reverse := true |}) /\
  ptex_adj_edge [] me 0 1 BPX_SIDE_LEFT =
    Some (2, {| side := BPX_SIDE_BOTTOM; reverse := true |}).
Proof.
  cbv zeta. split; [reflexivity|]. split; [reflexivity|].
  split; [simpl; lia|].
  destruct (ptex_adj_edge_sides [] [] mesh_two_triangles 0
              {| p_loopstart := 0; p_totloop := 3 |} 1)
    as ((Hb & _) & (Hl & _) & _).
  - reflexivity.
  - reflexivity.
  - simpl. lia.
  - split; [exact Hb | exact Hl].
Defined.

(** The polygon found in a record of the built adjacency index is a
    polygon of the mesh. *)
Lemma built_other_poly_valid me adj e a poly_index :
  adj_records me (me_totpoly me) adj (edge_refs me) ->
  0 <= e < me_totedge me ->
  array_get adj e = Some a ->
  bke_ptex_edge_adj_other_poly (Some a) poly_index <> BKE_PTEX_NO_ADJ_POLY ->
  0 <= bke_ptex_edge_adj_other_poly (Some a) poly_index < me_totpoly me.
Proof.
  intros [Hget Hb] He Ha Hq. rewrite (Hget e He) in Ha.
  injection Ha as <-. revert Hq. rewrite other_poly_unfold.
  unfold record_of; simpl.
  assert (forall k, nth k (edge_refs me e) BKE_PTEX_NO_ADJ_POLY
                      <> BKE_PTEX_NO_ADJ_POLY ->
                    0 <= nth k (edge_refs me e) BKE_PTEX_NO_ADJ_POLY
                      < me_totpoly me) as Hnth.
  { intros k Hk. apply (Hb e).
    destruct (Nat.lt_ge_cases k (length (edge_refs me e))) as [Hlt | Hge].
    - apply list_elem_of_In, nth_In, Hlt.
    - rewrite nth_overflow in Hk by exact Hge. congruence. }
  destruct (_ =? poly_index); [apply Hnth|].
  destruct (_ =? poly_index); [apply Hnth|]. congruence.
Qed.

(** C7: for every polygon of a valid mesh, every loop offset within it and
    every side, [ptex_adj_edge] run on the adjacency index built for the mesh
    stores a valid loop index of the mesh, in [0, totloop); on the sides
    resolved through the adjacency index (TOP and RIGHT), when no adjacent
    polygon exists or no loop of the neighbour is on the edge, it stores the
    query's own loop index with the query's own side. *)
Theorem ptex_adj_edge_valid_loop (me : Mesh) (adj : list BKEPtexEdgeAdj)
    (poly_index1 : Z) (p1 : MPoly) (loop_offset : Z) (loop_side : BPXSide) :
  mesh_valid me = true ->
  bke_ptex_edge_adj_init me = Some adj ->
  array_get (me_mpoly me) poly_index1 = Some p1 ->
  0 <= loop_offset < p_totloop p1 ->
  exists adj_loop adj_edge,
    ptex_adj_edge adj me poly_index1 loop_offset loop_side =
      Some (adj_loop, adj_edge) /\
    0 <= adj_loop < me_totloop me /\
    (loop_side = BPX_SIDE_TOP \/ loop_side = BPX_SIDE_RIGHT ->
     exists l1 a,
       array_get (me_mloop me)
         (p_loopstart p1 + side_edge_offset p1 loop_offset loop_side)
         = Some l1 /\
       array_get adj (l_e l1) = Some a /\
       (bke_ptex_edge_adj_other_poly (Some a) poly_index1
          = BKE_PTEX_NO_ADJ_POLY ->
        (adj_loop, adj_edge) = self_neighbour p1 loop_offset loop_side) /\
       (forall p2,
          array_get (me_mpoly me)
            (bke_ptex_edge_adj_other_poly (Some a) poly_index1) = Some p2 ->
          no_loop_on_edge me p2 (l_e l1) ->
          (adj_loop, adj_edge) = self_neighbour p1 loop_offset loop_side)).
Proof.
  intros Hv Hinit Hp Hoff. pose proof (array_get_elem_of _ _ _ Hp) as Hin.
  destruct (edge_adj_init_records me Hv) as (adj0 & Hinit0 & Hrec).
  rewrite Hinit in Hinit0. injection Hinit0 as <-.
  destruct (mesh_valid_poly me p1 Hv Hin) as (Hls & Htl & Hend & _).
  assert (forall r, 0 <= r < p_totloop p1 ->
                    0 <= p_loopstart p1 + r < me_totloop me) as Hrange
    by (intros; lia).
  destruct loop_side.
  - (* BOTTOM *)
    eexists _, _. split; [apply (ptex_adj_edge_bottom adj me poly_index1 p1);
                          assumption|].
    split; [apply Hrange, Z.mod_pos_bound; lia|].
    intros [H | H]; discriminate.
  - (* RIGHT *)
    assert (0 <= side_edge_offset p1 loop_offset BPX_SIDE_RIGHT < p_totloop p1)
      as Hso by (simpl; apply Z.mod_pos_bound; lia).
    destruct (mesh_valid_loop me p1 _ Hv Hin Hso) as (_ & _ & l1 & Hl1 & He).
    destruct Hrec as [Hget Hb].
    pose proof (Hget _ He) as Ha.
    destruct (ptex_adj_edge_cross adj me poly_index1 p1 loop_offset
                BPX_SIDE_RIGHT l1 _ Hv Hp Hoff (or_intror eq_refl) Hl1 Ha)
      as [Hnone Hsome].
    set (a := record_of (edge_refs me (l_e l1))) in *.
    destruct (Z.eq_dec (bke_ptex_edge_adj_other_poly (Some a) poly_index1)
                BKE_PTEX_NO_ADJ_POLY) as [Hq | Hq].
    + exists (p_loopstart p1 + loop_offset),
             {| side := BPX_SIDE_RIGHT; reverse := true |}.
      split; [apply Hnone, Hq|]. split; [apply Hrange, Hoff|].
      intros _. exists l1, a. repeat split; try assumption.
    + pose proof (built_other_poly_valid me adj (l_e l1) a poly_index1
                    (conj Hget Hb) He Ha Hq) as Hqv.
      destruct (mesh_valid_spec me Hv) as (Hnp & _).
      destruct (array_get_is_Some (me_mpoly me)
                  (bke_ptex_edge_adj_other_poly (Some a) poly_index1))
        as [p2 Hp2]; [lia|].
      pose proof (array_get_elem_of _ _ _ Hp2) as Hin2.
      destruct (mesh_valid_poly me p2 Hv Hin2) as (Hls2 & Htl2 & Hend2 & _).
      destruct (Hsome p2 Hq Hp2) as [[Hno Hself] | (i & Hfirst & Hacross)].
      * exists (p_loopstart p1 + loop_offset),
               {| side := BPX_SIDE_RIGHT; reverse := true |}.
        split; [exact Hself|]. split; [apply Hrange, Hoff|].
        intros _. exists l1, a. repeat split; try assumption.
      * exists (fst (neighbour_across p2 BPX_SIDE_RIGHT i)),
               (snd (neighbour_across p2 BPX_SIDE_RIGHT i)).
        split; [rewrite Hacross; reflexivity|].
        destruct Hfirst as (Hi & Hli & Hbefore).
        split; [simpl; lia|].
        intros _. exists l1, a. split; [exact Hl1|]. split; [exact Ha|].
        split; [intros Hq'; contradiction|].
        intros p2' Hp2' Hno. rewrite Hp2 in Hp2'. injection Hp2' as <-.
        destruct (first_loop_not_none me p2 (l_e l1) i
                    (conj Hi (conj Hli Hbefore)) Hno).
  - (* TOP *)
    assert (0 <= side_edge_offset p1 loop_offset BPX_SIDE_TOP < p_totloop p1)
      as Hso by (simpl; lia).
    destruct (mesh_valid_loop me p1 _ Hv Hin Hso) as (_ & _ & l1 & Hl1 & He).
    destruct Hrec as [Hget Hb].
    pose proof (Hget _ He) as Ha.
    destruct (ptex_adj_edge_cross adj me poly_index1 p1 loop_offset
                BPX_SIDE_TOP l1 _ Hv Hp Hoff (or_introl eq_refl) Hl1 Ha)
      as [Hnone Hsome].
    set (a := record_of (edge_refs me (l_e l1))) in *.
    destruct (Z.eq_dec (bke_ptex_edge_adj_other_poly (Some a) poly_index1)
                BKE_PTEX_NO_ADJ_POLY) as [Hq | Hq].
    + exists (p_loopstart p1 + loop_offset),
             {| side := BPX_SIDE_TOP; reverse := true |}.
      split; [apply Hnone, Hq|]. split; [apply Hrange, Hoff|].
      intros _. exists l1, a. repeat split; try assumption.
    + pose proof (built_other_poly_valid me adj (l_e l1) a poly_index1
                    (conj Hget Hb) He Ha Hq) as Hqv.
      destruct (mesh_valid_spec me Hv) as (Hnp & _).
      destruct (array_get_is_Some (me_mpoly me)
                  (bke_ptex_edge_adj_other_poly (Some a) poly_index1))
        as [p2 Hp2]; [lia|].
      pose proof (array_get_elem_of _ _ _ Hp2) as Hin2.
      destruct (mesh_valid_poly me p2 Hv Hin2) as (Hls2 & Htl2 & Hend2 & _).
      destruct (Hsome p2 Hq Hp2) as [[Hno Hself] | (i & Hfirst & Hacross)].
      * exists (p_loopstart p1 + loop_offset),
               {| side := BPX_SIDE_TOP; reverse := true |}.
        split; [exact Hself|]. split; [apply Hrange, Hoff|].
        intros _. exists l1, a. repeat split; try assumption.
      * exists (fst (neighbour_across p2 BPX_SIDE_TOP i)),
               (snd (neighbour_across p2 BPX_SIDE_TOP i)).
        split; [rewrite Hacross; reflexivity|].
        destruct Hfirst as (Hi & Hli & Hbefore).
        split.
        { simpl. pose proof (Z.mod_pos_bound (i + 1) (p_totloop p2)). lia. }
        intros _. exists l1, a. split; [exact Hl1|]. split; [exact Ha|].
        split; [intros Hq'; contradiction|].
        intros p2' Hp2' Hno. rewrite Hp2 in Hp2'. injection Hp2' as <-.
        destruct (first_loop_not_none me p2 (l_e l1) i
                    (conj Hi (conj Hli Hbefore)) Hno).
  - (* LEFT *)
    eexists _, _. split; [apply (ptex_adj_edge_left adj me poly_index1 p1);
                          assumption|].
    split; [apply Hrange, Z.mod_pos_bound; lia|].
    intros [H | H]; discriminate.
Qed.

Lemma ptex_adj_edge_valid_loop_witness :
  let me := mesh_two_triangles in
  mesh_valid me = true /\
  exists adj adj_loop adj_edge,
    bke_ptex_edge_adj_init me = Some adj /\
    ptex_adj_edge adj me 0 0 BPX_SIDE_TOP = Some (adj_loop, adj_edge) /\
    0 <= adj_loop < me_totloop me.
Proof.
  cbv zeta. split; [reflexivity|].
  destruct (bke_ptex_edge_adj_init mesh_two_triangles) as [adj|] eqn:Hinit;
    [|discriminate Hinit].
  destruct (ptex_adj_edge_valid_loop mesh_two_triangles adj 0
              {| p_loopstart := 0; p_totloop := 3 |} 0 BPX_SIDE_TOP)
    as (adj_loop & adj_edge & Hres & Hrange & _).
  - reflexivity.
  - exact Hinit.
  - reflexivity.
  - simpl. lia.
  - exists adj, adj_loop, adj_edge. repeat split; try assumption; apply Hrange.
Defined.

(** ** Allocator *)

Lemma heap_with_blocks_id h : heap_with_blocks h (blocks h) = h.
Proof. destruct h; reflexivity. Qed.

Lemma heap_with_blocks_twice h b1 b2 :
  heap_with_blocks (heap_with_blocks h b1) b2 = heap_with_blocks h b2.
Proof. reflexivity. Qed.

Lemma MEM_mallocN_spec len h :
  (MEM_mallocN len h = (None, h) /\
   ((len <=? alloc_limit h) && (len <? 2 ^ 63) = false)) \/
  (exists p,
     blocks h !! p = None /\
     (len <=? alloc_limit h) && (len <? 2 ^ 63) = true /\
     MEM_mallocN len h =
       (Some p,
        heap_with_blocks h
          (<[p := replicate (Z.to_nat len) (junk h)]> (blocks h)))).
Proof.
  unfold MEM_mallocN.
  destruct ((len <=? alloc_limit h) && (len <? 2 ^ 63)) eqn:E.
  - right. exists (fresh (dom (blocks h))). split; [|split; reflexivity].
    apply not_elem_of_dom, is_fresh.
  - left. split; reflexivity.
Qed.

(** A block allocated and released again leaves the store as it was. *)
Ltac heap_restore Hfresh :=
  cbn [MEM_freeN blocks heap_with_blocks];
  rewrite ?heap_with_blocks_twice, ?insert_insert_eq;
  rewrite delete_insert_id by exact Hfresh;
  rewrite heap_with_blocks_id.

(** ** Raster store: resize *)

Section ResizeProperties.
Context {World Owned : Type} `{!BPXLibrary World Owned}.

Lemma wrap_ptex_rect_data logres info r d :
  bpx_image_buf_wrap_ptex_rect logres info (Some r) = Some d ->
  bpx_data d = r.
Proof.
  unfold bpx_image_buf_wrap_ptex_rect, BPX_image_buf_wrap.
  destruct (bpx_type_desc_from_mptex_data_type _); [|discriminate].
  destruct (BPX_image_buf_wrap_ok _ _ _ _); [|discriminate].
  intros [= <-]. reflexivity.
Qed.

(** C5: [BKE_loop_ptex_resize] on a raster whose buffer, if any, is
    allocated either succeeds, installing a newly allocated buffer that
    holds the resampled old contents, updating [logres] to the destination
    resolution and releasing the old buffer, or returns false with the
    raster (buffer pointer, logres, texel_info) and the whole store,
    contents included, unchanged. *)
Theorem loop_ptex_resize_atomic (lp : MLoopPtex) (dst_logres : MPtexLogRes)
    (h : heap) :
  (forall p, lp_rect lp = Some p -> is_Some (blocks h !! p)) ->
  exists r lp' h',
    BKE_loop_ptex_resize lp dst_logres h = Some (r, lp', h') /\
    ((r = true /\
      exists old new src_bytes new_bytes d s,
        lp_rect lp = Some old /\
        blocks h !! old = Some src_bytes /\
        blocks h !! new = None /\
        lp' = {| lp_texel_info := lp_texel_info lp; lp_logres := dst_logres;
                 lp_rect := Some new; lp_image := lp_image lp |} /\
        BPX_resample d s src_bytes
          (replicate
             (Z.to_nat (BKE_ptex_rect_num_bytes (lp_texel_info lp) dst_logres))
             (junk h)) = (true, new_bytes) /\
        blocks h' !! new = Some new_bytes /\
        blocks h' !! old = None /\
        (forall q, q <> old -> q <> new -> blocks h' !! q = blocks h !! q)) \/
     (r = false /\ lp' = lp /\ h' = h)).
Proof.
  intros Halloc. unfold BKE_loop_ptex_resize.
  destruct (lp_rect lp) as [old|] eqn:Hrect.
  2: { exists false, lp, h. split; [reflexivity|]. right. auto. }
  destruct (Halloc old eq_refl) as [src_bytes Hold].
  unfold bke_ptex_texels_malloc.
  destruct (MEM_mallocN_spec
              (BKE_ptex_rect_num_bytes (lp_texel_info lp) dst_logres) h)
    as [[-> _] | (new & Hnew & _ & ->)].
  { simpl. exists false, lp, h. split; [reflexivity|]. right. auto. }
  set (junk_bytes := replicate _ (junk h)).
  destruct (bpx_image_buf_wrap_ptex_rect dst_logres (lp_texel_info lp)
              (Some new)) as [d|] eqn:Hd.
  2: { simpl. heap_restore Hnew.
       exists false, lp, h. split; [reflexivity|]. right. auto. }
  pose proof (wrap_ptex_rect_data _ _ _ _ Hd) as Hdd.
  unfold BPX_image_buf_resize, bpx_on_blocks, bpx_image_buf_wrap_loop_ptex.
  rewrite Hrect.
  destruct (bpx_image_buf_wrap_ptex_rect (lp_logres lp) (lp_texel_info lp)
              (Some old)) as [s|] eqn:Hs.
  2: { simpl. heap_restore Hnew.
       exists false, lp, h. split; [reflexivity|]. right. auto. }
  pose proof (wrap_ptex_rect_data _ _ _ _ Hs) as Hsd.
  assert (old <> new) as Hne.
  { intros Heq. rewrite Heq, Hnew in Hold. discriminate Hold. }
  assert (new <> old) as Hne' by (intros Heq; apply Hne; symmetry; exact Heq).
  rewrite Hdd, Hsd. cbn [blocks heap_with_blocks].
  rewrite (lookup_insert_ne (blocks h) new old) by exact Hne'.
  rewrite Hold. simpl.
  rewrite lookup_insert_eq. simpl.
  destruct (BPX_resample d s src_bytes junk_bytes) as [ok new_bytes] eqn:Hres.
  simpl. destruct ok.
  - eexists true, _, _. split; [reflexivity|]. left. split; [reflexivity|].
    exists old, new, src_bytes, new_bytes, d, s.
    split; [reflexivity|]. split; [exact Hold|]. split; [exact Hnew|].
    split; [reflexivity|]. split; [exact Hres|].
    cbn [MEM_freeN blocks heap_with_blocks].
    split; [|split].
    + rewrite lookup_delete_ne by exact Hne. apply lookup_insert_eq.
    + apply lookup_delete_eq.
    + intros q Hq1 Hq2.
      rewrite lookup_delete_ne by (intros Heq; apply Hq1; symmetry; exact Heq).
      rewrite !lookup_insert_ne
        by (intros Heq; apply Hq2; symmetry; exact Heq).
      reflexivity.
  - heap_restore Hnew.
    exists false, lp, h. split; [reflexivity|]. right. auto.
Qed.

End ResizeProperties.

Lemma loop_ptex_resize_atomic_witness :
  (forall p, lp_rect raster_2x2 = Some p ->
             is_Some (blocks heap_one_raster !! p)) /\
  exists r lp' h',
    BKE_loop_ptex_resize (World := ptex_file) raster_2x2
      {| logres_u := 2; logres_v := 1 |} heap_one_raster = Some (r, lp', h') /\
    ((r = true /\ lp_logres lp' = {| logres_u := 2; logres_v := 1 |}) \/
     (r = false /\ lp' = raster_2x2 /\ h' = heap_one_raster)).
Proof.
  assert (forall p, lp_rect raster_2x2 = Some p ->
                    is_Some (blocks heap_one_raster !! p)) as Halloc.
  { intros p [= <-]. eexists. reflexivity. }
  split; [exact Halloc|].
  destruct (loop_ptex_resize_atomic (World := ptex_file) raster_2x2
              {| logres_u := 2; logres_v := 1 |} heap_one_raster Halloc)
    as (r & lp' & h' & Hrun & Hcases).
  exists r, lp', h'. split; [exact Hrun|].
  destruct Hcases as [(Hr & old & new & sb & nb & d & s & _ & _ & _ & Hlp & _)
                     | Hfail].
  - left. split; [exact Hr|]. rewrite Hlp. reflexivity.
  - right. exact Hfail.
Defined.

(** ** Raster store: initialisation *)

Lemma length_texels n tx : length (texels n tx) = (n * length tx)%nat.
Proof.
  unfold texels. induction n as [|n IH]; simpl; [reflexivity|].
  rewrite length_app, IH. reflexivity.
Qed.

Lemma texels_S n tx : texels (S n) tx = tx ++ texels n tx.
Proof. reflexivity. Qed.

Lemma texels_snoc n tx : texels (S n) tx = texels n tx ++ tx.
Proof.
  unfold texels. rewrite replicate_S_end, join_app. simpl.
  rewrite app_nil_r. reflexivity.
Qed.

Lemma drop_texels k n tx :
  (k <= n)%nat -> drop (k * length tx) (texels n tx) = texels (n - k) tx.
Proof.
  revert n. induction k as [|k IH]; intros n Hk.
  - simpl. rewrite Nat.sub_0_r. reflexivity.
  - destruct n as [|n]; [lia|]. rewrite texels_S. simpl.
    rewrite <- drop_drop, drop_app_length. apply IH. lia.
Qed.

Lemma texel_at_texels n tx t :
  0 <= t < Z.of_nat n ->
  texel_at (Z.of_nat (length tx)) (texels n tx) t = Some tx.
Proof.
  intros Ht. unfold texel_at, buf_read. rewrite length_texels.
  assert ((0 <=? t * Z.of_nat (length tx)) && (0 <=? Z.of_nat (length tx)) &&
          (t * Z.of_nat (length tx) + Z.of_nat (length tx) <=?
             Z.of_nat (n * length tx)) = true) as ->.
  { rewrite !andb_true_iff, !Z.leb_le. nia. }
  f_equal. replace (Z.to_nat (t * Z.of_nat (length tx)))
    with (Z.to_nat t * length tx)%nat by nia.
  rewrite drop_texels by lia.
  destruct (n - Z.to_nat t)%nat as [|m] eqn:Em; [lia|].
  rewrite texels_S, Nat2Z.id. apply take_app_length.
Qed.

Lemma buf_write_head buf data :
  (length data <= length buf)%nat ->
  buf_write buf 0 data = Some (data ++ drop (length data) buf).
Proof.
  intros H. unfold buf_write.
  destruct (_ && _) eqn:E; [reflexivity|].
  rewrite andb_false_iff in E. destruct E as [E | E]; lia.
Qed.

(** One copy of the first texel to the next texel. *)
Lemma memcpy_next_texel n tx suffix :
  (length tx <= length suffix)%nat ->
  memcpy_within (texels (S n) tx ++ suffix)
    (Z.of_nat (n * length tx) + Z.of_nat (length tx)) 0
    (Z.of_nat (length tx)) =
  Some (texels (S (S n)) tx ++ drop (length tx) suffix).
Proof.
  intros Hs. unfold memcpy_within, buf_read.
  rewrite length_app, length_texels.
  assert ((0 <=? 0) && (0 <=? Z.of_nat (length tx)) &&
          (0 + Z.of_nat (length tx) <=?
             Z.of_nat (S n * length tx + length suffix)) = true) as ->.
  { rewrite !andb_true_iff, !Z.leb_le. nia. }
  rewrite Nat2Z.id.
  assert (take (length tx) (drop (Z.to_nat 0) (texels (S n) tx ++ suffix))
          = tx) as ->.
  { change (Z.to_nat 0) with 0%nat.
    rewrite drop_0, texels_S, <- app_assoc. apply take_app_length. }
  unfold buf_write. rewrite length_app, length_texels.
  assert ((0 <=? Z.of_nat (n * length tx) + Z.of_nat (length tx)) &&
          (Z.of_nat (n * length tx) + Z.of_nat (length tx) +
             Z.of_nat (length tx) <=?
             Z.of_nat (S n * length tx + length suffix)) = true) as ->.
  { rewrite !andb_true_iff, !Z.leb_le. nia. }
  f_equal.
  replace (Z.to_nat (Z.of_nat (n * length tx) + Z.of_nat (length tx)))
    with (length (texels (S n) tx)) by (rewrite length_texels; lia).
  rewrite take_app_length, drop_app_add.
  rewrite (texels_snoc (S n)), <- app_assoc. reflexivity.
Qed.

(** The copy loop of [bke_loop_ptex_fill]: started after the first texel,
    it leaves every texel equal to the first one. *)
Lemma fill_loop_texels tx (idx : list Z) :
  forall (n : nat) suffix,
    length suffix = (length idx * length tx)%nat ->
    for_each idx
      (fun _ '(dst, b) =>
         let dst' := dst + Z.of_nat (length tx) in
         b' ← memcpy_within b dst' 0 (Z.of_nat (length tx));
         Some (dst', b'))
      (Z.of_nat (n * length tx), texels (S n) tx ++ suffix) =
    Some (Z.of_nat ((n + length idx) * length tx),
          texels (S (n + length idx)) tx).
Proof.
  induction idx as [|i idx IH]; intros n suffix Hlen.
  - simpl in *. destruct suffix; [|discriminate].
    rewrite app_nil_r, Nat.add_0_r. reflexivity.
  - cbn [for_each]. cbv zeta.
    rewrite memcpy_next_texel by (simpl in Hlen; lia).
    cbn [mbind option_bind].
    replace (Z.of_nat (n * length tx) + Z.of_nat (length tx))
      with (Z.of_nat (S n * length tx)) by lia.
    simpl length.
    replace (n + S (length idx))%nat with (S n + length idx)%nat by lia.
    apply IH. rewrite length_drop, Hlen. simpl. lia.
Qed.

(** The area as the code computes it, by the sum of the two
    log-resolutions. *)
Lemma ptex_area_cases logres :
  logres_valid logres ->
  (logres_u logres + logres_v logres <= 30 /\
   ptex_area_from_logres logres = 2 ^ logres_u logres * 2 ^ logres_v logres /\
   1 <= ptex_area_from_logres logres <= 2 ^ 30) \/
  (logres_u logres + logres_v logres = 31 /\
   ptex_area_from_logres logres = 2 ^ 64 - 2 ^ 31) \/
  (32 <= logres_u logres + logres_v logres /\
   ptex_area_from_logres logres = 0).
Proof.
  intros [Hu%ptex_rlog2_valid_spec Hv%ptex_rlog2_valid_spec].
  destruct (Z.le_gt_cases (logres_u logres + logres_v logres) 30) as [H30 | H30].
  - left. split; [exact H30|].
    rewrite ptex_area_from_logres_small by lia. split; [reflexivity|].
    rewrite <- Z.pow_add_r by lia.
    assert (0 < 2 ^ (logres_u logres + logres_v logres))
      by (apply Z.pow_pos_nonneg; lia).
    assert (2 ^ (logres_u logres + logres_v logres) <= 2 ^ 30)
      by (apply Z.pow_le_mono_r; lia).
    lia.
  - right. unfold ptex_area_from_logres, int_mul.
    rewrite !ptex_res_from_rlog2_valid by lia.
    rewrite <- Z.pow_add_r by lia.
    destruct (Z.eq_dec (logres_u logres + logres_v logres) 31) as [E | E].
    + left. split; [exact E|]. rewrite E. reflexivity.
    + right. split; [lia|].
      replace (logres_u logres + logres_v logres)
        with ((logres_u logres + logres_v logres - 32) + 32) by lia.
      rewrite Z.pow_add_r by lia. unfold wrap_int.
      rewrite Z.add_comm, Z_mod_plus_full. reflexivity.
Qed.

Example default_pixel_uint8 : FTOCHAR <$> default_pixel = [204; 204; 204; 255].
Proof. vm_compute. reflexivity. Qed.

Example default_pixel_float32 :
  Float32.bits <$> default_pixel =
    [1061997773; 1061997773; 1061997773; 1065353216].
Proof. vm_compute. reflexivity. Qed.

(** The first texel written by [bke_loop_ptex_fill] for the default pixel. *)
Lemma first_texel_default info buf :
  texel_info_valid info ->
  ptex_data_from_float buf 0 default_pixel (data_type info)
    (wrap_size_t (num_channels info)) = buf_write buf 0 (default_texel info) /\
  Z.of_nat (length (default_texel info)) = BKE_ptex_bytes_per_texel info /\
  wrap_int (BKE_ptex_bytes_per_texel info) = BKE_ptex_bytes_per_texel info /\
  1 <= BKE_ptex_bytes_per_texel info <= 16.
Proof.
  destruct info as [dt nc]. unfold texel_info_valid. simpl.
  intros [Hdt Hnc].
  assert (nc = 1 \/ nc = 2 \/ nc = 3 \/ nc = 4) as Hcases by lia.
  destruct Hdt as [-> | ->];
    destruct Hcases as [-> | [-> | [-> | ->]]];
    (split; [reflexivity|]); vm_compute; repeat split; congruence.
Qed.

(** What [BKE_loop_ptex_init] leaves behind for a valid descriptor and
    log-resolution. *)
Lemma loop_ptex_init_spec (loop_ptex : MLoopPtex) (info : MPtexTexelInfo)
    (logres : MPtexLogRes) (h : heap) :
  texel_info_valid info -> logres_valid logres ->
  exists lp h',
    BKE_loop_ptex_init loop_ptex info logres h = Some (lp, h') /\
    lp_texel_info lp = info /\ lp_logres lp = logres /\
    lp_image lp = lp_image loop_ptex /\
    (forall p buf,
       lp_rect lp = Some p -> blocks h' !! p = Some buf ->
       blocks h !! p = None /\
       Z.of_nat (length buf) = BKE_ptex_rect_num_bytes info logres /\
       forall t, 0 <= t ->
         (t + 1) * BKE_ptex_bytes_per_texel info <= Z.of_nat (length buf) ->
         texel_at (BKE_ptex_bytes_per_texel info) buf t =
           Some (default_texel info)) /\
    (logres_u logres + logres_v logres <= 30 ->
     BKE_ptex_rect_num_bytes info logres =
       BKE_ptex_bytes_per_texel info * 2 ^ logres_u logres
         * 2 ^ logres_v logres) /\
    ((lp_rect lp = None /\ blocks h' = blocks h) \/
     (exists p buf, lp_rect lp = Some p /\ blocks h !! p = None /\
                    blocks h' = <[p := buf]> (blocks h))).
Proof.
  intros Hinfo Hlog.
  assert (logres_u logres + logres_v logres <= 30 ->
          BKE_ptex_rect_num_bytes info logres =
            BKE_ptex_bytes_per_texel info * 2 ^ logres_u logres
              * 2 ^ logres_v logres) as Hsmall.
  { intros H30. destruct Hlog as [Hu%ptex_rlog2_valid_spec
                                  Hv%ptex_rlog2_valid_spec].
    destruct Hinfo as [_ Hnc]. apply rect_num_bytes_small; lia. }
  unfold BKE_loop_ptex_init, bke_ptex_texels_malloc.
  destruct (MEM_mallocN_spec (BKE_ptex_rect_num_bytes info logres) h)
    as [[-> _] | (p & Hfresh & Hok & ->)].
  { eexists _, _. split; [reflexivity|]. simpl.
    split; [reflexivity|]. split; [reflexivity|]. split; [reflexivity|].
    split; [intros q buf Hq; discriminate Hq|].
    split; [exact Hsmall|]. left. split; reflexivity. }
  destruct (first_texel_default info
              (replicate (Z.to_nat (BKE_ptex_rect_num_bytes info logres))
                 (junk h)) Hinfo) as (Hfirst & Hlen & Hwrap & Hbpt).
  apply andb_true_iff in Hok. destruct Hok as [_ Hlt%Z.ltb_lt].
  unfold bke_loop_ptex_fill. cbn [lp_rect lp_logres lp_texel_info].
  destruct (ptex_area_cases logres Hlog)
    as [(H30 & Harea & Hrange) | [(H31 & Harea) | (H32 & Harea)]].
  - (* the area is computed exactly *)
    assert (2 ^ 30 = 1073741824) as E30 by reflexivity.
    destruct (ptex_area_from_logres logres <? 1) eqn:E1; [lia|].
    cbn [blocks heap_with_blocks]. rewrite lookup_insert_eq.
    cbn [mbind option_bind]. rewrite Hfirst, Hwrap, <- Hlen.
    assert (BKE_ptex_rect_num_bytes info logres =
            Z.of_nat (length (default_texel info))
              * ptex_area_from_logres logres) as Hsize.
    { rewrite (Hsmall H30), Harea, Hlen. ring. }
    rewrite buf_write_head by (rewrite length_replicate; nia).
    cbn [mbind option_bind].
    destruct (INT_MAX <? ptex_area_from_logres logres) eqn:E2;
      [unfold INT_MAX in E2; lia|].
    pose proof (fill_loop_texels (default_texel info)
                  (seqZ 1 (ptex_area_from_logres logres - 1)) 0
                  (drop (length (default_texel info))
                     (replicate
                        (Z.to_nat (BKE_ptex_rect_num_bytes info logres))
                        (junk h)))) as Hloop.
    rewrite length_seqZ in Hloop.
    rewrite texels_S in Hloop. change (texels 0 (default_texel info))
      with (@nil Z) in Hloop. rewrite app_nil_r in Hloop.
    change (Z.of_nat (0 * length (default_texel info))) with 0 in Hloop.
    cbv zeta in Hloop.
    rewrite Hloop by (rewrite length_drop, length_replicate; nia).
    cbn [mbind option_bind].
    eexists _, _. split; [reflexivity|]. cbn [lp_texel_info lp_logres lp_image
      lp_rect blocks heap_with_blocks].
    split; [reflexivity|]. split; [reflexivity|]. split; [reflexivity|].
    split; [|split; [rewrite Hlen; exact Hsmall|]].
    + intros q buf [= <-] Hbuf.
      rewrite insert_insert_eq, lookup_insert_eq in Hbuf.
      injection Hbuf as <-.
      split; [exact Hfresh|]. split; [rewrite length_texels; nia|].
      intros t Ht Hin. rewrite length_texels in Hin.
      apply texel_at_texels. nia.
    + right. eexists p, _. split; [reflexivity|]. split; [exact Hfresh|].
      apply insert_insert_eq.
  - (* the area wraps to a negative [int]: the request cannot be met *)
    exfalso. revert Hlt. unfold BKE_ptex_rect_num_bytes, size_mul, wrap_size_t.
    rewrite Harea.
    rewrite <- (Z.mod_unique
                  (BKE_ptex_bytes_per_texel info * (2 ^ 64 - 2 ^ 31)) (2 ^ 64)
                  (BKE_ptex_bytes_per_texel info - 1)
                  (2 ^ 64 - BKE_ptex_bytes_per_texel info * 2 ^ 31));
      lia.
  - (* the area wraps to zero: an empty buffer *)
    rewrite Harea. cbn [Z.ltb Z.compare].
    eexists _, _. split; [reflexivity|]. cbn [lp_texel_info lp_logres lp_image
      lp_rect blocks heap_with_blocks].
    assert (BKE_ptex_rect_num_bytes info logres = 0) as Hzero.
    { unfold BKE_ptex_rect_num_bytes, size_mul. rewrite Harea, Z.mul_0_r.
      reflexivity. }
    split; [reflexivity|]. split; [reflexivity|]. split; [reflexivity|].
    split; [|split; [exact Hsmall|]].
    + intros q buf [= <-] Hbuf.
      rewrite lookup_insert_eq in Hbuf. injection Hbuf as <-.
      split; [exact Hfresh|].
      split; [rewrite length_replicate, Hzero; reflexivity|].
      intros t Ht Hin. rewrite length_replicate, Hzero in Hin.
      simpl in Hin. nia.
    + right. eexists p, _. split; [reflexivity|]. split; [exact Hfresh|].
      reflexivity.
Qed.

(** C9: after [BKE_loop_ptex_init] with a valid descriptor and a valid
    log-resolution the raster carries that descriptor and resolution, its
    buffer when allocated is a new block of [BKE_ptex_rect_num_bytes] bytes,
    and every texel of the allocated buffer is the default colour
    (0.8, 0.8, 0.8, 1.0) converted to the data type: the float encodings for
    float32, (204, 204, 204, 255) for uint8, cut to the channel count. *)
Theorem loop_ptex_init_default (loop_ptex : MLoopPtex) (info : MPtexTexelInfo)
    (logres : MPtexLogRes) (h : heap) :
  texel_info_valid info -> logres_valid logres ->
  exists lp h',
    BKE_loop_ptex_init loop_ptex info logres h = Some (lp, h') /\
    lp_texel_info lp = info /\ lp_logres lp = logres /\
    lp_image lp = lp_image loop_ptex /\
    (forall p buf,
       lp_rect lp = Some p -> blocks h' !! p = Some buf ->
       blocks h !! p = None /\
       Z.of_nat (length buf) = BKE_ptex_rect_num_bytes info logres /\
       forall t, 0 <= t ->
         (t + 1) * BKE_ptex_bytes_per_texel info <= Z.of_nat (length buf) ->
         texel_at (BKE_ptex_bytes_per_texel info) buf t =
           Some (default_texel info)) /\
    (logres_u logres + logres_v logres <= 30 ->
     BKE_ptex_rect_num_bytes info logres =
       BKE_ptex_bytes_per_texel info * 2 ^ logres_u logres
         * 2 ^ logres_v logres).
Proof.
  intros Hinfo Hlog.
  destruct (loop_ptex_init_spec loop_ptex info logres h Hinfo Hlog)
    as (lp & h' & Hrun & Hi & Hl & Him & Htex & Hsize & _).
  exists lp, h'. repeat split; try assumption; apply (Htex p buf); assumption.
Qed.

Lemma loop_ptex_init_default_witness :
  let info := {| data_type := MPTEX_DATA_TYPE_UINT8; num_channels := 4 |} in
  let logres := {| logres_u := 1; logres_v := 1 |} in
  texel_info_valid info /\ logres_valid logres /\
  exists lp h' buf,
    BKE_loop_ptex_init loop_ptex_calloc info logres heap_empty = Some (lp, h') /\
    lp_rect lp = Some 1%positive /\
    blocks h' !! 1%positive = Some buf /\
    texel_at 4 buf 3 = Some [204; 204; 204; 255].
Proof.
  cbv zeta.
  assert (texel_info_valid
            {| data_type := MPTEX_DATA_TYPE_UINT8; num_channels := 4 |}) as Hi.
  { unfold texel_info_valid; simpl. split; [left; reflexivity | lia]. }
  assert (logres_valid {| logres_u := 1; logres_v := 1 |}) as Hl.
  { split; reflexivity. }
  split; [exact Hi|]. split; [exact Hl|].
  destruct (loop_ptex_init_default loop_ptex_calloc _ _ heap_empty Hi Hl)
    as (lp & h' & Hrun & _ & _ & _ & Htex & _).
  assert (BKE_loop_ptex_init loop_ptex_calloc
            {| data_type := MPTEX_DATA_TYPE_UINT8; num_channels := 4 |}
            {| logres_u := 1; logres_v := 1 |} heap_empty =
          Some ({| lp_texel_info :=
                     {| data_type := MPTEX_DATA_TYPE_UINT8; num_channels := 4 |};
                   lp_logres := {| logres_u := 1; logres_v := 1 |};
                   lp_rect := Some 1%positive; lp_image := None |},
                heap_with_blocks heap_empty
                  {[ 1%positive := texels 4 [204; 204; 204; 255] ]})) as Hval
    by (vm_compute; reflexivity).
  rewrite Hval in Hrun. injection Hrun as <- <-.
  eexists _, _, (texels 4 [204; 204; 204; 255]).
  split; [exact Hval|]. split; [reflexivity|]. split; [reflexivity|].
  destruct (Htex 1%positive (texels 4 [204; 204; 204; 255]) eq_refl eq_refl)
    as (_ & _ & Hall).
  apply (Hall 3); vm_compute; congruence.
Defined.


(** ** Ptex file import *)

Section ImportProperties.
Context {World Owned : Type} `{!BPXLibrary World Owned}.
Variable log2_trunc : Z -> Z.

Lemma quad_logres_valid logres :
  logres_valid logres -> logres_valid (quad_logres logres).
Proof.
  intros [Hu%ptex_rlog2_valid_spec Hv%ptex_rlog2_valid_spec].
  split; apply ptex_rlog2_valid_spec; unfold quad_logres; simpl.
  - destruct (1 <=? logres_u logres) eqn:E; lia.
  - destruct (1 <=? logres_v logres) eqn:E; lia.
Qed.

Lemma transpose_logres_valid logres :
  logres_valid logres -> logres_valid (transpose_logres logres).
Proof. intros [Hu Hv]. split; assumption. Qed.

(** The wrapper of a raster names the raster's own block. *)
Lemma wrap_loop_ptex_data lp d :
  bpx_image_buf_wrap_loop_ptex (Some lp) = Some d ->
  lp_rect lp = Some (bpx_data d).
Proof.
  unfold bpx_image_buf_wrap_loop_ptex.
  destruct (lp_rect lp) as [r|] eqn:Hr; [|discriminate].
  intros Hd%wrap_ptex_rect_data. congruence.
Qed.

(** The allocation loop of [mesh_ptex_import_quad]: every raster it visits
    gets the descriptor and the resolution of its parity, the other rasters
    of the layer stay as they were, and every wrapper made names an
    allocated block. *)
Lemma import_quad_alloc_loop info logres logres_t base idx :
  texel_info_valid info -> logres_valid logres -> logres_valid logres_t ->
  forall layer h dst,
    (forall i, i ∈ idx -> 0 <= base + i < Z.of_nat (length layer)) ->
    (forall d, Some d ∈ dst -> is_Some (blocks h !! bpx_data d)) ->
    exists layer' h' dst',
      for_each idx (import_quad_alloc info logres logres_t base)
        (layer, h, dst) = Some (layer', h', dst') /\
      length layer' = length layer /\
      (forall d, Some d ∈ dst' -> is_Some (blocks h' !! bpx_data d)) /\
      (forall j, 0 <= j -> (forall i, i ∈ idx -> j <> base + i) ->
         array_get layer' j = array_get layer j) /\
      (forall i, i ∈ idx ->
         exists lp,
           array_get layer' (base + i) = Some lp /\
           lp_texel_info lp = info /\
           lp_logres lp = if Z.rem i 2 =? 0 then logres else logres_t).
Proof.
  intros Hinfo Hl Hlt. induction idx as [|i idx IH]; intros layer h dst Hr Hd.
  - exists layer, h, dst. split; [reflexivity|]. split; [reflexivity|].
    split; [exact Hd|]. split; [reflexivity|]. intros i Hi. inversion Hi.
  - assert (0 <= base + i < Z.of_nat (length layer)) as Hi by (apply Hr; left).
    destruct (array_get_is_Some layer (base + i) Hi) as [lp Hlp].
    assert (logres_valid (if Z.rem i 2 =? 0 then logres else logres_t)) as Hv
      by (destruct (Z.rem i 2 =? 0); assumption).
    destruct (loop_ptex_init_spec lp info _ h Hinfo Hv)
      as (lp' & h1 & Hinit & Hi' & Hl' & _ & _ & _ & Hshape).
    set (layer1 := <[Z.to_nat (base + i) := lp']> layer).
    set (dst1 := dst ++ [bpx_image_buf_wrap_loop_ptex (Some lp')]).
    assert (import_quad_alloc info logres logres_t base i (layer, h, dst)
            = Some (layer1, h1, dst1)) as Hstep.
    { unfold import_quad_alloc. rewrite Hlp. cbn [mbind option_bind].
      rewrite Hinit. cbn [mbind option_bind].
      rewrite array_set_Some by exact Hi. reflexivity. }
    assert (length layer1 = length layer) as Hlen1
      by (unfold layer1; apply length_insert).
    destruct (IH layer1 h1 dst1) as (layer' & h' & dst' & Hrun & Hlen & Hd'
                                     & Hframe & Hvals).
    { intros i' Hi'in. rewrite Hlen1. apply Hr. right. exact Hi'in. }
    { intros d. unfold dst1. rewrite elem_of_app, list_elem_of_singleton.
      intros [Hin | Heq].
      - destruct Hshape as [[_ ->] | (p & buf & _ & _ & ->)];
          [apply Hd, Hin|].
        apply lookup_insert_is_Some'. right. apply Hd, Hin.
      - symmetry in Heq. apply wrap_loop_ptex_data in Heq.
        destruct Hshape as [[Hnone _] | (p & buf & Hp & _ & ->)];
          [congruence|].
        rewrite Hp in Heq. injection Heq as ->.
        rewrite lookup_insert_eq. eexists. reflexivity. }
    exists layer', h', dst'. split; [cbn [for_each]; rewrite Hstep; exact Hrun|].
    split; [congruence|]. split; [exact Hd'|]. split.
    + intros j Hj Hne. rewrite Hframe.
      * unfold layer1. rewrite array_get_insert by lia.
        destruct (base + i =? j) eqn:E; [|reflexivity].
        apply Z.eqb_eq in E. exfalso. apply (Hne i); [left | lia].
      * exact Hj.
      * intros i' Hi'in. apply Hne. right. exact Hi'in.
    + intros i0 Hi0. destruct (decide (i0 ∈ idx)) as [Hin | Hnin].
      * apply Hvals, Hin.
      * apply elem_of_cons in Hi0. destruct Hi0 as [-> | Hin]; [|contradiction].
        exists lp'. split; [|split; assumption].
        rewrite Hframe.
        -- unfold layer1. rewrite array_get_insert by lia.
           rewrite Z.eqb_refl. reflexivity.
        -- lia.
        -- intros i' Hi'in Heq. apply Hnin.
           replace i with i' by lia. exact Hi'in.
Qed.

(** Splitting into wrappers of allocated blocks is a defined run. *)
Lemma quad_split_defined dst w all_buf h :
  (forall d, Some d ∈ dst -> is_Some (blocks h !! bpx_data d)) ->
  is_Some (BPX_image_buf_quad_split dst w all_buf h).
Proof.
  intros Hd. unfold BPX_image_buf_quad_split.
  destruct (mapM id dst) as [ds|] eqn:Hds; [|eexists; reflexivity].
  destruct (mapM (fun d => blocks h !! bpx_data d) ds) as [bs|] eqn:Hbs.
  - cbn [mbind option_bind]. destruct (BPX_quad_split_bytes w all_buf _).
    eexists. reflexivity.
  - exfalso. apply mapM_None_1, Exists_exists in Hbs.
    destruct Hbs as (d & Hin & Hnone).
    apply mapM_Some_1 in Hds.
    apply list_elem_of_lookup_1 in Hin. destruct Hin as [k Hk].
    destruct (Forall2_lookup_r _ _ _ _ _ Hds Hk) as (x & Hx & Hxd).
    simpl in Hxd. subst x.
    destruct (Hd d) as [b Hb]; [eapply list_elem_of_lookup_2, Hx|].
    congruence.
Qed.

(** [mesh_ptex_import_quad] on a subimage that decodes. *)
Lemma mesh_ptex_import_quad_spec src layer base info width height h
    all_buf w1 w2 :
  texel_info_valid info ->
  is_power_of_2_i width = true -> 0 <= width ->
  is_power_of_2_i height = true -> 0 <= height ->
  0 <= log2_trunc width <= 30 -> 0 <= log2_trunc height <= 30 ->
  0 <= base -> base + 4 <= Z.of_nat (length layer) ->
  BPX_image_buf_alloc_empty src = (Some all_buf, w1) ->
  BPX_input_read_owned w1 all_buf = (true, w2) ->
  exists layer' h',
    mesh_ptex_import_quad log2_trunc src layer base info width height h =
      Some (true, layer', h', BPX_image_buf_free_owned w2 all_buf) /\
    length layer' = length layer /\
    (forall j, 0 <= j -> j < base \/ base + 4 <= j ->
       array_get layer' j = array_get layer j) /\
    (forall i, 0 <= i < 4 ->
       exists lp,
         array_get layer' (base + i) = Some lp /\
         lp_texel_info lp = info /\
         lp_logres lp =
           if Z.rem i 2 =? 0
           then quad_logres {| logres_u := log2_trunc width;
                               logres_v := log2_trunc height |}
           else transpose_logres
                  (quad_logres {| logres_u := log2_trunc width;
                                  logres_v := log2_trunc height |})).
Proof.
  intros Hinfo Hpw Hw Hph Hh Hlw Hlh Hbase Hlen Halloc Hread.
  set (logres0 := {| logres_u := log2_trunc width;
                     logres_v := log2_trunc height |}).
  assert (logres_valid logres0) as Hv0
    by (split; apply ptex_rlog2_valid_spec; simpl; lia).
  pose proof (quad_logres_valid _ Hv0) as Hv.
  pose proof (transpose_logres_valid _ Hv) as Hvt.
  destruct (import_quad_alloc_loop info (quad_logres logres0)
              (transpose_logres (quad_logres logres0)) base (seqZ 0 4)
              Hinfo Hv Hvt layer h [])
    as (layer' & h1 & dst & Hloop & Hlen' & Hd & Hframe & Hvals).
  { intros i Hi%elem_of_seqZ. lia. }
  { intros d Hin. inversion Hin. }
  destruct (quad_split_defined dst w2 all_buf h1 Hd) as [[r h2] Hsplit].
  exists layer', h2. split.
  - unfold mesh_ptex_import_quad, BKE_ptex_log_res_from_res.
    rewrite Hpw, Hph.
    destruct (0 <=? width) eqn:E1; [|lia]. destruct (0 <=? height) eqn:E2; [|lia].
    cbn [andb]. rewrite Halloc, Hread. fold logres0.
    rewrite Hloop. cbn [mbind option_bind]. rewrite Hsplit. reflexivity.
  - split; [exact Hlen'|]. split.
    + intros j Hj Hout. apply Hframe; [exact Hj|].
      intros i Hi%elem_of_seqZ. lia.
    + intros i Hi. apply Hvals, elem_of_seqZ. lia.
Qed.

(** C6: during the import, a polygon with exactly 4 loops whose subimage
    (found by the seek, of power-of-two size, decoded by the read) is
    imported takes exactly one subimage: the image-index counter advances by
    exactly 1 for the whole polygon, and its four loops get rasters whose
    log-resolution is the subimage's halved along each axis (one less than
    the logarithm, or 0 when that is already 0), with u and v transposed on
    the odd-indexed loops; the other rasters of the layer are left alone, and
    the file is left as that one seek and read leave it. *)
Theorem import_quad_polygon (texel_info : MPtexTexelInfo) (p : MPoly)
    (st : import_state World) (width height : Z) (w1 w2 w3 : World)
    (all_buf : Owned) :
  texel_info_valid texel_info ->
  p_totloop p = 4 ->
  0 <= p_loopstart p ->
  p_loopstart p + 4 <= Z.of_nat (length (im_layer st)) ->
  p_loopstart p + 4 <= 2 ^ 30 ->
  0 <= im_face_id st < INT_MAX ->
  BPX_image_input_seek_subimage (im_world st) (im_face_id st)
    = (Some (width, height), w1) ->
  is_power_of_2_i width = true -> 0 <= width ->
  is_power_of_2_i height = true -> 0 <= height ->
  0 <= log2_trunc width <= 30 -> 0 <= log2_trunc height <= 30 ->
  BPX_image_buf_alloc_empty w1 = (Some all_buf, w2) ->
  BPX_input_read_owned w2 all_buf = (true, w3) ->
  exists st',
    import_poly_loops log2_trunc texel_info p (seqZ 0 (p_totloop p)) st
      = Some (st', false) /\
    im_face_id st' = im_face_id st + 1 /\
    length (im_layer st') = length (im_layer st) /\
    (forall i, 0 <= i < 4 ->
       exists lp,
         array_get (im_layer st') (p_loopstart p + i) = Some lp /\
         lp_texel_info lp = texel_info /\
         lp_logres lp =
           if Z.even i
           then quad_logres {| logres_u := log2_trunc width;
                               logres_v := log2_trunc height |}
           else transpose_logres
                  (quad_logres {| logres_u := log2_trunc width;
                                  logres_v := log2_trunc height |})) /\
    (forall j, 0 <= j -> j < p_loopstart p \/ p_loopstart p + 4 <= j ->
       array_get (im_layer st') j = array_get (im_layer st) j) /\
    im_world st' = BPX_image_buf_free_owned w3 all_buf.
Proof.
  intros Hinfo Htot Hls Hlen Hsmall Hid Hseek Hpw Hw Hph Hh Hlw Hlh Halloc Hread.
  destruct (mesh_ptex_import_quad_spec w1 (im_layer st) (p_loopstart p)
              texel_info width height (im_heap st) all_buf w2 w3)
    as (layer' & h' & Hquad & Hlen' & Hframe & Hvals); try assumption.
  assert (2 ^ 30 = 1073741824) as E30 by reflexivity.
  eexists. split.
  - rewrite Htot. rewrite seqZ_cons by lia. cbn [import_poly_loops].
    rewrite Hseek, Htot. cbn [Z.eqb Pos.eqb].
    replace (int_add (p_loopstart p) 0) with (p_loopstart p)
      by (rewrite int_add_small; lia).
    rewrite Hquad. cbn [mbind option_bind]. reflexivity.
  - cbn [im_face_id im_layer im_world].
    split; [apply int_add_small; unfold INT_MAX in Hid; lia|].
    split; [exact Hlen'|]. split; [|split; [exact Hframe | reflexivity]].
    intros i Hi. destruct (Hvals i Hi) as (lp & Hlp & Hti & Hlr).
    exists lp. split; [exact Hlp|]. split; [exact Hti|]. rewrite Hlr.
    assert (i = 0 \/ i = 1 \/ i = 2 \/ i = 3) as Hcases by lia.
    destruct Hcases as [-> | [-> | [-> | ->]]]; reflexivity.
Qed.

End ImportProperties.

Lemma import_quad_polygon_witness :
  let p := {| p_loopstart := 0; p_totloop := 4 |} in
  let info := {| data_type := MPTEX_DATA_TYPE_UINT8; num_channels := 1 |} in
  let st := {| im_layer := replicate 4 loop_ptex_calloc; im_face_id := 0;
               im_heap := heap_empty; im_world := file_quad_subimage |} in
  BPX_image_input_seek_subimage (im_world st) (im_face_id st)
    = (Some (4, 2), file_quad_subimage) /\
  exists st' lp,
    import_poly_loops Z.log2 info p (seqZ 0 (p_totloop p)) st
      = Some (st', false) /\
    im_face_id st' = 0 + 1 /\
    array_get (im_layer st') (0 + 1) = Some lp /\
    lp_logres lp = {| logres_u := 0; logres_v := 1 |}.
Proof.
  cbv zeta. split; [reflexivity|].
  destruct (import_quad_polygon (World := ptex_file) Z.log2
              {| data_type := MPTEX_DATA_TYPE_UINT8; num_channels := 1 |}
              {| p_loopstart := 0; p_totloop := 4 |}
              {| im_layer := replicate 4 loop_ptex_calloc; im_face_id := 0;
                 im_heap := heap_empty; im_world := file_quad_subimage |}
              4 2 file_quad_subimage file_quad_subimage file_quad_subimage ())
    as (st' & Hrun & Hid & _ & Hvals & _).
  - unfold texel_info_valid; simpl. split; [left; reflexivity | lia].
  - reflexivity.
  - simpl; lia.
  - simpl; lia.
  - simpl; lia.
  - simpl. unfold INT_MAX. lia.
  - reflexivity.
  - reflexivity.
  - lia.
  - reflexivity.
  - lia.
  - vm_compute. split; congruence.
  - vm_compute. split; congruence.
  - reflexivity.
  - reflexivity.
  - destruct (Hvals 1) as (lp & Hlp & _ & Hlr); [lia|].
    exists st', lp. split; [exact Hrun|]. split; [exact Hid|].
    split; [exact Hlp|]. exact Hlr.
Defined.

Section ImportShape.
Context {World Owned : Type} `{!BPXLibrary World Owned}.
Variable log2_trunc : Z -> Z.

(** Once the layer is added, no path of [BKE_ptex_import] removes it or
    reports a failure: the call either returns false before touching the
    mesh, or returns true with the new layer in the mesh. *)
Lemma BKE_ptex_import_shape me input name h r me' h' :
  BKE_ptex_import log2_trunc me input name h = Some (r, me', h') ->
  (r = false /\ me' = me /\ h' = h) \/
  (r = true /\
   length (me_ldata me') = S (length (me_ldata me)) /\
   exists layer, me_ldata me' !! length (me_ldata me) = Some layer /\
                 layer_name layer = name).
Proof.
  unfold BKE_ptex_import.
  destruct input as [w|]; [|intros [= <- <- <-]; left; auto].
  destruct (bke_ptex_texel_info_from_bpx (Some w)) as [info|];
    [|intros [= <- <- <-]; left; auto].
  unfold CustomData_add_layer_named.
  destruct (0 <? me_totloop me); [|intros [= <- <- <-]; left; auto].
  rewrite lookup_app_r, Nat.sub_diag by lia. cbn [lookup list_lookup].
  cbn [mbind option_bind layer_data].
  destruct (import_polys _ _ _ _ _) as [[st stop]|]; [|discriminate].
  intros [= <- <- <-]. right. split; [reflexivity|].
  cbn [me_ldata mesh_with_ldata].
  rewrite length_insert, length_app. simpl. split; [lia|].
  eexists. split.
  - apply list_lookup_insert_eq. rewrite length_app. simpl. lia.
  - reflexivity.
Qed.

End ImportShape.

(** C1 on a triangle and a file that lacks, or cannot decode, the second
    subimage: the loop stops at the failure, yet [BKE_ptex_import] returns
    true and the layer it added stays on the mesh half populated, the first
    raster (and, on the decode failure, the second) allocated and the others
    still zeroed, with their buffers left in the store. *)
Theorem import_failure_keeps_partial_layer :
  let populated p :=
    {| lp_texel_info := {| data_type := MPTEX_DATA_TYPE_UINT8;
                           num_channels := 1 |};
       lp_logres := {| logres_u := 1; logres_v := 1 |};
       lp_rect := Some p; lp_image := None |} in
  fst (BPX_image_input_seek_subimage file_one_subimage 1) = None /\
  (exists me' h',
     BKE_ptex_import Z.log2 mesh_triangle (Some file_one_subimage) []
       heap_empty = Some (true, me', h') /\
     me_ldata me' =
       [ {| layer_name := [];
            layer_data := [populated 1%positive; loop_ptex_calloc;
                           loop_ptex_calloc] |} ] /\
     blocks h' !! 1%positive = Some [1; 1; 1; 1]) /\
  ptex_file_decodes
    (snd (BPX_image_input_seek_subimage file_second_undecodable 1)) = false /\
  (exists me' h',
     BKE_ptex_import Z.log2 mesh_triangle (Some file_second_undecodable) []
       heap_empty = Some (true, me', h') /\
     me_ldata me' =
       [ {| layer_name := [];
            layer_data := [populated 1%positive; populated 2%positive;
                           loop_ptex_calloc] |} ] /\
     blocks h' !! 1%positive = Some [1; 1; 1; 1] /\
     blocks h' !! 2%positive = Some [2; 2; 2; 2]).
Proof.
  cbv zeta. split; [reflexivity|]. split.
  - eexists _, _. split; [vm_compute; reflexivity|].
    split; reflexivity.
  - split; [reflexivity|].
    eexists _, _. split; [vm_compute; reflexivity|].
    repeat split; reflexivity.
Qed.

(** * Further properties of [bke_ptex.c] *)

(** ** Descriptors *)

(** X1: the two conversions between the library's type descriptor and the
    texel data type are inverse to each other wherever either succeeds, and
    each fails exactly on the values outside its enumeration. *)
Theorem type_desc_round_trip (type_desc : BPXTypeDesc)
    (data_type : MPtexDataType) :
  (bpx_type_desc_to_mptex_data_type type_desc = Some data_type <->
   bpx_type_desc_from_mptex_data_type data_type = Some type_desc) /\
  (bpx_type_desc_to_mptex_data_type type_desc = None <->
   exists raw, type_desc = BPX_TYPE_DESC_other raw) /\
  (bpx_type_desc_from_mptex_data_type data_type = None <->
   exists raw, data_type = MPTEX_DATA_TYPE_other raw).
Proof.
  split; [|split].
  - destruct type_desc, data_type; simpl; split; intros H;
      try discriminate; reflexivity.
  - destruct type_desc; simpl; split; intros H; try discriminate;
      try (destruct H; discriminate); eauto.
  - destruct data_type; simpl; split; intros H; try discriminate;
      try (destruct H; discriminate); eauto.
Qed.

Section DescriptorProperties.
Context {World Owned : Type} `{!BPXLibrary World Owned}.
Variable log2_trunc : Z -> Z.

(** X2: a descriptor read from a file by [bke_ptex_texel_info_from_bpx] has a
    recognised data type, the one matching the file's type descriptor, and
    the file's channel count, which lies in [0, 4]; no descriptor comes from
    a NULL input. *)
Theorem texel_info_from_bpx_accepted (input : option World)
    (info : MPtexTexelInfo) :
  bke_ptex_texel_info_from_bpx input = Some info ->
  texel_info_accepted info /\
  exists w type_desc,
    input = Some w /\
    BPX_image_input_type_desc w = Some type_desc /\
    bpx_type_desc_from_mptex_data_type (data_type info) = Some type_desc /\
    BPX_image_input_num_channels w = Some (num_channels info).
Proof.
  unfold bke_ptex_texel_info_from_bpx.
  destruct input as [w|]; [|discriminate]. cbn [mbind option_bind].
  destruct (BPX_image_input_type_desc w) as [td|] eqn:Htd; [|discriminate].
  cbn [mbind option_bind].
  destruct (BPX_image_input_num_channels w) as [nc|] eqn:Hnc; [|discriminate].
  cbn [mbind option_bind].
  destruct (bpx_type_desc_to_mptex_data_type td) as [dt|] eqn:Hdt;
    [|discriminate].
  cbn [mbind option_bind]. unfold BKE_ptex_texel_info_init.
  destruct ((0 <=? nc) && (nc <=? 4)) eqn:Hr; [|discriminate].
  intros [= <-]. split.
  - unfold texel_info_accepted. simpl. split; [|lia].
    destruct td; simpl in Hdt; try discriminate; injection Hdt as <-; auto.
  - exists w, td. simpl. repeat split; try assumption.
    destruct td; simpl in Hdt; try discriminate; injection Hdt as <-;
      reflexivity.
Qed.

Lemma is_power_of_2_i_pow2 k : 0 <= k -> is_power_of_2_i (2 ^ k) = true.
Proof.
  intros Hk. unfold is_power_of_2_i. apply Z.eqb_eq.
  replace (2 ^ k - 1) with (Z.ones k) by (rewrite Z.ones_equiv; lia).
  rewrite Z.land_ones by exact Hk. apply Z_mod_same_full.
Qed.

(** X3: the side lengths of a valid log-resolution are the powers of two
    2^u and 2^v, each between 1 and 2^30, and, where the truncated logarithm
    is exact on powers of two, [BKE_ptex_log_res_from_res] accepts them and
    gives the log-resolution back. *)
Theorem log_res_round_trip (logres : MPtexLogRes) :
  (forall k, 0 <= k <= 30 -> log2_trunc (2 ^ k) = k) ->
  logres_valid logres ->
  let res := bke_ptex_res_from_logres logres in
  res_u res = 2 ^ logres_u logres /\ 1 <= res_u res <= 2 ^ 30 /\
  res_v res = 2 ^ logres_v logres /\ 1 <= res_v res <= 2 ^ 30 /\
  BKE_ptex_log_res_from_res log2_trunc (res_u res) (res_v res) = Some logres.
Proof.
  intros Hlog [Hu%ptex_rlog2_valid_spec Hv%ptex_rlog2_valid_spec].
  cbv zeta. unfold bke_ptex_res_from_logres. cbn [res_u res_v].
  rewrite !ptex_res_from_rlog2_valid by lia.
  assert (forall k, 0 <= k <= 30 -> 1 <= 2 ^ k <= 2 ^ 30) as Hb.
  { intros k Hk. split.
    - pose proof (Z.pow_pos_nonneg 2 k). lia.
    - apply Z.pow_le_mono_r; lia. }
  split; [reflexivity|]. split; [apply Hb, Hu|].
  split; [reflexivity|]. split; [apply Hb, Hv|].
  unfold BKE_ptex_log_res_from_res.
  rewrite !is_power_of_2_i_pow2 by lia.
  pose proof (Hb _ Hu). pose proof (Hb _ Hv).
  destruct (0 <=? 2 ^ logres_u logres) eqn:E1; [|lia].
  destruct (0 <=? 2 ^ logres_v logres) eqn:E2; [|lia].
  cbn [andb]. rewrite !Hlog by lia. destruct logres; reflexivity.
Qed.

End DescriptorProperties.

Lemma type_desc_round_trip_witness :
  bpx_type_desc_from_mptex_data_type MPTEX_DATA_TYPE_FLOAT32 =
    Some BPX_TYPE_DESC_FLOAT.
Proof.
  apply (type_desc_round_trip BPX_TYPE_DESC_FLOAT MPTEX_DATA_TYPE_FLOAT32).
  reflexivity.
Defined.

Lemma texel_info_from_bpx_accepted_witness :
  let info := {| data_type := MPTEX_DATA_TYPE_UINT8; num_channels := 1 |} in
  bke_ptex_texel_info_from_bpx (Some file_one_subimage) = Some info /\
  texel_info_accepted info.
Proof.
  cbv zeta. split; [reflexivity|].
  apply (texel_info_from_bpx_accepted (World := ptex_file)
           (Some file_one_subimage)).
  reflexivity.
Defined.

Lemma log_res_round_trip_witness :
  let logres := {| logres_u := 3; logres_v := 5 |} in
  (forall k, 0 <= k <= 30 -> Z.log2 (2 ^ k) = k) /\
  logres_valid logres /\
  BKE_ptex_log_res_from_res Z.log2 8 32 = Some logres.
Proof.
  cbv zeta.
  assert (forall k, 0 <= k <= 30 -> Z.log2 (2 ^ k) = k) as Hlog
    by (intros k Hk; apply Z.log2_pow2; lia).
  assert (logres_valid {| logres_u := 3; logres_v := 5 |}) as Hv
    by (split; reflexivity).
  split; [exact Hlog|]. split; [exact Hv|].
  apply (log_res_round_trip Z.log2 {| logres_u := 3; logres_v := 5 |} Hlog Hv).
Defined.

(** ** Writing texels *)

Lemma buf_write_Some buf off data buf' :
  buf_write buf off data = Some buf' ->
  0 <= off /\ off + Z.of_nat (length data) <= Z.of_nat (length buf) /\
  buf' = take (Z.to_nat off) buf ++ data ++
         drop (Z.to_nat off + length data) buf.
Proof.
  unfold buf_write. destruct (_ && _) eqn:E; [|discriminate].
  apply andb_true_iff in E. intros [= <-]. repeat split; lia.
Qed.

Lemma buf_write_length buf off data buf' :
  buf_write buf off data = Some buf' -> length buf' = length buf.
Proof.
  intros (H0 & H1 & ->)%buf_write_Some.
  rewrite !length_app, length_take, length_drop. lia.
Qed.

Lemma buf_write_frame buf off data buf' (k : nat) :
  buf_write buf off data = Some buf' ->
  Z.of_nat k < off \/ off + Z.of_nat (length data) <= Z.of_nat k ->
  buf' !! k = buf !! k.
Proof.
  intros (H0 & H1 & ->)%buf_write_Some Hk.
  destruct Hk as [Hk | Hk].
  - rewrite lookup_app_l by (rewrite length_take; lia).
    apply lookup_take_lt. lia.
  - rewrite lookup_app_r by (rewrite length_take; lia).
    rewrite lookup_app_r by (rewrite length_take; lia).
    rewrite lookup_drop, length_take. f_equal. lia.
Qed.

Lemma length_float_bytes (l : list spec_float) :
  length (mjoin (Float32.bytes <$> l)) = (4 * length l)%nat.
Proof.
  induction l as [|x l IH]; [reflexivity|].
  change (length (mjoin (Float32.bytes <$> x :: l)))
    with (S (S (S (S (length (mjoin (Float32.bytes <$> l))))))).
  rewrite IH. simpl length. lia.
Qed.

(** For a recognised data type [ptex_data_from_float] is one write of the
    converted channels. *)
Lemma data_from_float_as_write buf dst src dt count :
  dt = MPTEX_DATA_TYPE_UINT8 \/ dt = MPTEX_DATA_TYPE_FLOAT32 ->
  0 <= count <= Z.of_nat (length src) ->
  ptex_data_from_float buf dst src dt count =
    buf_write buf dst (float_data_bytes dt (Z.to_nat count) src) /\
  Z.of_nat (length (float_data_bytes dt (Z.to_nat count) src)) =
    ptex_data_type_num_bytes dt * count.
Proof.
  intros Hdt Hc. unfold ptex_data_from_float, float_data_bytes.
  destruct Hdt as [-> | ->]; cbn [ptex_data_type_num_bytes].
  - destruct (count <=? Z.of_nat (length src)) eqn:E; [|lia].
    split; [reflexivity|]. rewrite length_fmap, length_take. lia.
  - destruct (count <=? Z.of_nat (length src)) eqn:E; [|lia].
    split; [reflexivity|]. rewrite length_float_bytes, length_take. lia.
Qed.

(** X4: a defined call of [ptex_data_from_float] keeps the length of the
    buffer and changes no byte outside the window of
    [num_bytes(data_type) * count] bytes at [dst]; for a recognised data type
    the window lies inside the buffer and [count] floats were there to read,
    for any other data type the buffer is returned as it was. *)
Theorem data_from_float_frame (buf : list Z) (dst : Z) (src : list spec_float)
    (dt : MPtexDataType) (count : Z) (buf' : list Z) :
  0 <= count ->
  ptex_data_from_float buf dst src dt count = Some buf' ->
  length buf' = length buf /\
  (forall k : nat,
     Z.of_nat k < dst \/
     dst + ptex_data_type_num_bytes dt * count <= Z.of_nat k ->
     buf' !! k = buf !! k) /\
  (dt = MPTEX_DATA_TYPE_UINT8 \/ dt = MPTEX_DATA_TYPE_FLOAT32 ->
     0 <= dst /\
     dst + ptex_data_type_num_bytes dt * count <= Z.of_nat (length buf) /\
     count <= Z.of_nat (length src)) /\
  ((exists raw, dt = MPTEX_DATA_TYPE_other raw) -> buf' = buf).
Proof.
  intros Hc Hrun.
  assert (dt = MPTEX_DATA_TYPE_UINT8 \/ dt = MPTEX_DATA_TYPE_FLOAT32 ->
          count <= Z.of_nat (length src)) as Hsrc.
  { intros [-> | ->]; simpl in Hrun;
      destruct (count <=? Z.of_nat (length src)) eqn:E;
      try discriminate; lia. }
  destruct dt as [| |raw].
  - destruct (data_from_float_as_write buf dst src MPTEX_DATA_TYPE_UINT8 count)
      as [Hw Hl]; [auto | split; [lia | apply Hsrc; auto]|].
    rewrite Hw in Hrun. rewrite <- Hl.
    pose proof (buf_write_Some _ _ _ _ Hrun) as (H0 & H1 & _).
    split; [eapply buf_write_length, Hrun|].
    split; [intros k; eapply buf_write_frame, Hrun|].
    split; [intros _; repeat split; try lia; apply Hsrc; auto|].
    intros [raw' Hraw]. discriminate.
  - destruct (data_from_float_as_write buf dst src MPTEX_DATA_TYPE_FLOAT32 count)
      as [Hw Hl]; [auto | split; [lia | apply Hsrc; auto]|].
    rewrite Hw in Hrun. rewrite <- Hl.
    pose proof (buf_write_Some _ _ _ _ Hrun) as (H0 & H1 & _).
    split; [eapply buf_write_length, Hrun|].
    split; [intros k; eapply buf_write_frame, Hrun|].
    split; [intros _; repeat split; try lia; apply Hsrc; auto|].
    intros [raw' Hraw]. discriminate.
  - simpl in Hrun. injection Hrun as <-.
    split; [reflexivity|]. split; [reflexivity|].
    split; [intros [H | H]; discriminate | reflexivity].
Qed.

Lemma data_from_float_frame_witness :
  ptex_data_from_float [9; 9; 9; 9; 9] 1 default_pixel
    MPTEX_DATA_TYPE_UINT8 3 = Some [9; 204; 204; 204; 9] /\
  [9; 204; 204; 204; 9] !! 4%nat = [9; 9; 9; 9; 9] !! 4%nat.
Proof.
  split; [vm_compute; reflexivity|].
  apply (data_from_float_frame [9; 9; 9; 9; 9] 1 default_pixel
           MPTEX_DATA_TYPE_UINT8 3 [9; 204; 204; 204; 9]).
  - lia.
  - vm_compute. reflexivity.
  - right. simpl. lia.
Defined.

(** X5: [bke_loop_ptex_fill] on a raster whose block has the size of the
    raster (valid descriptor, log-resolutions summing to at most 30) and a
    pixel of at least [num_channels] floats returns true, rewrites only that
    block, keeps its length, and leaves every texel equal to the converted
    pixel, so every texel equals the first one. *)
Theorem loop_ptex_fill_constant (lp : MLoopPtex) (fpixel : list spec_float)
    (h : heap) (p : pointer) (buf : list Z) :
  texel_info_valid (lp_texel_info lp) ->
  logres_valid (lp_logres lp) ->
  logres_u (lp_logres lp) + logres_v (lp_logres lp) <= 30 ->
  lp_rect lp = Some p ->
  blocks h !! p = Some buf ->
  Z.of_nat (length buf) = BKE_loop_ptex_rect_num_bytes lp ->
  num_channels (lp_texel_info lp) <= Z.of_nat (length fpixel) ->
  exists buf',
    bke_loop_ptex_fill lp fpixel h =
      Some (true, heap_with_blocks h (<[p := buf']> (blocks h))) /\
    length buf' = length buf /\
    forall t, 0 <= t < ptex_area_from_logres (lp_logres lp) ->
      texel_at (BKE_ptex_bytes_per_texel (lp_texel_info lp)) buf' t =
        Some (float_data_bytes (data_type (lp_texel_info lp))
                (Z.to_nat (num_channels (lp_texel_info lp))) fpixel) /\
      texel_at (BKE_ptex_bytes_per_texel (lp_texel_info lp)) buf' t =
        texel_at (BKE_ptex_bytes_per_texel (lp_texel_info lp)) buf' 0.
Proof.
  intros Hinfo Hlog H30 Hrect Hbuf Hlenbuf Hpix.
  set (info := lp_texel_info lp) in *.
  set (tx := float_data_bytes (data_type info)
               (Z.to_nat (num_channels info)) fpixel).
  destruct Hinfo as [Hdt Hnc].
  assert (wrap_size_t (num_channels info) = num_channels info) as Hnc'
    by (apply wrap_size_t_id; lia).
  destruct (data_from_float_as_write buf 0 fpixel (data_type info)
              (num_channels info) Hdt) as [Hw Hl]; [lia|].
  fold tx in Hw, Hl.
  assert (BKE_ptex_bytes_per_texel info = Z.of_nat (length tx)) as Hbpt
    by (rewrite Hl; apply bytes_per_texel_accepted; lia).
  assert (1 <= Z.of_nat (length tx) <= 16) as Hbr.
  { rewrite Hl. destruct Hdt as [-> | ->]; simpl; lia. }
  destruct (ptex_area_cases (lp_logres lp) Hlog)
    as [(_ & Harea & Hrange) | [(H31 & _) | (H32 & _)]]; try lia.
  assert (2 ^ 30 = 1073741824) as E30 by reflexivity.
  assert (Z.of_nat (length buf) =
          Z.of_nat (length tx) * ptex_area_from_logres (lp_logres lp)) as Hsize.
  { rewrite Hlenbuf. unfold BKE_loop_ptex_rect_num_bytes. fold info.
    destruct Hlog as [Hu%ptex_rlog2_valid_spec Hv%ptex_rlog2_valid_spec].
    rewrite rect_num_bytes_small by lia. rewrite Harea, Hbpt. ring. }
  pose proof (fill_loop_texels tx
                (seqZ 1 (ptex_area_from_logres (lp_logres lp) - 1)) 0
                (drop (length tx) buf)) as Hloop.
  rewrite length_seqZ in Hloop.
  rewrite texels_S in Hloop. change (texels 0 tx) with (@nil Z) in Hloop.
  rewrite app_nil_r in Hloop.
  change (Z.of_nat (0 * length tx)) with 0 in Hloop. cbv zeta in Hloop.
  exists (texels (S (0 + Z.to_nat (ptex_area_from_logres (lp_logres lp) - 1)))
            tx).
  split; [|split].
  - unfold bke_loop_ptex_fill. fold info. rewrite Hrect.
    destruct (ptex_area_from_logres (lp_logres lp) <? 1) eqn:E1; [lia|].
    rewrite Hbuf. cbn [mbind option_bind]. rewrite Hnc', Hw.
    rewrite buf_write_head by nia. cbn [mbind option_bind].
    destruct (INT_MAX <? ptex_area_from_logres (lp_logres lp)) eqn:E2;
      [unfold INT_MAX in E2; lia|].
    rewrite Hbpt, wrap_int_id by (unfold in_int, INT_MIN, INT_MAX; lia).
    rewrite Hloop by (rewrite length_drop; nia).
    reflexivity.
  - rewrite length_texels. nia.
  - intros t Ht. rewrite Hbpt.
    rewrite !texel_at_texels by lia. split; reflexivity.
Qed.

Lemma loop_ptex_fill_constant_witness :
  blocks heap_one_raster !! 1%positive = Some [10; 20; 30; 40] /\
  exists buf',
    bke_loop_ptex_fill raster_2x2 default_pixel heap_one_raster =
      Some (true, heap_with_blocks heap_one_raster
                    (<[1%positive := buf']> (blocks heap_one_raster))) /\
    texel_at 1 buf' 3 = texel_at 1 buf' 0.
Proof.
  split; [reflexivity|].
  destruct (loop_ptex_fill_constant raster_2x2 default_pixel heap_one_raster
              1%positive [10; 20; 30; 40]) as (buf' & Hrun & _ & Hall).
  - unfold texel_info_valid; simpl. split; [left; reflexivity | lia].
  - split; reflexivity.
  - simpl. lia.
  - reflexivity.
  - reflexivity.
  - reflexivity.
  - simpl. lia.
  - exists buf'. split; [exact Hrun|].
    apply (Hall 3). vm_compute. split; congruence.
Defined.

(** X6: a raster made by [BKE_loop_ptex_init] and released by
    [BKE_loop_ptex_free] leaves the allocated blocks exactly as they were
    before the two calls. *)
Theorem loop_ptex_init_free (loop_ptex : MLoopPtex) (info : MPtexTexelInfo)
    (logres : MPtexLogRes) (h : heap) :
  texel_info_valid info -> logres_valid logres ->
  exists lp h',
    BKE_loop_ptex_init loop_ptex info logres h = Some (lp, h') /\
    blocks (BKE_loop_ptex_free lp h') = blocks h.
Proof.
  intros Hinfo Hlog.
  destruct (loop_ptex_init_spec loop_ptex info logres h Hinfo Hlog)
    as (lp & h' & Hrun & _ & _ & _ & _ & _ & Hshape).
  exists lp, h'. split; [exact Hrun|]. unfold BKE_loop_ptex_free.
  destruct Hshape as [[-> ->] | (p & buf & -> & Hfresh & Hb)];
    [reflexivity|].
  cbn [MEM_freeN blocks heap_with_blocks]. rewrite Hb.
  apply delete_insert_id, Hfresh.
Qed.

Lemma loop_ptex_init_free_witness :
  let info := {| data_type := MPTEX_DATA_TYPE_FLOAT32; num_channels := 2 |} in
  let logres := {| logres_u := 2; logres_v := 1 |} in
  texel_info_valid info /\ logres_valid logres /\
  exists lp h',
    BKE_loop_ptex_init loop_ptex_calloc info logres heap_one_raster
      = Some (lp, h') /\
    blocks (BKE_loop_ptex_free lp h') = blocks heap_one_raster.
Proof.
  cbv zeta.
  assert (texel_info_valid
            {| data_type := MPTEX_DATA_TYPE_FLOAT32; num_channels := 2 |}) as Hi.
  { unfold texel_info_valid; simpl. split; [right; reflexivity | lia]. }
  assert (logres_valid {| logres_u := 2; logres_v := 1 |}) as Hl
    by (split; reflexivity).
  split; [exact Hi|]. split; [exact Hl|].
  apply (loop_ptex_init_free loop_ptex_calloc _ _ heap_one_raster Hi Hl).
Defined.

Section WrapperProperties.
Context {World Owned : Type} `{!BPXLibrary World Owned}.

(** X7: the wrapper made for a raster that [BKE_loop_ptex_init] allocated
    (log-resolutions summing to at most 30) describes exactly the raster's
    block: it names that block, its sides are 2^u and 2^v, its channel count
    and type are the raster's, and width x height x channels x bytes per
    channel is the length of the block. *)
Theorem wrapped_raster_matches_block (loop_ptex : MLoopPtex)
    (info : MPtexTexelInfo) (logres : MPtexLogRes) (h h' : heap)
    (lp : MLoopPtex) (d : BPXImageBuf) :
  texel_info_valid info -> logres_valid logres ->
  logres_u logres + logres_v logres <= 30 ->
  BKE_loop_ptex_init loop_ptex info logres h = Some (lp, h') ->
  bpx_image_buf_wrap_loop_ptex (Some lp) = Some d ->
  lp_rect lp = Some (bpx_data d) /\
  bpx_width d = 2 ^ logres_u logres /\
  bpx_height d = 2 ^ logres_v logres /\
  bpx_channels d = num_channels info /\
  bpx_type_desc_to_mptex_data_type (bpx_type_desc d) = Some (data_type info) /\
  exists buf,
    blocks h' !! bpx_data d = Some buf /\
    Z.of_nat (length buf) =
      bpx_width d * bpx_height d * bpx_channels d
        * ptex_data_type_num_bytes (data_type info).
Proof.
  intros Hinfo Hlog H30 Hrun Hwrap.
  destruct (loop_ptex_init_spec loop_ptex info logres h Hinfo Hlog)
    as (lp0 & h0 & Hrun0 & Hi & Hl & _ & Htex & Hsmall & Hshape).
  rewrite Hrun in Hrun0. injection Hrun0 as <- <-.
  pose proof (wrap_loop_ptex_data lp d Hwrap) as Hrect.
  destruct Hlog as [Hu%ptex_rlog2_valid_spec Hv%ptex_rlog2_valid_spec].
  assert (bpx_width d = 2 ^ logres_u logres /\
          bpx_height d = 2 ^ logres_v logres /\
          bpx_channels d = num_channels info /\
          bpx_type_desc_to_mptex_data_type (bpx_type_desc d)
            = Some (data_type info)) as (Hw & Hh & Hc & Ht).
  { revert Hwrap. unfold bpx_image_buf_wrap_loop_ptex,
      bpx_image_buf_wrap_ptex_rect, BPX_image_buf_wrap.
    rewrite Hrect, Hi, Hl. unfold bke_ptex_res_from_logres. cbn [res_u res_v].
    rewrite !ptex_res_from_rlog2_valid by lia.
    destruct (data_type info) eqn:Hdt; simpl; try discriminate;
      destruct (BPX_image_buf_wrap_ok _ _ _ _); try discriminate;
      intros [= <-]; simpl; auto. }
  split; [exact Hrect|]. split; [exact Hw|]. split; [exact Hh|].
  split; [exact Hc|]. split; [exact Ht|].
  destruct Hshape as [[Hnone _] | (p & buf & Hp & _ & Hb)]; [congruence|].
  assert (p = bpx_data d) as -> by congruence.
  exists buf. assert (blocks h' !! bpx_data d = Some buf) as Hlook
    by (rewrite Hb; apply lookup_insert_eq).
  split; [exact Hlook|].
  destruct (Htex _ _ Hrect Hlook) as (_ & Hlen & _).
  rewrite Hlen, (Hsmall H30), Hw, Hh, Hc.
  destruct Hinfo as [_ Hnc]. rewrite bytes_per_texel_accepted by lia. ring.
Qed.

End WrapperProperties.

Lemma wrapped_raster_matches_block_witness :
  let info := {| data_type := MPTEX_DATA_TYPE_UINT8; num_channels := 4 |} in
  let logres := {| logres_u := 1; logres_v := 1 |} in
  exists lp h' d buf,
    BKE_loop_ptex_init loop_ptex_calloc info logres heap_empty = Some (lp, h') /\
    bpx_image_buf_wrap_loop_ptex (World := ptex_file) (Some lp) = Some d /\
    blocks h' !! bpx_data d = Some buf /\
    Z.of_nat (length buf) = bpx_width d * bpx_height d * bpx_channels d * 1.
Proof.
  cbv zeta.
  destruct (BKE_loop_ptex_init loop_ptex_calloc
              {| data_type := MPTEX_DATA_TYPE_UINT8; num_channels := 4 |}
              {| logres_u := 1; logres_v := 1 |} heap_empty)
    as [[lp h']|] eqn:Hrun; [|vm_compute in Hrun; discriminate Hrun].
  destruct (bpx_image_buf_wrap_loop_ptex (World := ptex_file) (Some lp))
    as [d|] eqn:Hwrap.
  2:{ vm_compute in Hrun. injection Hrun as <- <-.
      vm_compute in Hwrap. discriminate Hwrap. }
  destruct (wrapped_raster_matches_block (World := ptex_file)
              loop_ptex_calloc
              {| data_type := MPTEX_DATA_TYPE_UINT8; num_channels := 4 |}
              {| logres_u := 1; logres_v := 1 |} heap_empty h' lp d)
    as (_ & _ & _ & _ & _ & buf & Hbuf & Hlen).
  - unfold texel_info_valid; simpl. split; [left; reflexivity | lia].
  - split; reflexivity.
  - simpl. lia.
  - exact Hrun.
  - exact Hwrap.
  - exists lp, h', d, buf. repeat split; assumption.
Defined.

(** ** Edge adjacency: what the index records *)

Lemma for_each_invariant {S : Type} (P : S -> Prop) (idx : list Z)
    (body : Z -> S -> option S) :
  (forall i s s', i ∈ idx -> body i s = Some s' -> P s -> P s') ->
  forall s s', for_each idx body s = Some s' -> P s -> P s'.
Proof.
  induction idx as [|i idx IH]; intros Hstep s s' Hrun Hs.
  - injection Hrun as <-. exact Hs.
  - cbn [for_each] in Hrun. destruct (body i s) as [s1|] eqn:Hb; [|discriminate].
    apply (IH (fun j t t' Hj => Hstep j t t' (list_elem_of_further _ _ _ Hj))
             s1 s' Hrun).
    apply (Hstep i s s1); [left | exact Hb | exact Hs].
Qed.

Lemma array_set_length {A} (a : list A) i x a' :
  array_set a i x = Some a' -> length a' = length a.
Proof.
  unfold array_set. destruct (_ && _); [|discriminate].
  intros [= <-]. apply length_insert.
Qed.

Lemma edge_adj_init_length me adj :
  bke_ptex_edge_adj_init me = Some adj ->
  length adj = Z.to_nat (me_totedge me).
Proof.
  unfold bke_ptex_edge_adj_init. intros Hrun.
  apply (for_each_invariant
           (fun a => length a = Z.to_nat (me_totedge me)) _ _) in Hrun.
  - exact Hrun.
  - intros i s s' _ Hstep Hs. unfold edge_adj_visit_poly in Hstep.
    destruct (array_get (me_mpoly me) i) as [p|]; [|discriminate].
    cbn [mbind option_bind] in Hstep.
    apply (for_each_invariant
             (fun a => length a = Z.to_nat (me_totedge me)) _ _) in Hstep.
    + exact Hstep.
    + intros j t t' _ Hloop Ht. unfold edge_adj_visit_loop in Hloop.
      destruct (array_get (me_mloop me) _) as [l|]; [|discriminate].
      cbn [mbind option_bind] in Hloop.
      destruct (array_get t (l_e l)) as [a|]; [|discriminate].
      cbn [mbind option_bind] in Hloop.
      apply array_set_length in Hloop. congruence.
    + exact Hs.
  - apply length_replicate.
Qed.

Lemma loop_refs_nonempty me p poly_index idx e :
  poly_index ∈ loop_refs me p poly_index idx e <->
  loop_refs me p 0 idx e <> [].
Proof.
  pose proof (loop_refs_length me p poly_index 0 idx e) as Hlen.
  pose proof (loop_refs_elem me p poly_index idx e) as Helem.
  destruct (loop_refs me p poly_index idx e) as [|x l];
    destruct (loop_refs me p 0 idx e) as [|y l']; simpl in Hlen;
    try discriminate.
  - split; [intros H; inversion H | intros H; contradiction].
  - split; [discriminate|]. intros _. rewrite (Helem x) by left. left.
Qed.

(** The references to an edge are the polygons with a loop on it. *)
Lemma elem_of_poly_refs me idx e x :
  x ∈ poly_refs me idx e <-> x ∈ idx /\ poly_index_on_edge me e x = true.
Proof.
  induction idx as [|i idx IH].
  - split; [intros H; inversion H | intros [H _]; inversion H].
  - rewrite poly_refs_cons, elem_of_app, IH, elem_of_cons.
    unfold poly_index_on_edge at 2.
    split.
    + intros [H | [H1 H2]]; [|split; [right; exact H1 | exact H2]].
      destruct (array_get (me_mpoly me) i) as [p|] eqn:Hp; [|inversion H].
      pose proof (loop_refs_elem _ _ _ _ _ _ H) as ->.
      split; [left; reflexivity|].
      rewrite Hp. unfold poly_on_edge. apply bool_decide_eq_true.
      apply loop_refs_nonempty in H. exact H.
    + intros [[-> | Hin] Hon]; [|right; split; assumption].
      left. destruct (array_get (me_mpoly me) i) as [p|] eqn:Hp;
        [|discriminate].
      unfold poly_on_edge in Hon. apply bool_decide_eq_true in Hon.
      apply loop_refs_nonempty. exact Hon.
Qed.

Lemma record_of_slot refs j :
  j = 0 \/ j = 1 ->
  polys (record_of refs) j <> BKE_PTEX_NO_ADJ_POLY ->
  polys (record_of refs) j ∈ refs.
Proof.
  intros [-> | ->]; unfold polys, record_of; simpl; intros H.
  - destruct refs as [|a l]; [contradiction | left].
  - destruct refs as [|a [|b l]]; try contradiction. right. left.
Qed.

Lemma built_record me adj e a :
  mesh_valid me = true ->
  bke_ptex_edge_adj_init me = Some adj ->
  array_get adj e = Some a ->
  0 <= e < me_totedge me /\ a = record_of (edge_refs me e).
Proof.
  intros Hv Hinit Ha.
  destruct (edge_adj_init_records me Hv) as (adj0 & Hinit0 & Hget & _).
  rewrite Hinit in Hinit0. injection Hinit0 as <-.
  pose proof (array_get_Some _ _ _ Ha) as He.
  rewrite (edge_adj_init_length me adj Hinit) in He.
  assert (0 <= e < me_totedge me) as He' by lia.
  split; [exact He'|]. rewrite (Hget e He') in Ha. congruence.
Qed.

(** X8: the adjacency index built for a valid mesh has one record per edge;
    every filled slot holds the index of a polygon of the mesh that has a
    loop on that edge, and while slot 1 is empty no polygon with a loop on
    the edge is left out: it is the polygon of slot 0. *)
Theorem edge_adj_init_sound (me : Mesh) :
  mesh_valid me = true ->
  exists adj,
    bke_ptex_edge_adj_init me = Some adj /\
    length adj = Z.to_nat (me_totedge me) /\
    forall e a,
      array_get adj e = Some a ->
      (forall j, j = 0 \/ j = 1 ->
         polys a j <> BKE_PTEX_NO_ADJ_POLY ->
         0 <= polys a j < me_totpoly me /\
         poly_index_on_edge me e (polys a j) = true) /\
      (polys a 1 = BKE_PTEX_NO_ADJ_POLY ->
       forall q, 0 <= q < me_totpoly me ->
         poly_index_on_edge me e q = true -> polys a 0 = q).
Proof.
  intros Hv. destruct (edge_adj_init_records me Hv) as (adj & Hinit & _).
  exists adj. split; [exact Hinit|].
  split; [apply edge_adj_init_length, Hinit|].
  intros e a Ha.
  destruct (built_record me adj e a Hv Hinit Ha) as [He ->]. split.
  - intros j Hj Hne. pose proof (record_of_slot _ j Hj Hne) as Hin.
    apply elem_of_poly_refs in Hin. destruct Hin as [Hin%elem_of_seqZ Hon].
    split; [lia | exact Hon].
  - intros H1 q Hq Hon.
    assert (q ∈ edge_refs me e) as Hin.
    { apply elem_of_poly_refs. split; [apply elem_of_seqZ; lia | exact Hon]. }
    assert (forall x, x ∈ edge_refs me e -> x <> BKE_PTEX_NO_ADJ_POLY) as Hnn.
    { intros x [Hx%elem_of_seqZ _]%elem_of_poly_refs.
      unfold BKE_PTEX_NO_ADJ_POLY. lia. }
    unfold polys, record_of in *. simpl in *.
    destruct (edge_refs me e) as [|x [|y l]].
    + inversion Hin.
    + apply list_elem_of_singleton in Hin. simpl. congruence.
    + simpl in H1. exfalso. apply (Hnn y); [right; left | exact H1].
Qed.

Lemma edge_adj_init_sound_witness :
  mesh_valid mesh_two_triangles = true /\
  exists adj a,
    bke_ptex_edge_adj_init mesh_two_triangles = Some adj /\
    array_get adj 1 = Some a /\
    poly_index_on_edge mesh_two_triangles 1 (polys a 1) = true.
Proof.
  split; [reflexivity|].
  destruct (edge_adj_init_sound mesh_two_triangles eq_refl)
    as (adj & Hinit & _ & Hall).
  assert (bke_ptex_edge_adj_init mesh_two_triangles =
    Some [ {| polys_0 := 0; polys_1 := -1 |}; {| polys_0 := 0; polys_1 := 1 |};
           {| polys_0 := 0; polys_1 := -1 |}; {| polys_0 := 1; polys_1 := -1 |};
           {| polys_0 := 1; polys_1 := -1 |} ]) as Hval by reflexivity.
  rewrite Hval in Hinit. injection Hinit as <-.
  eexists _, {| polys_0 := 0; polys_1 := 1 |}.
  split; [exact Hval|]. split; [reflexivity|].
  apply (Hall 1 {| polys_0 := 0; polys_1 := 1 |} eq_refl); [right; reflexivity|].
  discriminate.
Defined.

(** X9: in the adjacency index built for a valid mesh, an edge with a single
    loop on it gives its polygon no neighbour (-1), and an edge with exactly
    two loops, of two different polygons, gives each of the two polygons the
    other one. *)
Theorem edge_adj_neighbours (me : Mesh) (adj : list BKEPtexEdgeAdj) (e : Z)
    (a : BKEPtexEdgeAdj) :
  mesh_valid me = true ->
  bke_ptex_edge_adj_init me = Some adj ->
  array_get adj e = Some a ->
  (forall p, edge_refs me e = [p] ->
     bke_ptex_edge_adj_other_poly (Some a) p = BKE_PTEX_NO_ADJ_POLY) /\
  (forall p q, edge_refs me e = [p; q] -> p <> q ->
     bke_ptex_edge_adj_other_poly (Some a) p = q /\
     bke_ptex_edge_adj_other_poly (Some a) q = p).
Proof.
  intros Hv Hinit Ha.
  destruct (built_record me adj e a Hv Hinit Ha) as [He ->]. split.
  - intros p ->. rewrite other_poly_unfold. unfold record_of. simpl.
    rewrite Z.eqb_refl. reflexivity.
  - intros p q -> Hne. rewrite !other_poly_unfold. unfold record_of. simpl.
    rewrite !Z.eqb_refl.
    destruct (p =? q) eqn:E; [apply Z.eqb_eq in E; contradiction|].
    split; reflexivity.
Qed.

Lemma edge_adj_neighbours_witness :
  edge_refs mesh_two_triangles 1 = [0; 1] /\
  bke_ptex_edge_adj_other_poly (Some {| polys_0 := 0; polys_1 := 1 |}) 0 = 1 /\
  bke_ptex_edge_adj_other_poly (Some {| polys_0 := 0; polys_1 := 1 |}) 1 = 0.
Proof.
  split; [reflexivity|].
  destruct (edge_adj_neighbours mesh_two_triangles
              [ {| polys_0 := 0; polys_1 := -1 |};
                {| polys_0 := 0; polys_1 := 1 |};
                {| polys_0 := 0; polys_1 := -1 |};
                {| polys_0 := 1; polys_1 := -1 |};
                {| polys_0 := 1; polys_1 := -1 |} ] 1
              {| polys_0 := 0; polys_1 := 1 |}) as [_ Htwo];
    try reflexivity.
  apply (Htwo 0 1); [reflexivity | discriminate].
Defined.

(** ** Adjacent sides: pairing and range *)

(** X10: an edge with more than two loops on it links only the first two
    polygons: for any other polygon the TOP side of its loop on that edge
    resolves to the loop itself, with the same side. *)
Theorem ptex_adj_edge_third_polygon (me : Mesh) (adj : list BKEPtexEdgeAdj)
    (poly_index : Z) (p1 : MPoly) (loop_offset : Z) (l1 : MLoop)
    (p q : Z) (rest : list Z) :
  mesh_valid me = true ->
  bke_ptex_edge_adj_init me = Some adj ->
  array_get (me_mpoly me) poly_index = Some p1 ->
  0 <= loop_offset < p_totloop p1 ->
  array_get (me_mloop me) (p_loopstart p1 + loop_offset) = Some l1 ->
  edge_refs me (l_e l1) = p :: q :: rest ->
  poly_index <> p -> poly_index <> q ->
  ptex_adj_edge adj me poly_index loop_offset BPX_SIDE_TOP =
    Some (self_neighbour p1 loop_offset BPX_SIDE_TOP).
Proof.
  intros Hv Hinit Hp Hoff Hl1 Hrefs Hnp Hnq.
  pose proof (array_get_elem_of _ _ _ Hp) as Hin.
  destruct (edge_adj_init_records me Hv) as (adj0 & Hinit0 & Hget & _).
  rewrite Hinit in Hinit0. injection Hinit0 as <-.
  destruct (mesh_valid_loop me p1 loop_offset Hv Hin Hoff)
    as (_ & _ & l & Hl & He).
  rewrite Hl1 in Hl. injection Hl as <-.
  pose proof (Hget _ He) as Ha.
  destruct (ptex_adj_edge_cross adj me poly_index p1 loop_offset BPX_SIDE_TOP
              l1 _ Hv Hp Hoff (or_introl eq_refl) Hl1 Ha) as [Hnone _].
  apply Hnone. apply other_poly_absent; rewrite Hrefs; unfold record_of; simpl;
    congruence.
Qed.

Lemma ptex_adj_edge_third_polygon_witness :
  edge_refs mesh_three_triangles 0 = [0; 1; 2] /\
  ptex_adj_edge
    [ {| polys_0 := 0; polys_1 := 1 |}; {| polys_0 := 0; polys_1 := -1 |};
      {| polys_0 := 0; polys_1 := -1 |}; {| polys_0 := 1; polys_1 := -1 |};
      {| polys_0 := 1; polys_1 := -1 |}; {| polys_0 := 2; polys_1 := -1 |};
      {| polys_0 := 2; polys_1 := -1 |} ]
    mesh_three_triangles 2 0 BPX_SIDE_TOP =
    Some (6, {| side := BPX_SIDE_TOP; reverse := true |}).
Proof.
  split; [reflexivity|].
  apply (ptex_adj_edge_third_polygon mesh_three_triangles _ 2
           {| p_loopstart := 6; p_totloop := 3 |} 0 {| l_v := 0; l_e := 0 |}
           0 1 [2]); try reflexivity; try discriminate.
  simpl. lia.
Defined.

Lemma prev_then_next n off :
  0 <= off < n -> ((n + off - 1) mod n + 1) mod n = off.
Proof.
  intros H. destruct (Z.eq_dec off 0) as [-> | Hne].
  - replace (n + 0 - 1) with (n - 1) by lia.
    rewrite (Z.mod_small (n - 1)) by lia.
    replace (n - 1 + 1) with (1 * n) by lia. apply Z.mod_mul. lia.
  - replace (n + off - 1) with (off - 1 + 1 * n) by lia.
    rewrite Z.mod_add by lia. rewrite (Z.mod_small (off - 1)) by lia.
    replace (off - 1 + 1) with off by lia. apply Z.mod_small. lia.
Qed.

Lemma next_then_prev n off :
  0 <= off < n -> (n + (off + 1) mod n - 1) mod n = off.
Proof.
  intros H. destruct (Z.eq_dec (off + 1) n) as [E | Hne].
  - rewrite E, Z.mod_same by lia.
    replace (n + 0 - 1) with (n - 1) by lia. rewrite Z.mod_small; lia.
  - rewrite (Z.mod_small (off + 1)) by lia.
    replace (n + (off + 1) - 1) with (off + 1 * n) by lia.
    rewrite Z.mod_add by lia. apply Z.mod_small. lia.
Qed.

(** X11: inside one polygon of a valid mesh the BOTTOM side of a loop is
    paired with the LEFT side of the previous loop and the LEFT side with the
    BOTTOM side of the next loop, and the pairing is mutual: asking again
    from the loop and side that were returned gives the starting loop and
    side back, whatever the adjacency index holds. *)
Theorem ptex_adj_edge_in_face_round_trip (me : Mesh)
    (adj adj' : list BKEPtexEdgeAdj) (poly_index : Z) (p : MPoly)
    (loop_offset : Z) :
  mesh_valid me = true ->
  array_get (me_mpoly me) poly_index = Some p ->
  0 <= loop_offset < p_totloop p ->
  (exists off',
     0 <= off' < p_totloop p /\
     ptex_adj_edge adj me poly_index loop_offset BPX_SIDE_BOTTOM =
       Some (p_loopstart p + off',
             {| side := BPX_SIDE_LEFT; reverse := true |}) /\
     ptex_adj_edge adj' me poly_index off' BPX_SIDE_LEFT =
       Some (p_loopstart p + loop_offset,
             {| side := BPX_SIDE_BOTTOM; reverse := true |})) /\
  (exists off',
     0 <= off' < p_totloop p /\
     ptex_adj_edge adj me poly_index loop_offset BPX_SIDE_LEFT =
       Some (p_loopstart p + off',
             {| side := BPX_SIDE_BOTTOM; reverse := true |}) /\
     ptex_adj_edge adj' me poly_index off' BPX_SIDE_BOTTOM =
       Some (p_loopstart p + loop_offset,
             {| side := BPX_SIDE_LEFT; reverse := true |})).
Proof.
  intros Hv Hp Hoff. split.
  - exists ((p_totloop p + loop_offset - 1) mod p_totloop p).
    assert (0 <= (p_totloop p + loop_offset - 1) mod p_totloop p < p_totloop p)
      as Hr by (apply Z.mod_pos_bound; lia).
    split; [exact Hr|]. split.
    + apply ptex_adj_edge_bottom; assumption.
    + rewrite (ptex_adj_edge_left adj' me poly_index p _ Hv Hp Hr).
      rewrite prev_then_next by exact Hoff. reflexivity.
  - exists ((loop_offset + 1) mod p_totloop p).
    assert (0 <= (loop_offset + 1) mod p_totloop p < p_totloop p)
      as Hr by (apply Z.mod_pos_bound; lia).
    split; [exact Hr|]. split.
    + apply ptex_adj_edge_left; assumption.
    + rewrite (ptex_adj_edge_bottom adj' me poly_index p _ Hv Hp Hr).
      rewrite next_then_prev by exact Hoff. reflexivity.
Qed.

Lemma ptex_adj_edge_in_face_round_trip_witness :
  ptex_adj_edge [] mesh_quad 0 0 BPX_SIDE_BOTTOM =
    Some (3, {| side := BPX_SIDE_LEFT; reverse := true |}) /\
  ptex_adj_edge [] mesh_quad 0 3 BPX_SIDE_LEFT =
    Some (0, {| side := BPX_SIDE_BOTTOM; reverse := true |}).
Proof.
  destruct (ptex_adj_edge_in_face_round_trip mesh_quad [] [] 0
              {| p_loopstart := 0; p_totloop := 4 |} 0)
    as [(off' & Hr & Hfwd & Hback) _]; [reflexivity | reflexivity | simpl; lia |].
  assert (off' = 3) as ->.
  { assert (ptex_adj_edge [] mesh_quad 0 0 BPX_SIDE_BOTTOM =
            Some (3, {| side := BPX_SIDE_LEFT; reverse := true |})) as E
      by reflexivity.
    rewrite E in Hfwd. simpl in Hfwd. injection Hfwd as Hfwd. lia. }
  split; [exact Hfwd | exact Hback].
Defined.

Lemma loop_refs_none me p poly_index idx e :
  (forall i, i ∈ idx ->
     exists l2, array_get (me_mloop me) (p_loopstart p + i) = Some l2 /\
                l_e l2 <> e) ->
  loop_refs me p poly_index idx e = [].
Proof.
  induction idx as [|i idx IH]; intros Hall; [reflexivity|].
  rewrite (loop_refs_cons me p poly_index i idx).
  rewrite IH by (intros j Hj; apply Hall; right; exact Hj).
  rewrite loop_refs_singleton.
  destruct (Hall i) as (l2 & -> & Hne); [left|].
  destruct (l_e l2 =? e) eqn:E; [apply Z.eqb_eq in E; contradiction|].
  reflexivity.
Qed.

(** A neighbour found in a record of the built index has a loop on the
    edge of the record. *)
Lemma built_neighbour_on_edge me adj e a poly_index p2 :
  mesh_valid me = true ->
  bke_ptex_edge_adj_init me = Some adj ->
  array_get adj e = Some a ->
  bke_ptex_edge_adj_other_poly (Some a) poly_index <> BKE_PTEX_NO_ADJ_POLY ->
  array_get (me_mpoly me) (bke_ptex_edge_adj_other_poly (Some a) poly_index)
    = Some p2 ->
  no_loop_on_edge me p2 e -> False.
Proof.
  intros Hv Hinit Ha Hq Hp2 Hno.
  destruct (built_record me adj e a Hv Hinit Ha) as [He ->].
  assert (bke_ptex_edge_adj_other_poly
            (Some (record_of (edge_refs me e))) poly_index ∈ edge_refs me e)
    as Hin.
  { revert Hq. rewrite other_poly_unfold.
    destruct (_ =? poly_index).
    - apply (record_of_slot _ 1). right; reflexivity.
    - destruct (_ =? poly_index); [|congruence].
      apply (record_of_slot _ 0). left; reflexivity. }
  apply elem_of_poly_refs in Hin. destruct Hin as [_ Hon].
  unfold poly_index_on_edge in Hon. rewrite Hp2 in Hon.
  unfold poly_on_edge in Hon. apply bool_decide_eq_true in Hon.
  apply Hon. apply loop_refs_none.
  intros i Hi%elem_of_seqZ. apply Hno. lia.
Qed.

(** X12: across a mesh edge the pairing is mutual too. On the adjacency
    index built for a valid mesh, when the TOP side of loop [loop_offset] of
    polygon [poly_index1] lies on an edge whose record gives a neighbour,
    and [loop_offset] is the first loop of its polygon on that edge, the
    query answers the RIGHT side of a loop of the neighbour, and the
    RIGHT-side query from that loop of the neighbour answers the TOP side of
    the starting loop. *)
Theorem ptex_adj_edge_cross_round_trip (me : Mesh) (adj : list BKEPtexEdgeAdj)
    (poly_index1 : Z) (p1 : MPoly) (loop_offset : Z) (l1 : MLoop)
    (a : BKEPtexEdgeAdj) (p2 : MPoly) :
  mesh_valid me = true ->
  bke_ptex_edge_adj_init me = Some adj ->
  array_get (me_mpoly me) poly_index1 = Some p1 ->
  first_loop_on_edge me p1 (l_e l1) loop_offset ->
  array_get (me_mloop me) (p_loopstart p1 + loop_offset) = Some l1 ->
  array_get adj (l_e l1) = Some a ->
  bke_ptex_edge_adj_other_poly (Some a) poly_index1 <> BKE_PTEX_NO_ADJ_POLY ->
  array_get (me_mpoly me) (bke_ptex_edge_adj_other_poly (Some a) poly_index1)
    = Some p2 ->
  exists off2,
    0 <= off2 < p_totloop p2 /\
    ptex_adj_edge adj me poly_index1 loop_offset BPX_SIDE_TOP =
      Some (p_loopstart p2 + off2,
            {| side := BPX_SIDE_RIGHT; reverse := true |}) /\
    ptex_adj_edge adj me (bke_ptex_edge_adj_other_poly (Some a) poly_index1)
      off2 BPX_SIDE_RIGHT =
      Some (p_loopstart p1 + loop_offset,
            {| side := BPX_SIDE_TOP; reverse := true |}).
Proof.
  intros Hv Hinit Hp1 Hfirst1 Hl1 Ha Hq Hp2.
  pose proof Hfirst1 as (Hoff & _ & _).
  pose proof (built_neighbour_on_edge me adj (l_e l1) a poly_index1 p2
                Hv Hinit Ha Hq Hp2) as Hon2.
  set (poly_index2 := bke_ptex_edge_adj_other_poly (Some a) poly_index1) in *.
  destruct (ptex_adj_edge_cross adj me poly_index1 p1 loop_offset BPX_SIDE_TOP
              l1 a Hv Hp1 Hoff (or_introl eq_refl) Hl1 Ha) as [_ Hsome].
  destruct (Hsome p2 Hq Hp2) as [[Hno _] | (i & Hfirst2 & Hacross)];
    [destruct (Hon2 Hno)|].
  destruct Hfirst2 as (Hi & (l2 & Hl2 & He2) & Hbefore2).
  exists ((i + 1) mod p_totloop p2).
  assert (0 <= (i + 1) mod p_totloop p2 < p_totloop p2) as Hr
    by (apply Z.mod_pos_bound; lia).
  split; [exact Hr|]. split; [exact Hacross|].
  assert (side_edge_offset p2 ((i + 1) mod p_totloop p2) BPX_SIDE_RIGHT = i)
    as Hso by (simpl; apply next_then_prev; exact Hi).
  rewrite <- Hso in Hl2.
  rewrite <- He2 in Ha.
  destruct (ptex_adj_edge_cross adj me poly_index2 p2
              ((i + 1) mod p_totloop p2) BPX_SIDE_RIGHT l2 a Hv Hp2 Hr
              (or_intror eq_refl) Hl2 Ha) as [_ Hsome2].
  assert (bke_ptex_edge_adj_other_poly (Some a) poly_index2 = poly_index1)
    as Hback by (apply (other_poly_involutive_any a poly_index1);
                 [reflexivity | exact Hq]).
  rewrite Hback in Hsome2.
  assert (poly_index1 <> BKE_PTEX_NO_ADJ_POLY) as Hq1.
  { pose proof (array_get_Some _ _ _ Hp1). unfold BKE_PTEX_NO_ADJ_POLY. lia. }
  destruct (Hsome2 p1 Hq1 Hp1) as [[Hno _] | (k & Hfirstk & Hres)].
  - exfalso. rewrite He2 in Hno.
    exact (first_loop_not_none me p1 (l_e l1) loop_offset Hfirst1 Hno).
  - rewrite He2 in Hfirstk.
    rewrite (first_loop_on_edge_unique me p1 (l_e l1) k loop_offset
               Hfirstk Hfirst1) in Hres.
    exact Hres.
Qed.

Lemma ptex_adj_edge_cross_round_trip_witness :
  exists adj,
    bke_ptex_edge_adj_init mesh_two_triangles = Some adj /\
    ptex_adj_edge adj mesh_two_triangles 0 1 BPX_SIDE_TOP =
      Some (4, {| side := BPX_SIDE_RIGHT; reverse := true |}) /\
    ptex_adj_edge adj mesh_two_triangles 1 1 BPX_SIDE_RIGHT =
      Some (1, {| side := BPX_SIDE_TOP; reverse := true |}).
Proof.
  eexists. split; [reflexivity|].
  destruct (ptex_adj_edge_cross_round_trip mesh_two_triangles
              [ {| polys_0 := 0; polys_1 := -1 |};
                {| polys_0 := 0; polys_1 := 1 |};
                {| polys_0 := 0; polys_1 := -1 |};
                {| polys_0 := 1; polys_1 := -1 |};
                {| polys_0 := 1; polys_1 := -1 |} ]
              0 {| p_loopstart := 0; p_totloop := 3 |} 1
              {| l_v := 1; l_e := 1 |} {| polys_0 := 0; polys_1 := 1 |}
              {| p_loopstart := 3; p_totloop := 3 |})
    as (off2 & Hr & Hfwd & Hback);
    try reflexivity; try discriminate.
  - split; [simpl; lia|]. split.
    + exists {| l_v := 1; l_e := 1 |}. split; reflexivity.
    + intros i' Hi'. assert (i' = 0) as -> by lia.
      exists {| l_v := 0; l_e := 0 |}. split; [reflexivity | discriminate].
  - assert (off2 = 1) as ->.
    { assert (ptex_adj_edge
                [ {| polys_0 := 0; polys_1 := -1 |};
                  {| polys_0 := 0; polys_1 := 1 |};
                  {| polys_0 := 0; polys_1 := -1 |};
                  {| polys_0 := 1; polys_1 := -1 |};
                  {| polys_0 := 1; polys_1 := -1 |} ]
                mesh_two_triangles 0 1 BPX_SIDE_TOP =
              Some (4, {| side := BPX_SIDE_RIGHT; reverse := true |})) as E
        by reflexivity.
      rewrite E in Hfwd. simpl in Hfwd. injection Hfwd as Hfwd. lia. }
    split; [exact Hfwd | exact Hback].
Defined.

Lemma for_each_defined {S : Type} (P : S -> Prop) (idx : list Z)
    (body : Z -> S -> option S) :
  (forall i s, i ∈ idx -> P s -> exists s', body i s = Some s' /\ P s') ->
  forall s, P s -> exists s', for_each idx body s = Some s' /\ P s'.
Proof.
  induction idx as [|i idx IH]; intros Hstep s Hs.
  - exists s. split; [reflexivity | exact Hs].
  - destruct (Hstep i s) as (s1 & Hb & Hs1); [left | exact Hs |].
    cbn [for_each]. rewrite Hb.
    apply IH; [|exact Hs1].
    intros j t Hj. apply Hstep. right. exact Hj.
Qed.

(** Every side of every loop of a valid mesh resolves to a loop of the
    mesh. *)
Lemma ptex_adj_edge_in_range me adj poly_index1 p1 loop_offset loop_side :
  mesh_valid me = true ->
  bke_ptex_edge_adj_init me = Some adj ->
  array_get (me_mpoly me) poly_index1 = Some p1 ->
  0 <= loop_offset < p_totloop p1 ->
  exists adj_loop adj_edge,
    ptex_adj_edge adj me poly_index1 loop_offset loop_side =
      Some (adj_loop, adj_edge) /\
    0 <= adj_loop < me_totloop me.
Proof.
  intros Hv Hinit Hp Hoff. pose proof (array_get_elem_of _ _ _ Hp) as Hin.
  destruct (edge_adj_init_records me Hv) as (adj0 & Hinit0 & Hrec).
  rewrite Hinit in Hinit0. injection Hinit0 as <-.
  destruct (mesh_valid_poly me p1 Hv Hin) as (Hls & Htl & Hend & _).
  assert (forall r, 0 <= r < p_totloop p1 ->
                    0 <= p_loopstart p1 + r < me_totloop me) as Hrange
    by (intros; lia).
  assert (loop_side = BPX_SIDE_BOTTOM \/ loop_side = BPX_SIDE_LEFT \/
          (loop_side = BPX_SIDE_TOP \/ loop_side = BPX_SIDE_RIGHT)) as Hcase
    by (destruct loop_side; auto).
  destruct Hcase as [-> | [-> | Hside]].
  - eexists _, _. split; [apply (ptex_adj_edge_bottom adj me poly_index1 p1);
                          assumption|].
    apply Hrange, Z.mod_pos_bound; lia.
  - eexists _, _. split; [apply (ptex_adj_edge_left adj me poly_index1 p1);
                          assumption|].
    apply Hrange, Z.mod_pos_bound; lia.
  - assert (0 <= side_edge_offset p1 loop_offset loop_side < p_totloop p1)
      as Hso.
    { destruct Hside as [-> | ->]; simpl; [lia|].
      apply Z.mod_pos_bound; lia. }
    destruct (mesh_valid_loop me p1 _ Hv Hin Hso) as (_ & _ & l1 & Hl1 & He).
    destruct Hrec as [Hget Hb].
    pose proof (Hget _ He) as Ha.
    destruct (ptex_adj_edge_cross adj me poly_index1 p1 loop_offset
                loop_side l1 _ Hv Hp Hoff Hside Hl1 Ha) as [Hnone Hsome].
    set (a := record_of (edge_refs me (l_e l1))) in *.
    destruct (Z.eq_dec (bke_ptex_edge_adj_other_poly (Some a) poly_index1)
                BKE_PTEX_NO_ADJ_POLY) as [Hq | Hq].
    + eexists _, _. split; [apply Hnone, Hq|]. apply Hrange, Hoff.
    + pose proof (built_other_poly_valid me adj (l_e l1) a poly_index1
                    (conj Hget Hb) He Ha Hq) as Hqv.
      destruct (mesh_valid_spec me Hv) as (Hnp & _).
      destruct (array_get_is_Some (me_mpoly me)
                  (bke_ptex_edge_adj_other_poly (Some a) poly_index1))
        as [p2 Hp2]; [lia|].
      pose proof (array_get_elem_of _ _ _ Hp2) as Hin2.
      destruct (mesh_valid_poly me p2 Hv Hin2) as (Hls2 & Htl2 & Hend2 & _).
      destruct (Hsome p2 Hq Hp2) as [[Hno Hself] | (i & Hfirst & Hacross)].
      * eexists _, _. split; [exact Hself|]. apply Hrange, Hoff.
      * exists (fst (neighbour_across p2 loop_side i)),
               (snd (neighbour_across p2 loop_side i)).
        split; [rewrite Hacross; destruct (neighbour_across _ _ _);
                reflexivity|].
        destruct Hfirst as (Hi & _).
        assert (0 <= (i + 1) mod p_totloop p2 < p_totloop p2)
          by (apply Z.mod_pos_bound; lia).
        destruct Hside as [-> | ->]; simpl; lia.
Qed.

Section FilterProperties.
Context {Image : Type}.
Variable BPX_rect_borders_update :
  Image -> BPXRect -> list BPXRect -> list BPXEdge -> bool * Image.
Variable side_of_int : Z -> BPXSide.

(** X13: on a valid mesh, with one region per loop of the mesh,
    [ptex_filter_borders_update] never indexes outside the polygon, loop,
    adjacency or region arrays and never divides by zero: the adjacent loop
    stored by [ptex_adj_edge] is always a region index, whatever side each
    value of the counter [k] stands for and whatever the border update
    does. *)
Theorem ptex_filter_borders_update_in_bounds (ptex_regions : list ImPtexRegion)
    (bpx_buf : Image) (me : Mesh) :
  mesh_valid me = true ->
  Z.of_nat (length ptex_regions) = me_totloop me ->
  is_Some (ptex_filter_borders_update BPX_rect_borders_update side_of_int
             ptex_regions bpx_buf me).
Proof.
  intros Hv Hlen.
  destruct (edge_adj_init_records me Hv) as (adj & Hinit & _).
  destruct (mesh_valid_spec me Hv) as (Hnp & _).
  unfold ptex_filter_borders_update. rewrite Hinit. cbn [mbind option_bind].
  destruct (for_each_defined (fun _ : Image => True) (seqZ 0 (me_totpoly me))
              (fun i buf =>
                 p ← array_get (me_mpoly me) i;
                 for_each (seqZ 0 (p_totloop p))
                   (filter_borders_loop BPX_rect_borders_update side_of_int
                      adj me ptex_regions i p) buf)) with (s := bpx_buf)
    as (res & Hres & _); [|exact I|rewrite Hres; eexists; reflexivity].
  intros i buf Hi%elem_of_seqZ _.
  destruct (array_get_is_Some (me_mpoly me) i) as [p Hp]; [lia|].
  pose proof (array_get_elem_of _ _ _ Hp) as Hin.
  rewrite Hp. cbn [mbind option_bind].
  apply (for_each_defined (fun _ : Image => True)); [|exact I].
  intros j b Hj%elem_of_seqZ _.
  destruct (loop_index_small me p j Hv Hin) as [Hadd Hrange]; [lia|].
  unfold filter_borders_loop. cbv zeta. rewrite Hadd.
  destruct (array_get_is_Some ptex_regions (p_loopstart p + j))
    as [region Hregion]; [lia|].
  rewrite Hregion. cbn [mbind option_bind].
  destruct (for_each_defined (fun _ : list BPXRect * list BPXEdge => True)
              (seqZ 0 4)
              (filter_borders_side side_of_int adj me ptex_regions i j))
    with (s := ([] : list BPXRect, [] : list BPXEdge))
    as ([adj_rect adj_edge] & Hsides & _); [|exact I|].
  - intros k [rects edges] _ _.
    destruct (ptex_adj_edge_in_range me adj i p j (side_of_int k)
                Hv Hinit Hp) as (adj_loop & edge & Hadj & Hloop); [lia|].
    destruct (array_get_is_Some ptex_regions adj_loop) as [r Hr]; [lia|].
    unfold filter_borders_side. rewrite Hadj. cbn [mbind option_bind].
    rewrite Hr. cbn [mbind option_bind]. eexists. split; [reflexivity | exact I].
  - rewrite Hsides. cbn [mbind option_bind].
    eexists. split; [reflexivity | exact I].
Qed.

End FilterProperties.

Lemma ptex_filter_borders_update_in_bounds_witness :
  mesh_valid mesh_two_triangles = true /\
  is_Some (ptex_filter_borders_update
             (fun (buf : list BPXRect) dst _ _ => (true, buf ++ [dst]))
             (fun k => if k =? 0 then BPX_SIDE_BOTTOM
                       else if k =? 1 then BPX_SIDE_RIGHT
                       else if k =? 2 then BPX_SIDE_TOP else BPX_SIDE_LEFT)
             (replicate 6 {| region_x := 0; region_y := 0;
                             region_width := 2; region_height := 2 |})
             [] mesh_two_triangles).
Proof.
  split; [reflexivity|].
  apply ptex_filter_borders_update_in_bounds; reflexivity.
Defined.

(** ** Loop interpolation identifiers *)









(** ** What allocation and import leave alone *)

Lemma blocks_kept_refl h : blocks_kept h h.
Proof. intros q buf H. exact H. Qed.

Lemma blocks_kept_insert h0 h h' p buf :
  blocks_kept h0 h -> blocks h0 !! p = None ->
  blocks h' = <[p := buf]> (blocks h) ->
  blocks_kept h0 h'.
Proof.
  intros Hk Hp Hb q b Hq. rewrite Hb.
  rewrite lookup_insert_ne; [apply Hk, Hq|]. intros ->. congruence.
Qed.

Lemma blocks_kept_absent h0 h p :
  blocks_kept h0 h -> blocks h !! p = None -> blocks h0 !! p = None.
Proof.
  intros Hk Hp. destruct (blocks h0 !! p) as [b|] eqn:E; [|reflexivity].
  rewrite (Hk p b E) in Hp. discriminate.
Qed.

(** The shape of any defined run of [BKE_loop_ptex_init], valid arguments
    or not. *)
Lemma loop_ptex_init_shape loop_ptex info logres h lp h' :
  BKE_loop_ptex_init loop_ptex info logres h = Some (lp, h') ->
  lp_texel_info lp = info /\ lp_logres lp = logres /\
  lp_image lp = lp_image loop_ptex /\
  ((lp_rect lp = None /\ blocks h' = blocks h) \/
   (exists p buf, lp_rect lp = Some p /\ blocks h !! p = None /\
                  blocks h' = <[p := buf]> (blocks h))).
Proof.
  unfold BKE_loop_ptex_init, bke_ptex_texels_malloc.
  destruct (MEM_mallocN_spec (BKE_ptex_rect_num_bytes info logres) h)
    as [[-> _] | (p & Hfresh & _ & ->)].
  - unfold bke_loop_ptex_fill. cbn [lp_rect mbind option_bind].
    intros [= <- <-]. cbn [lp_texel_info lp_logres lp_image lp_rect].
    split; [reflexivity|]. split; [reflexivity|]. split; [reflexivity|].
    left. split; reflexivity.
  - unfold bke_loop_ptex_fill. cbn [lp_rect lp_logres lp_texel_info].
    destruct (ptex_area_from_logres logres <? 1).
    + cbn [mbind option_bind]. intros [= <- <-].
      cbn [lp_texel_info lp_logres lp_image lp_rect blocks heap_with_blocks].
      split; [reflexivity|]. split; [reflexivity|]. split; [reflexivity|].
      right. eexists p, _. split; [reflexivity|]. split; [exact Hfresh|].
      reflexivity.
    + cbn [blocks heap_with_blocks]. rewrite lookup_insert_eq.
      cbn [mbind option_bind].
      destruct (ptex_data_from_float _ _ _ _ _) as [buf1|];
        [|discriminate].
      cbn [mbind option_bind].
      destruct (INT_MAX <? ptex_area_from_logres logres); [discriminate|].
      destruct (for_each _ _ _) as [[dst buf2]|]; [|discriminate].
      cbn [mbind option_bind]. intros [= <- <-].
      cbn [lp_texel_info lp_logres lp_image lp_rect blocks heap_with_blocks].
      split; [reflexivity|]. split; [reflexivity|]. split; [reflexivity|].
      right. exists p, buf2. split; [reflexivity|]. split; [exact Hfresh|].
      apply insert_insert_eq.
Qed.

(** X15: [BKE_loop_ptex_init] never frees or rewrites a block that was
    allocated before the call: every such block is still there with its
    bytes, and the buffer the raster gets is a block that did not exist.  A
    raster that already had a buffer therefore keeps neither it nor gives it
    back: the old block stays allocated and the raster no longer points to
    it. *)
Theorem loop_ptex_init_keeps_blocks (loop_ptex : MLoopPtex)
    (info : MPtexTexelInfo) (logres : MPtexLogRes) (h : heap)
    (lp : MLoopPtex) (h' : heap) :
  BKE_loop_ptex_init loop_ptex info logres h = Some (lp, h') ->
  blocks_kept h h' /\
  (forall p, lp_rect lp = Some p ->
     blocks h !! p = None /\ is_Some (blocks h' !! p)) /\
  (forall old buf, lp_rect loop_ptex = Some old ->
     blocks h !! old = Some buf ->
     blocks h' !! old = Some buf /\ lp_rect lp <> Some old).
Proof.
  intros Hrun.
  destruct (loop_ptex_init_shape _ _ _ _ _ _ Hrun)
    as (_ & _ & _ & [[Hnone Hb] | (p & buf & Hp & Hfresh & Hb)]).
  - split; [intros q b Hq; rewrite Hb; exact Hq|].
    split; [intros p Hp; congruence|].
    intros old buf _ Hold. split; [rewrite Hb; exact Hold | congruence].
  - assert (blocks_kept h h') as Hk
      by exact (blocks_kept_insert h h h' p buf (blocks_kept_refl h) Hfresh Hb).
    split; [exact Hk|]. split.
    + intros p' Hp'. rewrite Hp in Hp'. injection Hp' as <-.
      split; [exact Hfresh|]. rewrite Hb, lookup_insert_eq. eexists; reflexivity.
    + intros old b _ Hold. split; [apply Hk, Hold|].
      rewrite Hp. intros [= ->]. congruence.
Qed.

Lemma loop_ptex_init_keeps_blocks_witness :
  exists lp1 h1 lp2 h2 p1 p2,
    BKE_loop_ptex_init loop_ptex_calloc
      {| data_type := MPTEX_DATA_TYPE_UINT8; num_channels := 1 |}
      {| logres_u := 0; logres_v := 0 |} heap_empty = Some (lp1, h1) /\
    BKE_loop_ptex_init lp1
      {| data_type := MPTEX_DATA_TYPE_UINT8; num_channels := 1 |}
      {| logres_u := 1; logres_v := 0 |} h1 = Some (lp2, h2) /\
    lp_rect lp1 = Some p1 /\ lp_rect lp2 = Some p2 /\ p1 <> p2 /\
    blocks h2 !! p1 = Some [204].
Proof.
  destruct (BKE_loop_ptex_init loop_ptex_calloc
              {| data_type := MPTEX_DATA_TYPE_UINT8; num_channels := 1 |}
              {| logres_u := 0; logres_v := 0 |} heap_empty)
    as [[lp1 h1]|] eqn:Hrun1; [|vm_compute in Hrun1; discriminate].
  destruct (BKE_loop_ptex_init lp1
              {| data_type := MPTEX_DATA_TYPE_UINT8; num_channels := 1 |}
              {| logres_u := 1; logres_v := 0 |} h1)
    as [[lp2 h2]|] eqn:Hrun2;
    [|vm_compute in Hrun1; injection Hrun1 as <- <-;
      vm_compute in Hrun2; discriminate].
  destruct (loop_ptex_init_keeps_blocks _ _ _ _ _ _ Hrun2)
    as (_ & _ & Hold).
  pose proof Hrun1 as Hc1. vm_compute in Hc1. injection Hc1 as <- <-.
  pose proof Hrun2 as Hc2. vm_compute in Hc2. injection Hc2 as <- <-.
  eexists _, _, _, _, 1%positive, 2%positive.
  split; [reflexivity|]. split; [exact Hrun2|].
  split; [reflexivity|]. split; [reflexivity|]. split; [discriminate|].
  apply (Hold 1%positive [204]); reflexivity.
Defined.

Lemma elem_of_array_set {A} (a : list A) i x a' y :
  array_set a i x = Some a' -> y ∈ a' -> y = x \/ y ∈ a.
Proof.
  unfold array_set. destruct (_ && _); [|discriminate]. intros [= <-] Hy.
  apply list_elem_of_lookup in Hy. destruct Hy as [j Hj].
  apply list_lookup_insert_Some in Hj.
  destruct Hj as [(_ & <- & _) | (_ & Hj)]; [left; reflexivity|].
  right. apply list_elem_of_lookup. exists j. exact Hj.
Qed.

Lemma rasters_new_array_set h0 layer i lp layer' :
  rasters_new h0 layer ->
  (forall p, lp_rect lp = Some p -> blocks h0 !! p = None) ->
  array_set layer i lp = Some layer' ->
  rasters_new h0 layer'.
Proof.
  intros Hnew Hlp Hset x p Hx Hp.
  destruct (elem_of_array_set _ _ _ _ _ Hset Hx) as [-> | Hin].
  - apply Hlp, Hp.
  - exact (Hnew x p Hin Hp).
Qed.

(** [BKE_loop_ptex_init] in a store that extends [h0]. *)
Lemma loop_ptex_init_frame h0 loop_ptex info logres h lp h' :
  blocks_kept h0 h ->
  BKE_loop_ptex_init loop_ptex info logres h = Some (lp, h') ->
  blocks_kept h0 h' /\
  (forall p, lp_rect lp = Some p -> blocks h0 !! p = None) /\
  (forall p, lp_rect lp = Some p -> is_Some (blocks h' !! p)).
Proof.
  intros Hk Hrun.
  destruct (loop_ptex_init_shape _ _ _ _ _ _ Hrun)
    as (_ & _ & _ & [[Hnone Hb] | (p & buf & Hp & Hfresh & Hb)]).
  - split; [intros q b Hq; rewrite Hb; apply Hk, Hq|].
    split; intros p Hp; congruence.
  - pose proof (blocks_kept_absent h0 h p Hk Hfresh) as Hp0.
    split; [exact (blocks_kept_insert h0 h h' p buf Hk Hp0 Hb)|].
    split; intros p' Hp'; rewrite Hp in Hp'; injection Hp' as <-.
    + exact Hp0.
    + rewrite Hb, lookup_insert_eq. eexists; reflexivity.
Qed.

Section ImportFrame.
Context {World Owned : Type} `{!BPXLibrary World Owned}.
Variable log2_trunc : Z -> Z.

Lemma bpx_on_block_frame h0 op d h ok h' :
  blocks_kept h0 h -> blocks h0 !! bpx_data d = None ->
  bpx_on_block op d h = Some (ok, h') ->
  blocks_kept h0 h'.
Proof.
  intros Hk Hd. unfold bpx_on_block.
  destruct (blocks h !! bpx_data d) as [db|]; [|discriminate].
  cbn [mbind option_bind]. destruct (op db) as [ok' db'].
  intros [= _ <-].
  apply (blocks_kept_insert h0 h _ (bpx_data d) db' Hk Hd). reflexivity.
Qed.

Lemma mesh_ptex_import_loop_frame h0 src lp info width height h ok lp' h' :
  blocks_kept h0 h ->
  (forall p, lp_rect lp = Some p -> blocks h0 !! p = None) ->
  mesh_ptex_import_loop log2_trunc src lp info width height h
    = Some (ok, lp', h') ->
  blocks_kept h0 h' /\
  (forall p, lp_rect lp' = Some p -> blocks h0 !! p = None).
Proof.
  intros Hk Hlp. unfold mesh_ptex_import_loop.
  destruct (BKE_ptex_log_res_from_res log2_trunc width height) as [logres|];
    [|intros [= _ <- <-]; split; assumption].
  destruct (BKE_loop_ptex_init lp info logres h) as [[lp1 h1]|] eqn:Hinit;
    [|discriminate].
  cbn [mbind option_bind].
  destruct (loop_ptex_init_frame h0 _ _ _ _ _ _ Hk Hinit) as (Hk1 & Hnew1 & _).
  destruct (bpx_image_buf_wrap_loop_ptex (Some lp1)) as [dst|] eqn:Hwrap;
    [|intros [= _ <- <-]; split; assumption].
  pose proof (Hnew1 _ (wrap_loop_ptex_data _ _ Hwrap)) as Hdst.
  destruct (bpx_on_block (BPX_input_read_wrapped src dst) dst h1)
    as [[result h2]|] eqn:Hread; [|discriminate].
  cbn [mbind option_bind].
  pose proof (bpx_on_block_frame h0 _ _ _ _ _ Hk1 Hdst Hread) as Hk2.
  destruct result; [|intros [= _ <- <-]; split; assumption].
  destruct (bpx_on_block (BPX_transform dst) dst h2) as [[result' h3]|]
    eqn:Htr; [|discriminate].
  cbn [mbind option_bind]. intros [= _ <- <-].
  split; [exact (bpx_on_block_frame h0 _ _ _ _ _ Hk2 Hdst Htr) | exact Hnew1].
Qed.

Lemma import_quad_alloc_frame h0 n info logres logres_t base i
    layer h dst layer' h' dst' :
  import_quad_alloc info logres logres_t base i (layer, h, dst)
    = Some (layer', h', dst') ->
  blocks_kept h0 h /\ rasters_new h0 layer /\ length layer = n /\
    (forall d, Some d ∈ dst -> blocks h0 !! bpx_data d = None) ->
  blocks_kept h0 h' /\ rasters_new h0 layer' /\ length layer' = n /\
    (forall d, Some d ∈ dst' -> blocks h0 !! bpx_data d = None).
Proof.
  intros Hstep (Hk & Hnew & Hlen & Hdst). unfold import_quad_alloc in Hstep.
  destruct (array_get layer (base + i)) as [lp|]; [|discriminate].
  cbn [mbind option_bind] in Hstep.
  destruct (BKE_loop_ptex_init lp info _ h) as [[lp1 h1]|] eqn:Hinit;
    [|discriminate].
  cbn [mbind option_bind] in Hstep.
  destruct (array_set layer (base + i) lp1) as [layer1|] eqn:Hset;
    [|discriminate].
  cbn [mbind option_bind] in Hstep. injection Hstep as <- <- <-.
  destruct (loop_ptex_init_frame h0 _ _ _ _ _ _ Hk Hinit) as (Hk1 & Hnew1 & _).
  split; [exact Hk1|].
  split; [exact (rasters_new_array_set h0 _ _ _ _ Hnew Hnew1 Hset)|].
  split; [rewrite (array_set_length _ _ _ _ Hset); exact Hlen|].
  intros d [Hd | Hd%list_elem_of_singleton]%elem_of_app; [apply Hdst, Hd|].
  symmetry in Hd. apply Hnew1. exact (wrap_loop_ptex_data _ _ Hd).
Qed.

Lemma foldr_insert_lookup (l : list (BPXImageBuf * list Z))
    (m : gmap positive (list Z)) q :
  (forall d b, (d, b) ∈ l -> bpx_data d <> q) ->
  foldr (fun '(d, b) m => <[bpx_data d := b]> m) m l !! q = m !! q.
Proof.
  induction l as [|[d b] l IH]; intros Hall; [reflexivity|].
  cbn [foldr]. rewrite lookup_insert_ne by (apply (Hall d b); left).
  apply IH. intros d' b' Hin. apply (Hall d' b'). right. exact Hin.
Qed.

Lemma mapM_id_elem {A} (l : list (option A)) k x :
  mapM id l = Some k -> x ∈ k -> Some x ∈ l.
Proof.
  intros Hm%mapM_Some_1. induction Hm as [|o y l k Ho _ IH];
    intros Hx; [inversion Hx|].
  apply elem_of_cons in Hx. destruct Hx as [-> | Hx].
  - unfold id in Ho. rewrite Ho. left.
  - right. apply IH, Hx.
Qed.

Lemma quad_split_frame h0 dst w all_buf h r h' :
  blocks_kept h0 h ->
  (forall d, Some d ∈ dst -> blocks h0 !! bpx_data d = None) ->
  BPX_image_buf_quad_split dst w all_buf h = Some (r, h') ->
  blocks_kept h0 h'.
Proof.
  intros Hk Hdst. unfold BPX_image_buf_quad_split.
  destruct (mapM id dst) as [ds|] eqn:Hds;
    [|intros [= _ <-]; exact Hk].
  destruct (mapM _ ds) as [bs|]; [|discriminate].
  cbn [mbind option_bind].
  destruct (BPX_quad_split_bytes w all_buf (zip ds bs)) as [r' bs'].
  intros [= _ <-]. intros q buf Hq. cbn [blocks heap_with_blocks].
  rewrite foldr_insert_lookup; [apply Hk, Hq|].
  intros d b Hin%elem_of_zip_l Heq. subst q.
  pose proof (Hdst d (mapM_id_elem _ _ _ Hds Hin)) as Hnone.
  assert (Some buf = None) as Habs
    by (etransitivity; [symmetry; exact Hq | exact Hnone]).
  discriminate Habs.
Qed.

Lemma mesh_ptex_import_quad_frame h0 src layer base info width height h
    ok layer' h' w' :
  blocks_kept h0 h -> rasters_new h0 layer ->
  mesh_ptex_import_quad log2_trunc src layer base info width height h
    = Some (ok, layer', h', w') ->
  blocks_kept h0 h' /\ rasters_new h0 layer' /\ length layer' = length layer.
Proof.
  intros Hk Hnew. unfold mesh_ptex_import_quad.
  destruct (BKE_ptex_log_res_from_res log2_trunc width height) as [logres0|];
    [|intros [= _ <- <- _]; auto].
  destruct (BPX_image_buf_alloc_empty src) as [[all_buf|] w1];
    [|intros [= _ <- <- _]; auto].
  destruct (BPX_input_read_owned w1 all_buf) as [[|] w2];
    [|intros [= _ <- <- _]; auto].
  cbv zeta.
  destruct (for_each (seqZ 0 4) _ (layer, h, [])) as [[[layer1 h1] dst]|]
    eqn:Hloop; [|discriminate].
  cbn [mbind option_bind].
  apply (for_each_invariant
           (fun s : list MLoopPtex * heap * list (option BPXImageBuf) =>
              let '(l, hh, ds) := s in
              blocks_kept h0 hh /\ rasters_new h0 l /\
              length l = length layer /\
              (forall d, Some d ∈ ds -> blocks h0 !! bpx_data d = None)))
    in Hloop.
  - destruct Hloop as (Hk1 & Hnew1 & Hlen1 & Hdst).
    destruct (BPX_image_buf_quad_split dst w2 all_buf h1) as [[r h2]|]
      eqn:Hsplit; [|discriminate].
    cbn [mbind option_bind]. intros [= _ <- <- _].
    split; [exact (quad_split_frame h0 _ _ _ _ _ _ Hk1 Hdst Hsplit)|].
    split; assumption.
  - intros i [[l hh] ds] [[l' hh'] ds'] _ Hstep Hinv.
    exact (import_quad_alloc_frame h0 _ _ _ _ _ _ _ _ _ _ _ _ Hstep Hinv).
  - split; [exact Hk|]. split; [exact Hnew|]. split; [reflexivity|].
    intros d Hd. inversion Hd.
Qed.

Lemma import_poly_loops_frame h0 info p js : forall st st' stop,
  import_poly_loops log2_trunc info p js st = Some (st', stop) ->
  blocks_kept h0 (im_heap st) -> rasters_new h0 (im_layer st) ->
  blocks_kept h0 (im_heap st') /\ rasters_new h0 (im_layer st') /\
  length (im_layer st') = length (im_layer st).
Proof.
  induction js as [|j js IH]; intros st st' stop Hrun Hk Hnew.
  - injection Hrun as <- _. auto.
  - cbn [import_poly_loops] in Hrun. cbv zeta in Hrun.
    destruct (BPX_image_input_seek_subimage (im_world st) (im_face_id st))
      as [[[width height]|] w1]; [|injection Hrun as <- _; auto].
    destruct (p_totloop p =? 4).
    + destruct (mesh_ptex_import_quad log2_trunc w1 (im_layer st) _ info
                  width height (im_heap st)) as [[[[ok layer'] h'] w2]|]
        eqn:Hquad; [|discriminate].
      cbn [mbind option_bind] in Hrun.
      destruct (mesh_ptex_import_quad_frame h0 _ _ _ _ _ _ _ _ _ _ _
                  Hk Hnew Hquad) as (Hk' & Hnew' & Hlen').
      destruct ok; injection Hrun as <- _; cbn [im_heap im_layer]; auto.
    + destruct (array_get (im_layer st) _) as [lp|] eqn:Hlp; [|discriminate].
      cbn [mbind option_bind] in Hrun.
      destruct (mesh_ptex_import_loop log2_trunc w1 lp info width height
                  (im_heap st)) as [[[ok lp'] h']|] eqn:Hloop; [|discriminate].
      cbn [mbind option_bind] in Hrun.
      destruct (array_set (im_layer st) _ lp') as [layer'|] eqn:Hset;
        [|discriminate].
      cbn [mbind option_bind] in Hrun.
      destruct (mesh_ptex_import_loop_frame h0 _ _ _ _ _ _ _ _ _ Hk
                  (fun q => Hnew lp q (array_get_elem_of _ _ _ Hlp)) Hloop)
        as (Hk' & Hlp').
      pose proof (rasters_new_array_set h0 _ _ _ _ Hnew Hlp' Hset) as Hnew'.
      pose proof (array_set_length _ _ _ _ Hset) as Hlen'.
      destruct ok.
      * destruct (IH _ _ _ Hrun Hk' Hnew') as (? & ? & Hl).
        cbn [im_layer] in Hl. split; [assumption|]. split; [assumption|].
        congruence.
      * injection Hrun as <- _. cbn [im_heap im_layer]. auto.
Qed.

Lemma import_polys_frame h0 me info idx : forall st st' stop,
  import_polys log2_trunc me info idx st = Some (st', stop) ->
  blocks_kept h0 (im_heap st) -> rasters_new h0 (im_layer st) ->
  blocks_kept h0 (im_heap st') /\ rasters_new h0 (im_layer st') /\
  length (im_layer st') = length (im_layer st).
Proof.
  induction idx as [|i idx IH]; intros st st' stop Hrun Hk Hnew.
  - injection Hrun as <- _. auto.
  - cbn [import_polys] in Hrun.
    destruct (array_get (me_mpoly me) i) as [p|]; [|discriminate].
    cbn [mbind option_bind] in Hrun.
    destruct (import_poly_loops log2_trunc info p _ st) as [[st1 stop1]|]
      eqn:Hloops; [|discriminate].
    cbn [mbind option_bind] in Hrun.
    destruct (import_poly_loops_frame h0 _ _ _ _ _ _ Hloops Hk Hnew)
      as (Hk1 & Hnew1 & Hlen1).
    destruct stop1.
    + injection Hrun as <- _. auto.
    + destruct (IH _ _ _ Hrun Hk1 Hnew1) as (? & ? & Hl).
      split; [assumption|]. split; [assumption|]. congruence.
Qed.

(** X16: whatever the file holds and however the import ends,
    [BKE_ptex_import] leaves the polygons, loops and existing layers of the
    mesh as they were and never frees or rewrites a block that was allocated
    before the call.  When it returns false the mesh and the store are
    unchanged; when it returns true exactly one layer was appended, named
    after the file, with one raster per loop of the mesh, and every buffer
    of that layer is a block that did not exist before. *)
Theorem BKE_ptex_import_frame (me : Mesh) (input : option World)
    (name : list Z) (h : heap) (r : bool) (me' : Mesh) (h' : heap) :
  BKE_ptex_import log2_trunc me input name h = Some (r, me', h') ->
  blocks_kept h h' /\
  me_mpoly me' = me_mpoly me /\ me_mloop me' = me_mloop me /\
  (r = false -> me' = me /\ h' = h) /\
  (r = true ->
   exists layer,
     me_ldata me' = me_ldata me ++ [layer] /\
     layer_name layer = name /\
     length (layer_data layer) = Z.to_nat (me_totloop me) /\
     rasters_new h (layer_data layer)).
Proof.
  unfold BKE_ptex_import.
  assert (forall r0, Some (false, me, h) = Some (r0, me', h') ->
    blocks_kept h h' /\
    me_mpoly me' = me_mpoly me /\ me_mloop me' = me_mloop me /\
    (r0 = false -> me' = me /\ h' = h) /\
    (r0 = true ->
     exists layer,
       me_ldata me' = me_ldata me ++ [layer] /\
       layer_name layer = name /\
       length (layer_data layer) = Z.to_nat (me_totloop me) /\
       rasters_new h (layer_data layer))) as Hfalse.
  { intros r0 [= <- <- <-]. split; [apply blocks_kept_refl|].
    split; [reflexivity|]. split; [reflexivity|].
    split; [auto | discriminate]. }
  destruct input as [w|]; [|apply Hfalse].
  destruct (bke_ptex_texel_info_from_bpx (Some w)) as [info|];
    [|apply Hfalse].
  unfold CustomData_add_layer_named.
  destruct (0 <? me_totloop me); [|apply Hfalse].
  rewrite lookup_app_r, Nat.sub_diag by lia. cbn [lookup list_lookup].
  cbn [mbind option_bind layer_data].
  destruct (import_polys _ _ _ _ _) as [[st stop]|] eqn:Hrun; [|discriminate].
  cbn [mbind option_bind].
  intros [= <- <- <-].
  destruct (import_polys_frame h _ _ _ _ _ _ Hrun) as (Hk & Hnew & Hlen).
  { apply blocks_kept_refl. }
  { cbn [im_layer]. intros lp p Hin%elem_of_replicate Hp.
    destruct Hin as [-> _]. discriminate Hp. }
  cbn [im_layer] in Hlen. rewrite length_replicate in Hlen.
  split; [exact Hk|]. split; [reflexivity|]. split; [reflexivity|].
  split; [discriminate|]. intros _.
  exists {| layer_name := name; layer_data := im_layer st |}.
  cbn [me_ldata mesh_with_ldata layer_name layer_data].
  split; [|split; [reflexivity | split; assumption]].
  replace (length (me_ldata me)) with (length (me_ldata me) + 0)%nat by lia.
  rewrite insert_app_r. reflexivity.
Qed.

End ImportFrame.

Lemma BKE_ptex_import_frame_witness :
  exists me' h' layer,
    BKE_ptex_import Z.log2 mesh_triangle (Some file_one_subimage) []
      heap_one_raster = Some (true, me', h') /\
    blocks_kept heap_one_raster h' /\
    me_ldata me' = [layer] /\ length (layer_data layer) = 3%nat.
Proof.
  destruct (BKE_ptex_import Z.log2 mesh_triangle (Some file_one_subimage) []
              heap_one_raster) as [[[r me'] h']|] eqn:Hrun;
    [|vm_compute in Hrun; discriminate].
  destruct (BKE_ptex_import_frame Z.log2 _ _ _ _ _ _ _ Hrun)
    as (Hk & _ & _ & _ & Htrue).
  assert (r = true) as ->
    by (pose proof Hrun as Hc; vm_compute in Hc; congruence).
  destruct (Htrue eq_refl) as (layer & Hl & _ & Hlen & _).
  exists me', h', layer. split; [reflexivity|]. split; [exact Hk|].
  split; [exact Hl | exact Hlen].
Defined.

(** ** Unchecked indices and unknown data types *)







(** X18: a raster and its transpose take the same number of bytes, and the
    four rasters a quadrilateral gets (two of the halved resolution, two of
    its transpose) hold together exactly the texels of the subimage they
    are split from, when the subimage is at least two texels wide and
    high and its area fits an [int]. *)
Theorem quad_rasters_partition (info : MPtexTexelInfo) (logres : MPtexLogRes) :
  logres_valid logres ->
  BKE_ptex_rect_num_bytes info (transpose_logres logres) =
    BKE_ptex_rect_num_bytes info logres /\
  (1 <= logres_u logres -> 1 <= logres_v logres ->
   logres_u logres + logres_v logres <= 30 ->
   2 * ptex_area_from_logres (quad_logres logres) +
   2 * ptex_area_from_logres (transpose_logres (quad_logres logres)) =
     ptex_area_from_logres logres).
Proof.
  intros [Hu%ptex_rlog2_valid_spec Hv%ptex_rlog2_valid_spec]. split.
  - unfold BKE_ptex_rect_num_bytes, ptex_area_from_logres, transpose_logres,
      int_mul. cbn [logres_u logres_v]. rewrite Z.mul_comm. reflexivity.
  - intros H1u H1v H30.
    assert (logres_u (quad_logres logres) = logres_u logres - 1) as Equ.
    { unfold quad_logres. cbn [logres_u].
      destruct (1 <=? logres_u logres) eqn:E; [reflexivity|].
      apply Z.leb_gt in E. lia. }
    assert (logres_v (quad_logres logres) = logres_v logres - 1) as Eqv.
    { unfold quad_logres. cbn [logres_v].
      destruct (1 <=? logres_v logres) eqn:E; [reflexivity|].
      apply Z.leb_gt in E. lia. }
    rewrite !ptex_area_from_logres_small;
      cbn [transpose_logres logres_u logres_v]; rewrite ?Equ, ?Eqv; try lia.
    replace (logres_u logres) with (logres_u logres - 1 + 1) at 3 by lia.
    replace (logres_v logres) with (logres_v logres - 1 + 1) at 3 by lia.
    rewrite !Z.pow_add_r by lia. ring.
Qed.

Lemma quad_rasters_partition_witness :
  2 * ptex_area_from_logres (quad_logres {| logres_u := 3; logres_v := 2 |}) +
  2 * ptex_area_from_logres
        (transpose_logres (quad_logres {| logres_u := 3; logres_v := 2 |})) =
    32.
Proof.
  destruct (quad_rasters_partition
              {| data_type := MPTEX_DATA_TYPE_UINT8; num_channels := 1 |}
              {| logres_u := 3; logres_v := 2 |}) as [_ Hsum];
    [split; reflexivity|].
  rewrite Hsum; [reflexivity | simpl; lia | simpl; lia | simpl; lia].
Defined.

Section UnknownDataType.
Context {World Owned : Type} `{!BPXLibrary World Owned}.

(** X19: a raster whose data type is neither uint8 nor float32 is carried
    along but never given storage or handed to the image library: its texels
    take 0 bytes at every resolution and channel count, it cannot be
    wrapped, and [BKE_loop_ptex_resize] fails on it for every destination
    resolution, leaving the raster and the allocated blocks as they were. *)
Theorem unknown_data_type_inert (raw : Z) (lp : MLoopPtex)
    (dst_logres : MPtexLogRes) (h : heap) :
  data_type (lp_texel_info lp) = MPTEX_DATA_TYPE_other raw ->
  BKE_ptex_bytes_per_texel (lp_texel_info lp) = 0 /\
  BKE_loop_ptex_rect_num_bytes lp = 0 /\
  BKE_ptex_rect_num_bytes (lp_texel_info lp) dst_logres = 0 /\
  bpx_image_buf_wrap_loop_ptex (Some lp) = None /\
  exists h',
    BKE_loop_ptex_resize lp dst_logres h = Some (false, lp, h') /\
    blocks h' = blocks h.
Proof.
  intros Hdt.
  assert (BKE_ptex_bytes_per_texel (lp_texel_info lp) = 0) as Hb.
  { unfold BKE_ptex_bytes_per_texel, int_mul. rewrite Hdt.
    cbn [ptex_data_type_num_bytes]. rewrite Z.mul_0_l. reflexivity. }
  assert (forall logres,
            BKE_ptex_rect_num_bytes (lp_texel_info lp) logres = 0) as Hn.
  { intros logres. unfold BKE_ptex_rect_num_bytes, size_mul.
    rewrite Hb, Z.mul_0_l. reflexivity. }
  assert (forall logres rect,
            bpx_image_buf_wrap_ptex_rect logres (lp_texel_info lp) rect = None)
    as Hw.
  { intros logres rect. unfold bpx_image_buf_wrap_ptex_rect.
    destruct rect; [|reflexivity]. rewrite Hdt. reflexivity. }
  split; [exact Hb|]. split; [apply Hn|]. split; [apply Hn|].
  split; [apply Hw|].
  unfold BKE_loop_ptex_resize. cbv zeta.
  destruct (lp_rect lp) as [old|] eqn:Hrect;
    [|exists h; split; reflexivity].
  unfold bke_ptex_texels_malloc. rewrite Hn.
  destruct (MEM_mallocN_spec 0 h) as [[-> _] | (p & Hfresh & _ & ->)].
  - unfold bpx_image_buf_wrap_loop_ptex. rewrite !Hw.
    cbn [BPX_image_buf_resize mbind option_bind MEM_freeN].
    exists h. split; reflexivity.
  - unfold bpx_image_buf_wrap_loop_ptex. rewrite !Hw.
    cbn [BPX_image_buf_resize mbind option_bind].
    eexists. split; [reflexivity|].
    cbn [MEM_freeN blocks heap_with_blocks].
    apply delete_insert_id. exact Hfresh.
Qed.

End UnknownDataType.

Lemma unknown_data_type_inert_witness :
  exists h',
    BKE_loop_ptex_resize (World := ptex_file)
      {| lp_texel_info := {| data_type := MPTEX_DATA_TYPE_other 7;
                             num_channels := 3 |};
         lp_logres := {| logres_u := 1; logres_v := 1 |};
         lp_rect := Some 1%positive; lp_image := None |}
      {| logres_u := 2; logres_v := 2 |} heap_one_raster
      = Some (false,
              {| lp_texel_info := {| data_type := MPTEX_DATA_TYPE_other 7;
                                     num_channels := 3 |};
                 lp_logres := {| logres_u := 1; logres_v := 1 |};
                 lp_rect := Some 1%positive; lp_image := None |}, h') /\
    blocks h' = blocks heap_one_raster.
Proof.
  destruct (unknown_data_type_inert (World := ptex_file) 7
              {| lp_texel_info := {| data_type := MPTEX_DATA_TYPE_other 7;
                                     num_channels := 3 |};
                 lp_logres := {| logres_u := 1; logres_v := 1 |};
                 lp_rect := Some 1%positive; lp_image := None |}
              {| logres_u := 2; logres_v := 2 |} heap_one_raster eq_refl)
    as (_ & _ & _ & _ & Hres).
  exact Hres.
Defined.

(** X20: in the adjacency index built for a valid mesh, on an edge that no
    polygon touches with two of its loops, no polygon is its own neighbour:
    the other polygon of a polygon index is never that index. *)
Theorem built_other_poly_irreflexive (me : Mesh) (adj : list BKEPtexEdgeAdj)
    (e : Z) (a : BKEPtexEdgeAdj) (p : Z) :
  mesh_valid me = true ->
  bke_ptex_edge_adj_init me = Some adj ->
  array_get adj e = Some a ->
  NoDup (edge_refs me e) ->
  0 <= p ->
  bke_ptex_edge_adj_other_poly (Some a) p <> p.
Proof.
  intros Hv Hinit Ha Hnd Hp.
  destruct (built_record me adj e a Hv Hinit Ha) as [He ->].
  rewrite other_poly_unfold. unfold record_of. cbn [polys_0 polys_1].
  destruct (edge_refs me e) as [|x [|y l]]; cbn [nth].
  - destruct (_ =? p); unfold BKE_PTEX_NO_ADJ_POLY; lia.
  - destruct (x =? p); [unfold BKE_PTEX_NO_ADJ_POLY; lia|].
    destruct (BKE_PTEX_NO_ADJ_POLY =? p) eqn:E;
      [apply Z.eqb_eq in E|]; unfold BKE_PTEX_NO_ADJ_POLY in *; lia.
  - apply NoDup_cons in Hnd. destruct Hnd as [Hxy _].
    destruct (x =? p) eqn:E0.
    + apply Z.eqb_eq in E0. subst x. intros ->. apply Hxy. left.
    + destruct (y =? p) eqn:E1.
      * apply Z.eqb_neq in E0. exact E0.
      * unfold BKE_PTEX_NO_ADJ_POLY. lia.
Qed.

Lemma built_other_poly_irreflexive_witness :
  NoDup (edge_refs mesh_two_triangles 1) /\
  bke_ptex_edge_adj_other_poly (Some {| polys_0 := 0; polys_1 := 1 |}) 1 <> 1.
Proof.
  assert (NoDup (edge_refs mesh_two_triangles 1)) as Hnd.
  { change (edge_refs mesh_two_triangles 1) with [0; 1].
    apply NoDup_cons. split; [intros Hin; apply list_elem_of_singleton in Hin;
                              discriminate|].
    apply NoDup_singleton. }
  split; [exact Hnd|].
  apply (built_other_poly_irreflexive mesh_two_triangles
           [ {| polys_0 := 0; polys_1 := -1 |};
             {| polys_0 := 0; polys_1 := 1 |};
             {| polys_0 := 0; polys_1 := -1 |};
             {| polys_0 := 1; polys_1 := -1 |};
             {| polys_0 := 1; polys_1 := -1 |} ] 1);
    try reflexivity; [exact Hnd | lia].
Defined.

(** ** Ptex face numbering during import *)

Lemma ptex_face_count_nonneg p : 0 <= ptex_face_count p.
Proof. unfold ptex_face_count. destruct (_ =? 4); lia. Qed.

Lemma ptex_faces_nonneg me idx : 0 <= ptex_faces me idx.
Proof.
  induction idx as [|i idx IH]; [reflexivity|]. cbn [ptex_faces foldr].
  fold (ptex_faces me idx).
  destruct (array_get (me_mpoly me) i) as [p|];
    [pose proof (ptex_face_count_nonneg p)|]; lia.
Qed.

Section ImportFaceIds.
Context {World Owned : Type} `{!BPXLibrary World Owned}.
Variable log2_trunc : Z -> Z.

Lemma import_poly_loops_ids info p js : forall st st' stop,
  (p_totloop p =? 4) = false ->
  import_poly_loops log2_trunc info p js st = Some (st', stop) ->
  0 <= im_face_id st ->
  im_face_id st + Z.of_nat (length js) <= INT_MAX ->
  (stop = false -> im_face_id st' = im_face_id st + Z.of_nat (length js)) /\
  (stop = true ->
   im_face_id st <= im_face_id st' < im_face_id st + Z.of_nat (length js)).
Proof.
  intros st st' stop Hnq. revert st st' stop.
  induction js as [|j js IH]; intros st st' stop Hrun Hid Hmax.
  - injection Hrun as <- <-. cbn [length]. split; [lia | discriminate].
  - cbn [import_poly_loops] in Hrun. cbv zeta in Hrun. cbn [length] in *.
    destruct (BPX_image_input_seek_subimage (im_world st) (im_face_id st))
      as [[[width height]|] w1].
    2:{ injection Hrun as <- <-. cbn [im_face_id].
        split; [discriminate | lia]. }
    rewrite Hnq in Hrun.
    destruct (array_get (im_layer st) _) as [lp|]; [|discriminate].
    cbn [mbind option_bind] in Hrun.
    destruct (mesh_ptex_import_loop log2_trunc w1 lp info width height
                (im_heap st)) as [[[ok lp'] h']|]; [|discriminate].
    cbn [mbind option_bind] in Hrun.
    destruct (array_set (im_layer st) _ lp') as [layer'|]; [|discriminate].
    cbn [mbind option_bind] in Hrun.
    destruct ok.
    + unfold INT_MAX in Hmax.
      rewrite int_add_small in Hrun by lia.
      destruct (IH _ _ _ Hrun) as [Hok Hstop]; cbn [im_face_id];
        [lia | unfold INT_MAX; lia |].
      cbn [im_face_id] in Hok, Hstop.
      split; [intros E; rewrite (Hok E); lia|].
      intros E. pose proof (Hstop E). lia.
    + injection Hrun as <- <-. cbn [im_face_id].
      split; [discriminate | lia].
Qed.

Lemma import_poly_ids info p st st' stop :
  import_poly_loops log2_trunc info p (seqZ 0 (p_totloop p)) st
    = Some (st', stop) ->
  0 <= im_face_id st ->
  im_face_id st + ptex_face_count p <= INT_MAX ->
  (stop = false -> im_face_id st' = im_face_id st + ptex_face_count p) /\
  (stop = true ->
   im_face_id st <= im_face_id st' < im_face_id st + ptex_face_count p).
Proof.
  unfold ptex_face_count. destruct (p_totloop p =? 4) eqn:Hq.
  - apply Z.eqb_eq in Hq. rewrite Hq.
    change (seqZ 0 4) with (0 :: seqZ 1 3).
    intros Hrun Hid Hmax. cbn [import_poly_loops] in Hrun. cbv zeta in Hrun.
    destruct (BPX_image_input_seek_subimage (im_world st) (im_face_id st))
      as [[[width height]|] w1].
    2:{ injection Hrun as <- <-. cbn [im_face_id].
        split; [discriminate | lia]. }
    rewrite Hq in Hrun. change (4 =? 4) with true in Hrun.
    destruct (mesh_ptex_import_quad _ _ _ _ _ _ _ _)
      as [[[[ok layer'] h'] w2]|]; [|discriminate].
    cbn [mbind option_bind] in Hrun.
    destruct ok; injection Hrun as <- <-; cbn [im_face_id].
    + unfold INT_MAX in Hmax. rewrite int_add_small by lia.
      split; [reflexivity | discriminate].
    + split; [discriminate | lia].
  - intros Hrun Hid Hmax.
    assert (Z.of_nat (length (seqZ 0 (p_totloop p))) = Z.max 0 (p_totloop p))
      as Hlen by (rewrite length_seqZ; lia).
    rewrite <- Hlen in *.
    exact (import_poly_loops_ids info p _ st st' stop Hq Hrun Hid Hmax).
Qed.

(** X21: the import numbers the Ptex faces of the file in polygon order, a
    quadrilateral taking one face and any other polygon one face per loop.
    When the loop over the polygons runs to its end, the face counter has
    advanced by exactly the Ptex faces of the polygons; when it stops at a
    failure, the counter is the number of the face that failed, below that
    sum. *)
Theorem import_polys_face_ids (me : Mesh) (info : MPtexTexelInfo)
    (idx : list Z) (st st' : import_state World) (stop : bool) :
  import_polys log2_trunc me info idx st = Some (st', stop) ->
  0 <= im_face_id st ->
  im_face_id st + ptex_faces me idx <= INT_MAX ->
  (stop = false -> im_face_id st' = im_face_id st + ptex_faces me idx) /\
  (stop = true ->
   im_face_id st <= im_face_id st' < im_face_id st + ptex_faces me idx).
Proof.
  revert st st' stop.
  induction idx as [|i idx IH]; intros st st' stop Hrun Hid Hmax.
  - injection Hrun as <- <-. cbn [ptex_faces foldr].
    split; [lia | discriminate].
  - cbn [import_polys] in Hrun. cbn [ptex_faces foldr] in *.
    fold (ptex_faces me idx) in *.
    pose proof (ptex_faces_nonneg me idx) as Hnn.
    destruct (array_get (me_mpoly me) i) as [p|]; [|discriminate].
    cbn [mbind option_bind] in Hrun.
    pose proof (ptex_face_count_nonneg p) as Hcn.
    destruct (import_poly_loops log2_trunc info p _ st) as [[st1 stop1]|]
      eqn:Hloops; [|discriminate].
    cbn [mbind option_bind] in Hrun.
    destruct (import_poly_ids info p st st1 stop1 Hloops Hid) as [Hok Hstop];
      [lia|].
    destruct stop1.
    + injection Hrun as <- <-. pose proof (Hstop eq_refl).
      split; [discriminate | lia].
    + pose proof (Hok eq_refl) as E1.
      destruct (IH _ _ _ Hrun) as [Hok' Hstop']; [lia | lia |].
      split; [intros E; rewrite (Hok' E); lia|].
      intros E. pose proof (Hstop' E). lia.
Qed.

End ImportFaceIds.

Lemma import_polys_face_ids_witness :
  ptex_faces mesh_triangle [0] = 3 /\
  exists st',
    import_polys Z.log2 mesh_triangle
      {| data_type := MPTEX_DATA_TYPE_UINT8; num_channels := 1 |} [0]
      {| im_layer := replicate 3 loop_ptex_calloc; im_face_id := 0;
         im_heap := heap_empty; im_world := file_one_subimage |}
      = Some (st', true) /\
    0 <= im_face_id st' < 3.
Proof.
  split; [reflexivity|].
  destruct (import_polys Z.log2 mesh_triangle
              {| data_type := MPTEX_DATA_TYPE_UINT8; num_channels := 1 |} [0]
              {| im_layer := replicate 3 loop_ptex_calloc; im_face_id := 0;
                 im_heap := heap_empty; im_world := file_one_subimage |})
    as [[st' stop]|] eqn:Hrun; [|vm_compute in Hrun; discriminate].
  destruct (import_polys_face_ids Z.log2 _ _ _ _ _ _ Hrun) as [_ Hstop];
    [simpl; lia | vm_compute; discriminate |].
  assert (stop = true) as ->
    by (pose proof Hrun as Hc; vm_compute in Hc; congruence).
  exists st'. split; [reflexivity|]. exact (Hstop eq_refl).
Defined.

(** ** Resize, release and oversized rasters *)

Section ResizeFree.
Context {World Owned : Type} `{!BPXLibrary World Owned}.

(** X22: [BKE_loop_ptex_resize] neither leaks nor releases twice: whether it
    succeeds or fails, and whatever the library's resampling does, releasing
    the raster after the call leaves exactly the blocks that releasing it
    before the call would have left. *)
Theorem loop_ptex_resize_then_free (lp : MLoopPtex) (dst_logres : MPtexLogRes)
    (h : heap) (ok : bool) (lp' : MLoopPtex) (h' : heap) :
  BKE_loop_ptex_resize lp dst_logres h = Some (ok, lp', h') ->
  blocks (BKE_loop_ptex_free lp' h') = blocks (BKE_loop_ptex_free lp h).
Proof.
  unfold BKE_loop_ptex_resize. cbv zeta.
  destruct (lp_rect lp) as [old|] eqn:Hrect;
    [|intros [= <- <- <-]; reflexivity].
  unfold bke_ptex_texels_malloc.
  destruct (MEM_mallocN_spec
              (BKE_ptex_rect_num_bytes (lp_texel_info lp) dst_logres) h)
    as [[-> _] | (p & Hfresh & _ & ->)].
  - cbn [bpx_image_buf_wrap_ptex_rect BPX_image_buf_resize mbind option_bind].
    intros [= <- <- <-]. reflexivity.
  - assert (forall b,
              delete old (delete p (<[p := b]> (blocks h))) =
              delete old (blocks h)) as Hback
      by (intros b; rewrite delete_insert_id by exact Hfresh; reflexivity).
    destruct (bpx_image_buf_wrap_ptex_rect dst_logres (lp_texel_info lp)
                (Some p)) as [d|] eqn:Hd.
    + pose proof (wrap_ptex_rect_data _ _ _ _ Hd) as Hdata.
      unfold BPX_image_buf_resize, bpx_on_blocks.
      destruct (bpx_image_buf_wrap_loop_ptex (Some lp)) as [s|].
      * cbn [blocks heap_with_blocks].
        destruct (_ !! bpx_data s) as [sb|]; [|discriminate].
        cbn [mbind option_bind].
        destruct (_ !! bpx_data d) as [db|]; [|discriminate].
        cbn [mbind option_bind].
        destruct (BPX_resample d s sb db) as [[|] db'];
          cbn [mbind option_bind]; intros [= <- <- <-];
          unfold BKE_loop_ptex_free; cbn [lp_rect]; rewrite ?Hrect;
          cbn [MEM_freeN blocks heap_with_blocks];
          rewrite Hdata, insert_insert_eq.
        -- rewrite delete_delete. apply Hback.
        -- apply Hback.
      * cbn [mbind option_bind]. intros [= <- <- <-].
        unfold BKE_loop_ptex_free. rewrite Hrect.
        cbn [MEM_freeN blocks heap_with_blocks]. apply Hback.
    + cbn [BPX_image_buf_resize mbind option_bind]. intros [= <- <- <-].
      unfold BKE_loop_ptex_free. rewrite Hrect.
      cbn [MEM_freeN blocks heap_with_blocks]. apply Hback.
Qed.

End ResizeFree.

Lemma loop_ptex_resize_then_free_witness :
  exists ok lp' h',
    BKE_loop_ptex_resize (World := ptex_file) raster_2x2
      {| logres_u := 2; logres_v := 1 |} heap_one_raster = Some (ok, lp', h') /\
    blocks (BKE_loop_ptex_free lp' h') = ∅.
Proof.
  destruct (BKE_loop_ptex_resize (World := ptex_file) raster_2x2
              {| logres_u := 2; logres_v := 1 |} heap_one_raster)
    as [[[ok lp'] h']|] eqn:Hrun; [|vm_compute in Hrun; discriminate].
  exists ok, lp', h'. split; [reflexivity|].
  rewrite (loop_ptex_resize_then_free _ _ _ _ _ _ Hrun).
  reflexivity.
Defined.

(** X23: the pairing across a mesh edge is mutual from the RIGHT side as
    well.  On the adjacency index built for a valid mesh, when the RIGHT
    side of a loop lies on an edge whose record gives a neighbour, and the
    previous loop is the first loop of its polygon on that edge, the query
    answers the TOP side of a loop of the neighbour, and the TOP-side query
    from that loop answers the RIGHT side of the starting loop. *)
Theorem ptex_adj_edge_cross_round_trip_right (me : Mesh)
    (adj : list BKEPtexEdgeAdj) (poly_index1 : Z) (p1 : MPoly)
    (loop_offset : Z) (l1 : MLoop) (a : BKEPtexEdgeAdj) (p2 : MPoly) :
  mesh_valid me = true ->
  bke_ptex_edge_adj_init me = Some adj ->
  array_get (me_mpoly me) poly_index1 = Some p1 ->
  0 <= loop_offset < p_totloop p1 ->
  first_loop_on_edge me p1 (l_e l1)
    (side_edge_offset p1 loop_offset BPX_SIDE_RIGHT) ->
  array_get (me_mloop me)
    (p_loopstart p1 + side_edge_offset p1 loop_offset BPX_SIDE_RIGHT)
    = Some l1 ->
  array_get adj (l_e l1) = Some a ->
  bke_ptex_edge_adj_other_poly (Some a) poly_index1 <> BKE_PTEX_NO_ADJ_POLY ->
  array_get (me_mpoly me) (bke_ptex_edge_adj_other_poly (Some a) poly_index1)
    = Some p2 ->
  exists off2,
    0 <= off2 < p_totloop p2 /\
    ptex_adj_edge adj me poly_index1 loop_offset BPX_SIDE_RIGHT =
      Some (p_loopstart p2 + off2,
            {| side := BPX_SIDE_TOP; reverse := true |}) /\
    ptex_adj_edge adj me (bke_ptex_edge_adj_other_poly (Some a) poly_index1)
      off2 BPX_SIDE_TOP =
      Some (p_loopstart p1 + loop_offset,
            {| side := BPX_SIDE_RIGHT; reverse := true |}).
Proof.
  intros Hv Hinit Hp1 Hoff Hfirst1 Hl1 Ha Hq Hp2.
  pose proof (built_neighbour_on_edge me adj (l_e l1) a poly_index1 p2
                Hv Hinit Ha Hq Hp2) as Hon2.
  set (poly_index2 := bke_ptex_edge_adj_other_poly (Some a) poly_index1) in *.
  destruct (ptex_adj_edge_cross adj me poly_index1 p1 loop_offset
              BPX_SIDE_RIGHT l1 a Hv Hp1 Hoff (or_intror eq_refl) Hl1 Ha)
    as [_ Hsome].
  destruct (Hsome p2 Hq Hp2) as [[Hno _] | (i & Hfirst2 & Hacross)];
    [destruct (Hon2 Hno)|].
  destruct Hfirst2 as (Hi & (l2 & Hl2 & He2) & Hbefore2).
  exists i. split; [exact Hi|]. split; [exact Hacross|].
  rewrite <- He2 in Ha.
  destruct (ptex_adj_edge_cross adj me poly_index2 p2 i BPX_SIDE_TOP l2 a
              Hv Hp2 Hi (or_introl eq_refl) Hl2 Ha) as [_ Hsome2].
  assert (bke_ptex_edge_adj_other_poly (Some a) poly_index2 = poly_index1)
    as Hback by (apply (other_poly_involutive_any a poly_index1);
                 [reflexivity | exact Hq]).
  rewrite Hback in Hsome2.
  assert (poly_index1 <> BKE_PTEX_NO_ADJ_POLY) as Hq1.
  { pose proof (array_get_Some _ _ _ Hp1). unfold BKE_PTEX_NO_ADJ_POLY. lia. }
  destruct (Hsome2 p1 Hq1 Hp1) as [[Hno _] | (k & Hfirstk & Hres)].
  - exfalso. rewrite He2 in Hno.
    exact (first_loop_not_none me p1 (l_e l1) _ Hfirst1 Hno).
  - rewrite He2 in Hfirstk.
    rewrite (first_loop_on_edge_unique me p1 (l_e l1) k _ Hfirstk Hfirst1)
      in Hres.
    rewrite Hres. unfold neighbour_across, side_edge_offset.
    rewrite prev_then_next by exact Hoff. reflexivity.
Qed.

Lemma ptex_adj_edge_cross_round_trip_right_witness :
  exists adj,
    bke_ptex_edge_adj_init mesh_two_triangles = Some adj /\
    ptex_adj_edge adj mesh_two_triangles 0 2 BPX_SIDE_RIGHT =
      Some (3, {| side := BPX_SIDE_TOP; reverse := true |}) /\
    ptex_adj_edge adj mesh_two_triangles 1 0 BPX_SIDE_TOP =
      Some (2, {| side := BPX_SIDE_RIGHT; reverse := true |}).
Proof.
  eexists. split; [reflexivity|].
  destruct (ptex_adj_edge_cross_round_trip_right mesh_two_triangles
              [ {| polys_0 := 0; polys_1 := -1 |};
                {| polys_0 := 0; polys_1 := 1 |};
                {| polys_0 := 0; polys_1 := -1 |};
                {| polys_0 := 1; polys_1 := -1 |};
                {| polys_0 := 1; polys_1 := -1 |} ]
              0 {| p_loopstart := 0; p_totloop := 3 |} 2
              {| l_v := 1; l_e := 1 |} {| polys_0 := 0; polys_1 := 1 |}
              {| p_loopstart := 3; p_totloop := 3 |})
    as (off2 & Hr & Hfwd & Hback);
    try reflexivity; try discriminate.
  - simpl. lia.
  - change (side_edge_offset {| p_loopstart := 0; p_totloop := 3 |} 2
              BPX_SIDE_RIGHT) with 1.
    split; [simpl; lia|]. split.
    + exists {| l_v := 1; l_e := 1 |}. split; reflexivity.
    + intros i' Hi'. assert (i' = 0) as -> by lia.
      exists {| l_v := 0; l_e := 0 |}. split; [reflexivity | discriminate].
  - assert (off2 = 0) as ->.
    { assert (ptex_adj_edge
                [ {| polys_0 := 0; polys_1 := -1 |};
                  {| polys_0 := 0; polys_1 := 1 |};
                  {| polys_0 := 0; polys_1 := -1 |};
                  {| polys_0 := 1; polys_1 := -1 |};
                  {| polys_0 := 1; polys_1 := -1 |} ]
                mesh_two_triangles 0 2 BPX_SIDE_RIGHT =
              Some (3, {| side := BPX_SIDE_TOP; reverse := true |})) as E
        by reflexivity.
      rewrite E in Hfwd. simpl in Hfwd. injection Hfwd as Hfwd. lia. }
    split; [exact Hfwd | exact Hback].
Defined.

(** X24: a raster initialised at a valid log-resolution whose two axes sum
    to more than 30 holds no texel: [BKE_loop_ptex_init] records the
    resolution and returns normally, but the buffer is either not allocated
    or an empty block. *)
Theorem loop_ptex_init_oversized (loop_ptex : MLoopPtex)
    (info : MPtexTexelInfo) (logres : MPtexLogRes) (h : heap) :
  texel_info_valid info -> logres_valid logres ->
  31 <= logres_u logres + logres_v logres ->
  exists lp h',
    BKE_loop_ptex_init loop_ptex info logres h = Some (lp, h') /\
    lp_logres lp = logres /\
    forall p buf,
      lp_rect lp = Some p -> blocks h' !! p = Some buf -> buf = [].
Proof.
  intros Hinfo Hlog H31.
  destruct (loop_ptex_init_spec loop_ptex info logres h Hinfo Hlog)
    as (lp & h' & Hrun & _ & Hl & _ & Htex & _ & _).
  exists lp, h'. split; [exact Hrun|]. split; [exact Hl|].
  intros p buf Hp Hbuf.
  destruct (Htex p buf Hp Hbuf) as (_ & Hlen & _).
  destruct (first_texel_default info [] Hinfo) as (_ & _ & _ & Hbpt).
  destruct (ptex_area_cases logres Hlog)
    as [(H30 & _) | [(_ & Harea) | (_ & Harea)]]; [lia | |].
  - exfalso. revert Hrun Hp.
    unfold BKE_loop_ptex_init, bke_ptex_texels_malloc, MEM_mallocN.
    assert ((BKE_ptex_rect_num_bytes info logres <? 2 ^ 63) = false) as Hbig.
    { apply Z.ltb_ge. unfold BKE_ptex_rect_num_bytes, size_mul, wrap_size_t.
      rewrite Harea.
      rewrite <- (Z.mod_unique
                    (BKE_ptex_bytes_per_texel info * (2 ^ 64 - 2 ^ 31))
                    (2 ^ 64) (BKE_ptex_bytes_per_texel info - 1)
                    (2 ^ 64 - BKE_ptex_bytes_per_texel info * 2 ^ 31));
        lia. }
    rewrite Hbig, andb_false_r.
    unfold bke_loop_ptex_fill. cbn [lp_rect mbind option_bind].
    intros [= <- _]. discriminate.
  - assert (BKE_ptex_rect_num_bytes info logres = 0) as Hzero.
    { unfold BKE_ptex_rect_num_bytes, size_mul. rewrite Harea, Z.mul_0_r.
      reflexivity. }
    rewrite Hzero in Hlen. destruct buf; [reflexivity | discriminate].
Qed.

Lemma loop_ptex_init_oversized_witness :
  exists lp h',
    BKE_loop_ptex_init loop_ptex_calloc
      {| data_type := MPTEX_DATA_TYPE_UINT8; num_channels := 1 |}
      {| logres_u := 16; logres_v := 16 |} heap_empty = Some (lp, h') /\
    lp_logres lp = {| logres_u := 16; logres_v := 16 |} /\
    forall p buf,
      lp_rect lp = Some p -> blocks h' !! p = Some buf -> buf = [].
Proof.
  apply loop_ptex_init_oversized.
  - split; [left; reflexivity | simpl; lia].
  - split; reflexivity.
  - simpl. lia.
Defined.
